(** * Graph rewriting core of RoboGrammar: rule compilation, matching, application

    A shallow embedding of [core/src/graph_rewrite.cpp] (namespace
    [robot_design]) and the properties of its three functions
    [createRuleFromGraph], [findMatches] and [applyRule].

    Conventions of the embedding.
    - A [std::vector] is a [list]; [push_back] appends at the end.
    - [NodeIndex] and [EdgeIndex] are unsigned machine integers, kept as [Z].
      The only wrap-around the code relies on is the conversion of [-1] used
      to initialise the translation tables; it is written out in
      [index_none].  Every [++j] happens below a vector size, so it cannot
      wrap.
    - Reading or writing a vector outside its bounds is undefined behaviour
      in C++; the embedding makes it explicit: [vget] and [vset] return
      [None], and the functions propagate it.
    - [std::set] and [std::unordered_set] are [gset Z]; only membership is
      ever asked of them. *)

From Stdlib Require Import ZArith Lia List String Ascii.
From stdpp Require Import base decidable option list sets gmap strings sorting.

Local Open Scope Z_scope.

(** ** Data model *)

(** Modelled from the spec: [robot_design/graph.h] is not among the sources.
    An attribute bundle carries a possibly empty [label_]; every other
    attribute is preserved but never interpreted by the core, and is kept as
    one opaque payload. *)
Record NodeAttributes := mkNodeAttributes {
  node_label_ : string;
  node_payload_ : string
}.

Record EdgeAttributes := mkEdgeAttributes {
  edge_label_ : string;
  edge_payload_ : string
}.

Record Node := mkNode {
  node_name_ : string;
  node_attrs_ : NodeAttributes
}.

Record Edge := mkEdge {
  head_ : Z;
  tail_ : Z;
  edge_attrs_ : EdgeAttributes
}.

Record Subgraph := mkSubgraph {
  subgraph_name_ : string;
  subgraph_nodes_ : gset Z;
  subgraph_edges_ : gset Z
}.

Record Graph := mkGraph {
  nodes_ : list Node;
  edges_ : list Edge;
  subgraphs_ : list Subgraph
}.

Record GraphMapping := mkGraphMapping {
  node_mapping_ : list Z;
  edge_mapping_ : list (list Z)
}.

Record Rule := mkRule {
  lhs_ : Graph;
  rhs_ : Graph;
  common_ : Graph;
  common_to_lhs_ : GraphMapping;
  common_to_rhs_ : GraphMapping
}.

#[global] Instance NodeAttributes_eq_dec : EqDecision NodeAttributes.
Proof. solve_decision. Defined.
#[global] Instance EdgeAttributes_eq_dec : EqDecision EdgeAttributes.
Proof. solve_decision. Defined.
#[global] Instance Node_eq_dec : EqDecision Node.
Proof. solve_decision. Defined.
#[global] Instance Edge_eq_dec : EqDecision Edge.
Proof. solve_decision. Defined.
#[global] Instance GraphMapping_eq_dec : EqDecision GraphMapping.
Proof. solve_decision. Defined.

(** The value of [NodeIndex(-1)]: all bits set in a 64-bit [std::size_t]. *)
Definition index_none : Z := (-1) mod 2 ^ 64.

(** [v.size()] *)
Definition vsize {A} (v : list A) : Z := Z.of_nat (length v).

(** [v[i]]; [None] when [i] is not a position of [v]. *)
Definition vget {A} (v : list A) (i : Z) : option A :=
  if decide (0 ≤ i < vsize v) then v !! Z.to_nat i else None.

(** [v[i] = x]; [None] when [i] is not a position of [v]. *)
Definition vset {A} (v : list A) (i : Z) (x : A) : option (list A) :=
  if decide (0 ≤ i < vsize v) then Some (<[Z.to_nat i := x]> v) else None.

(** A graph whose edges refer to positions of its own node list. *)
Definition edge_in_range (n : Z) (e : Edge) : Prop :=
  0 ≤ head_ e < n ∧ 0 ≤ tail_ e < n.

Definition wf_graph (g : Graph) : Prop :=
  Forall (edge_in_range (vsize (nodes_ g))) (edges_ g).

#[global] Instance edge_in_range_dec n e : Decision (edge_in_range n e).
Proof. unfold edge_in_range. apply _. Defined.

#[global] Instance wf_graph_dec g : Decision (wf_graph g).
Proof. unfold wf_graph. apply _. Defined.

(** ** findMatches *)

(** Outcome of running the matcher: the value returned, undefined behaviour
    (a failed [assert] or an access outside a vector), or an iteration budget
    used up before the loop ended. *)
Inductive outcome (A : Type) : Type :=
  | Returns (a : A)
  | Undefined
  | Exhausted.
Arguments Returns {A} a.
Arguments Undefined {A}.
Arguments Exhausted {A}.

(** The two vectors the loop works on.  [partial_matches] is the backtracking
    stack, kept with its [back()] at the head of the list. *)
Record fm_state := mkFmState {
  partial_matches : list GraphMapping;
  matches : list GraphMapping
}.

Inductive fm_step_result : Type :=
  | Next (s : fm_state)
  | Exit (ms : list GraphMapping)
  | Fault.

Section Matcher.
Variables pattern target : Graph.

  (** [std::find_if(target.edges_, head_ == j_head && tail_ == j_tail) != end] *)
Definition target_has_edge (j_head j_tail : Z) : bool :=
    existsb (λ target_edge,
               bool_decide (head_ target_edge = j_head) &&
               bool_decide (tail_ target_edge = j_tail))
            (edges_ target).

  (** Lines 159-186: the loop over [pattern.edges_] that computes
      [edge_fail], leaving at the first missing target edge. *)
Fixpoint edge_fail (pattern_edges : list Edge) (node_mapping : list Z)
      (i j : Z) : option bool :=
    match pattern_edges with
    | [] => Some false
    | pattern_edge :: rest =>
        if bool_decide (head_ pattern_edge = i) &&
           bool_decide (tail_ pattern_edge ≤ i) then
          j_tail ← vget node_mapping (tail_ pattern_edge);
          if target_has_edge j j_tail
          then edge_fail rest node_mapping i j
          else Some true
        else if bool_decide (tail_ pattern_edge = i) &&
                bool_decide (head_ pattern_edge ≤ i) then
          j_head ← vget node_mapping (head_ pattern_edge);
          if target_has_edge j_head j
          then edge_fail rest node_mapping i j
          else Some true
        else edge_fail rest node_mapping i j
    end.

  (** Lines 203-208: the indices [n] of the target edges from [j_tail] to
      [j_head], in increasing order. *)
Fixpoint collect_target_edges (target_edges : list Edge) (n : Z)
      (j_head j_tail : Z) : list Z :=
    match target_edges with
    | [] => []
    | target_edge :: rest =>
        if bool_decide (head_ target_edge = j_head) &&
           bool_decide (tail_ target_edge = j_tail)
        then n :: collect_target_edges rest (n + 1) j_head j_tail
        else collect_target_edges rest (n + 1) j_head j_tail
    end.

  (** [edge_mapping_.resize(n)] *)
Definition vresize {A} (n : nat) (d : A) (v : list A) : list A :=
    take n v ++ replicate (n - length v) d.

  (** Lines 198-209: fill in the edge matches of a complete node mapping. *)
Fixpoint fill_edge_matches (pattern_edges : list Edge)
      (edge_mapping : list (list Z)) (node_mapping : list Z)
      : option (list (list Z)) :=
    match pattern_edges, edge_mapping with
    | [], _ => Some []
    | pattern_edge :: rest, slot :: slots =>
        j_head ← vget node_mapping (head_ pattern_edge);
        j_tail ← vget node_mapping (tail_ pattern_edge);
        filled ← fill_edge_matches rest slots node_mapping;
        Some ((slot ++ collect_target_edges (edges_ target) 0 j_head j_tail)
                :: filled)
    | _ :: _, [] => None
    end.

  (** [++pm.node_mapping_.back()] *)
Definition incr_back (pm : GraphMapping) : option GraphMapping :=
    j ← last (node_mapping_ pm);
    Some (mkGraphMapping (removelast (node_mapping_ pm) ++ [j + 1])
                         (edge_mapping_ pm)).

  (** One iteration of the [while] loop, lines 132-217. *)
Definition fm_step (s : fm_state) : fm_step_result :=
    match partial_matches s with
    | [] => Exit (matches s)
    | pm :: below =>
        match last (node_mapping_ pm) with
        | None => Fault
        | Some j =>
            let i := vsize (node_mapping_ pm) - 1 in
            if bool_decide (vsize (nodes_ target) ≤ j) then
              (* No more possible matches with this prefix, backtrack *)
              match below with
              | [] => Next (mkFmState [] (matches s))
              | parent_pm :: rest =>
                  match incr_back parent_pm with
                  | Some parent_pm' =>
                      Next (mkFmState (parent_pm' :: rest) (matches s))
                  | None => Fault
                  end
              end
            else
              match vget (nodes_ pattern) i, vget (nodes_ target) j with
              | Some pattern_node, Some target_node =>
                  let pattern_node_label := node_label_ (node_attrs_ pattern_node) in
                  let target_node_label := node_label_ (node_attrs_ target_node) in
                  let advance :=
                    match incr_back pm with
                    | Some pm' => Next (mkFmState (pm' :: below) (matches s))
                    | None => Fault
                    end in
                  if bool_decide (pattern_node_label ≠ EmptyString) &&
                     bool_decide (pattern_node_label ≠ target_node_label)
                  then advance
                  else
                    match edge_fail (edges_ pattern) (node_mapping_ pm) i j with
                    | None => Fault
                    | Some true => advance
                    | Some false =>
                        if bool_decide (vsize (node_mapping_ pm)
                                        = vsize (nodes_ pattern)) then
                          (* Node matching is complete, fill in edge matches *)
                          match fill_edge_matches (edges_ pattern)
                                  (vresize (length (edges_ pattern)) []
                                           (edge_mapping_ pm))
                                  (node_mapping_ pm),
                                incr_back pm with
                          | Some filled, Some pm' =>
                              Next (mkFmState (pm' :: below)
                                      (matches s ++
                                       [mkGraphMapping (node_mapping_ pm) filled]))
                          | _, _ => Fault
                          end
                        else
                          (* Recurse *)
                          Next (mkFmState
                                  (mkGraphMapping (node_mapping_ pm ++ [0])
                                                  (edge_mapping_ pm)
                                     :: pm :: below)
                                  (matches s))
                    end
              | _, _ => Fault
              end
        end
    end.

Fixpoint fm_loop (fuel : nat) (s : fm_state) : outcome (list GraphMapping) :=
    match fuel with
    | O => Exhausted
    | S fuel' =>
        match fm_step s with
        | Next s' => fm_loop fuel' s'
        | Exit ms => Returns ms
        | Fault => Undefined
        end
    end.

  (** Iterations a frame with [d] pattern nodes still to assign below it can
      take, over all [t + 1] values of its speculative entry. *)
Fixpoint frame_cost (t : nat) (d : nat) : nat :=
    match d with
    | O => t + 1
    | S d' => t * (1 + frame_cost t d') + 1
    end.

Definition fm_budget : nat :=
    frame_cost (length (nodes_ target)) (length (nodes_ pattern) - 1) + 1.

Definition fm_init : fm_state :=
    mkFmState [mkGraphMapping [0] []] [].

Definition findMatches : outcome (list GraphMapping) :=
    if bool_decide (1 ≤ vsize (nodes_ pattern))
    then fm_loop fm_budget fm_init
    else Undefined.

End Matcher.

(** ** applyRule *)

(** A [for] loop over the positions [ixs], threading the variables it
    assigns through [body]; [None] as soon as an iteration leaves a vector. *)
Fixpoint for_each {S I : Type} (body : S → I → option S) (ixs : list I) (s : S)
    : option S :=
  match ixs with
  | [] => Some s
  | i :: ixs' => s' ← body s i; for_each body ixs' s'
  end.

(** The positions [0, ..., v.size() - 1] of a vector. *)
Definition positions {A} (v : list A) : list Z := seqZ 0 (vsize v).

(** The variables of [applyRule]: the two vectors of [result] and the two
    translation tables. *)
Record apply_state := mkApplyState {
  result_nodes : list Node;
  result_edges : list Edge;
  target_to_result_node : list Z;
  rhs_to_result_node : list Z
}.

(** [edge.head_ = table[edge.head_]; edge.tail_ = table[edge.tail_];] *)
Definition translate_edge (table : list Z) (edge : Edge) : option Edge :=
  head ← vget table (head_ edge);
  tail ← vget table (tail_ edge);
  Some (mkEdge head tail (edge_attrs_ edge)).

Section Applier.
Variables (rule : Rule) (target : Graph) (lhs_to_target : GraphMapping).

(** Lines 233-238: copy target nodes not in LHS to result. *)
Definition copy_context_node (target_nodes_in_lhs : gset Z)
    (s : apply_state) (i : Z) : option apply_state :=
  if decide (i ∈ target_nodes_in_lhs) then Some s
  else
    node ← vget (nodes_ target) i;
    let nodes := result_nodes s ++ [node] in
    table ← vset (target_to_result_node s) i (vsize nodes - 1);
    Some (mkApplyState nodes (result_edges s) table (rhs_to_result_node s)).

(** Lines 241-246: copy target nodes in LHS to result if they are in common
    with the RHS. *)
Definition copy_common_node (s : apply_state) (i : Z) : option apply_state :=
  lhs_node ← vget (node_mapping_ (common_to_lhs_ rule)) i;
  target_node ← vget (node_mapping_ lhs_to_target) lhs_node;
  node ← vget (nodes_ target) target_node;
  let nodes := result_nodes s ++ [node] in
  table ← vset (target_to_result_node s) target_node (vsize nodes - 1);
  Some (mkApplyState nodes (result_edges s) table (rhs_to_result_node s)).

(** Lines 252-257: add RHS nodes which are not in common with the LHS. *)
Definition add_rhs_node (rhs_nodes_in_common : gset Z)
    (s : apply_state) (i : Z) : option apply_state :=
  if decide (i ∈ rhs_nodes_in_common) then Some s
  else
    node ← vget (nodes_ (rhs_ rule)) i;
    let nodes := result_nodes s ++ [node] in
    table ← vset (rhs_to_result_node s) i (vsize nodes - 1);
    Some (mkApplyState nodes (result_edges s) (target_to_result_node s) table).

(** Lines 264-271: copy target edges not in LHS to result. *)
Definition copy_context_edge (target_edges_in_lhs : gset Z)
    (s : apply_state) (m : Z) : option apply_state :=
  if decide (m ∈ target_edges_in_lhs) then Some s
  else
    target_edge ← vget (edges_ target) m;
    edge ← translate_edge (target_to_result_node s) target_edge;
    Some (mkApplyState (result_nodes s) (result_edges s ++ [edge])
                       (target_to_result_node s) (rhs_to_result_node s)).

(** Lines 279-284: the target edges of one LHS edge. *)
Definition copy_matched_edge (s : apply_state) (target_edge : Z)
    : option apply_state :=
  matched ← vget (edges_ target) target_edge;
  edge ← translate_edge (target_to_result_node s) matched;
  Some (mkApplyState (result_nodes s) (result_edges s ++ [edge])
                     (target_to_result_node s) (rhs_to_result_node s)).

(** Lines 274-285: copy target edges in LHS to result if they are in common
    with the RHS. *)
Definition copy_common_edge (s : apply_state) (m : Z) : option apply_state :=
  lhs_edges ← vget (edge_mapping_ (common_to_lhs_ rule)) m;
  lhs_edge ← vget lhs_edges 0;
  target_edges ← vget (edge_mapping_ lhs_to_target) lhs_edge;
  for_each copy_matched_edge target_edges s.

(** Lines 292-299: add RHS edges which are not in common with the LHS. *)
Definition add_rhs_edge (rhs_edges_in_common : gset Z)
    (s : apply_state) (m : Z) : option apply_state :=
  if decide (m ∈ rhs_edges_in_common) then Some s
  else
    rhs_edge ← vget (edges_ (rhs_ rule)) m;
    edge ← translate_edge (rhs_to_result_node s) rhs_edge;
    Some (mkApplyState (result_nodes s) (result_edges s ++ [edge])
                       (target_to_result_node s) (rhs_to_result_node s)).

Definition apply_init : apply_state :=
  mkApplyState [] []
    (replicate (length (nodes_ target)) index_none)
    (replicate (length (nodes_ (rhs_ rule))) index_none).

Definition target_nodes_in_lhs : gset Z :=
  list_to_set (node_mapping_ lhs_to_target).

Definition rhs_nodes_in_common : gset Z :=
  list_to_set (node_mapping_ (common_to_rhs_ rule)).

Definition target_edges_in_lhs : gset Z :=
  list_to_set (concat (edge_mapping_ lhs_to_target)).

Definition rhs_edges_in_common : gset Z :=
  list_to_set (concat (edge_mapping_ (common_to_rhs_ rule))).

(** The node part, lines 226-257. *)
Definition apply_nodes : option apply_state :=
  s1 ← for_each (copy_context_node target_nodes_in_lhs)
                (positions (nodes_ target)) apply_init;
  s2 ← for_each copy_common_node (positions (nodes_ (common_ rule))) s1;
  for_each (add_rhs_node rhs_nodes_in_common) (positions (nodes_ (rhs_ rule))) s2.

(** The edge part, lines 259-299. *)
Definition apply_edges (s : apply_state) : option apply_state :=
  s4 ← for_each (copy_context_edge target_edges_in_lhs)
                (positions (edges_ target)) s;
  s5 ← for_each copy_common_edge (positions (edges_ (common_ rule))) s4;
  for_each (add_rhs_edge rhs_edges_in_common) (positions (edges_ (rhs_ rule))) s5.

Definition applyRule : option Graph :=
  s3 ← apply_nodes;
  s6 ← apply_edges s3;
  Some (mkGraph (result_nodes s6) (result_edges s6) []).

End Applier.

(** ** createRuleFromGraph *)

(** Outcome of compiling a rule: the rule, a [std::runtime_error] with its
    message, or undefined behaviour (an access outside a vector). *)
Inductive thrown (A : Type) : Type :=
  | Value (a : A)
  | RuntimeError (what : string)
  | OutOfBounds.
Arguments Value {A} a.
Arguments RuntimeError {A} what.
Arguments OutOfBounds {A}.

#[global] Instance thrown_bind : MBind thrown := λ A B f x,
  match x with
  | Value a => f a
  | RuntimeError what => RuntimeError what
  | OutOfBounds => OutOfBounds
  end.

(** A read or write of a vector inside code that may throw. *)
Definition access {A} (x : option A) : thrown A :=
  match x with
  | Some a => Value a
  | None => OutOfBounds
  end.

(** A [for] loop whose body may throw. *)
Fixpoint for_each_thrown {S I : Type} (body : S → I → thrown S) (ixs : list I)
    (s : S) : thrown S :=
  match ixs with
  | [] => Value s
  | i :: ixs' => s' ← body s i; for_each_thrown body ixs' s'
  end.

(** The double quote character of the messages. *)
Definition dquote : string := String "034"%char EmptyString.

Definition missing_subgraph_error : string :=
  "Graph must contain subgraphs named " ++ dquote ++ "L" ++ dquote
  ++ " and " ++ dquote ++ "R" ++ dquote.

Definition node_neither_error (node : Node) : string :=
  "Node " ++ dquote ++ node_name_ node ++ dquote
  ++ " is in neither the LHS nor the RHS".

Definition label_reused_error (label side : string) : string :=
  "Edge label " ++ dquote ++ label ++ dquote
  ++ " is used more than once in the " ++ side.

Definition edge_both_error : string :=
  "Edge is in both the " ++ dquote ++ "L" ++ dquote ++ " and " ++ dquote ++ "R"
  ++ dquote ++ " subgraphs, use separate edges with the same label instead".

Definition edge_neither_error : string :=
  "Edge is in neither the LHS nor the RHS".

(** A [std::unordered_map<std::string, EdgeIndex>], kept as its entries in
    the order they were inserted. *)
Definition label_table : Type := list (string * Z).

(** [table.find(label)] *)
Definition table_find (table : label_table) (label : string) : option Z :=
  snd <$> find (λ entry, bool_decide (fst entry = label)) table.

(** [table.emplace(label, m)]: the table afterwards, and whether the entry
    was inserted. *)
Definition table_emplace (table : label_table) (label : string) (m : Z)
    : label_table * bool :=
  match table_find table label with
  | Some _ => (table, false)
  | None => (table ++ [(label, m)], true)
  end.

(** The variables assigned by the loop over the nodes, lines 27-54. *)
Record node_split := mkNodeSplit {
  lhs_nodes : list Node;
  rhs_nodes : list Node;
  common_nodes : list Node;
  common_to_lhs_nodes : list Z;
  common_to_rhs_nodes : list Z;
  graph_to_lhs_node : list Z;
  graph_to_rhs_node : list Z;
  graph_to_common_node : list Z
}.

(** The variables assigned by the loop over the edges, lines 57-103. *)
Record edge_split := mkEdgeSplit {
  lhs_edges : list Edge;
  rhs_edges : list Edge;
  lhs_label_to_edge : label_table;
  rhs_label_to_edge : label_table
}.

(** The variables assigned by the loop over the labels, lines 106-118. *)
Record common_edge_list := mkCommonEdgeList {
  common_edges : list Edge;
  common_to_lhs_edges : list (list Z);
  common_to_rhs_edges : list (list Z)
}.

Section Compiler.
(** The order in which a range-based [for] visits the entries of an
    unordered map is left open by the language; it is a parameter here, a
    function of the entries in insertion order. *)
Variable traversal : label_table → label_table.
Variable graph : Graph.

(** Lines 36-39 *)
Definition put_lhs_node (node : Node) (i : Z) (s : node_split) : thrown node_split :=
  let nodes := lhs_nodes s ++ [node] in
  table ← access (vset (graph_to_lhs_node s) i (vsize nodes - 1));
  Value (mkNodeSplit nodes (rhs_nodes s) (common_nodes s)
           (common_to_lhs_nodes s) (common_to_rhs_nodes s)
           table (graph_to_rhs_node s) (graph_to_common_node s)).

(** Lines 40-43 *)
Definition put_rhs_node (node : Node) (i : Z) (s : node_split) : thrown node_split :=
  let nodes := rhs_nodes s ++ [node] in
  table ← access (vset (graph_to_rhs_node s) i (vsize nodes - 1));
  Value (mkNodeSplit (lhs_nodes s) nodes (common_nodes s)
           (common_to_lhs_nodes s) (common_to_rhs_nodes s)
           (graph_to_lhs_node s) table (graph_to_common_node s)).

(** Lines 44-49 *)
Definition put_common_node (node : Node) (i : Z) (s : node_split) : thrown node_split :=
  let nodes := common_nodes s ++ [node] in
  table ← access (vset (graph_to_common_node s) i (vsize nodes - 1));
  Value (mkNodeSplit (lhs_nodes s) (rhs_nodes s) nodes
           (common_to_lhs_nodes s ++ [vsize (lhs_nodes s) - 1])
           (common_to_rhs_nodes s ++ [vsize (rhs_nodes s) - 1])
           (graph_to_lhs_node s) (graph_to_rhs_node s) table).

(** Lines 32-54: one iteration of the loop over the nodes. *)
Definition split_node (lhs_subgraph rhs_subgraph : Subgraph)
    (s : node_split) (i : Z) : thrown node_split :=
  node ← access (vget (nodes_ graph) i);
  let node_in_lhs := bool_decide (i ∈ subgraph_nodes_ lhs_subgraph) in
  let node_in_rhs := bool_decide (i ∈ subgraph_nodes_ rhs_subgraph) in
  s1 ← (if node_in_lhs then put_lhs_node node i s else Value s);
  s2 ← (if node_in_rhs then put_rhs_node node i s1 else Value s1);
  s3 ← (if node_in_lhs && node_in_rhs then put_common_node node i s2 else Value s2);
  if negb node_in_lhs && negb node_in_rhs
  then RuntimeError (node_neither_error node)
  else Value s3.

(** Lines 66-79 *)
Definition put_lhs_edge (table : list Z) (edge : Edge) (s : edge_split)
    : thrown edge_split :=
  lhs_edge ← access (translate_edge table edge);
  let edges := lhs_edges s ++ [lhs_edge] in
  let label := edge_label_ (edge_attrs_ edge) in
  if bool_decide (label ≠ EmptyString) then
    let result := table_emplace (lhs_label_to_edge s) label (vsize edges - 1) in
    if snd result
    then Value (mkEdgeSplit edges (rhs_edges s) (fst result) (rhs_label_to_edge s))
    else RuntimeError (label_reused_error label "LHS")
  else Value (mkEdgeSplit edges (rhs_edges s)
                (lhs_label_to_edge s) (rhs_label_to_edge s)).

(** Lines 80-93 *)
Definition put_rhs_edge (table : list Z) (edge : Edge) (s : edge_split)
    : thrown edge_split :=
  rhs_edge ← access (translate_edge table edge);
  let edges := rhs_edges s ++ [rhs_edge] in
  let label := edge_label_ (edge_attrs_ edge) in
  if bool_decide (label ≠ EmptyString) then
    let result := table_emplace (rhs_label_to_edge s) label (vsize edges - 1) in
    if snd result
    then Value (mkEdgeSplit (lhs_edges s) edges (lhs_label_to_edge s) (fst result))
    else RuntimeError (label_reused_error label "RHS")
  else Value (mkEdgeSplit (lhs_edges s) edges
                (lhs_label_to_edge s) (rhs_label_to_edge s)).

(** Lines 61-103: one iteration of the loop over the edges. *)
Definition split_edge (lhs_subgraph rhs_subgraph : Subgraph) (ns : node_split)
    (s : edge_split) (m : Z) : thrown edge_split :=
  edge ← access (vget (edges_ graph) m);
  let edge_in_lhs := bool_decide (m ∈ subgraph_edges_ lhs_subgraph) in
  let edge_in_rhs := bool_decide (m ∈ subgraph_edges_ rhs_subgraph) in
  s1 ← (if edge_in_lhs then put_lhs_edge (graph_to_lhs_node ns) edge s else Value s);
  s2 ← (if edge_in_rhs then put_rhs_edge (graph_to_rhs_node ns) edge s1 else Value s1);
  if edge_in_lhs && edge_in_rhs then RuntimeError edge_both_error
  else if negb edge_in_lhs && negb edge_in_rhs then RuntimeError edge_neither_error
  else Value s2.

(** Lines 106-118: one iteration of the loop over the LHS labels. *)
Definition pair_label (rhs_labels : label_table) (s : common_edge_list)
    (elem_lhs : string * Z) : common_edge_list :=
  match table_find rhs_labels (fst elem_lhs) with
  | Some m_rhs =>
      mkCommonEdgeList
        (common_edges s
           ++ [mkEdge 0 0 (mkEdgeAttributes (fst elem_lhs) EmptyString)])
        (common_to_lhs_edges s ++ [[snd elem_lhs]])
        (common_to_rhs_edges s ++ [[m_rhs]])
  | None => s
  end.

Definition createRuleFromGraph : thrown Rule :=
  match find (λ subgraph, bool_decide (subgraph_name_ subgraph = "L"))
             (subgraphs_ graph),
        find (λ subgraph, bool_decide (subgraph_name_ subgraph = "R"))
             (subgraphs_ graph) with
  | Some lhs_subgraph, Some rhs_subgraph =>
      let unassigned := replicate (length (nodes_ graph)) index_none in
      ns ← for_each_thrown (split_node lhs_subgraph rhs_subgraph)
             (positions (nodes_ graph))
             (mkNodeSplit [] [] [] [] [] unassigned unassigned unassigned);
      es ← for_each_thrown (split_edge lhs_subgraph rhs_subgraph ns)
             (positions (edges_ graph))
             (mkEdgeSplit [] [] [] []);
      let ce := fold_left (pair_label (rhs_label_to_edge es))
                  (traversal (lhs_label_to_edge es))
                  (mkCommonEdgeList [] [] []) in
      Value (mkRule
               (mkGraph (lhs_nodes ns) (lhs_edges es) [])
               (mkGraph (rhs_nodes ns) (rhs_edges es) [])
               (mkGraph (common_nodes ns) (common_edges ce) [])
               (mkGraphMapping (common_to_lhs_nodes ns) (common_to_lhs_edges ce))
               (mkGraphMapping (common_to_rhs_nodes ns) (common_to_rhs_edges ce)))
  | _, _ => RuntimeError missing_subgraph_error
  end.

End Compiler.

(** ** Auxiliary definitions for the matcher *)

Section MatcherAux.
Variables pattern target : Graph.

Let n := length (nodes_ pattern).
Let t := length (nodes_ target).

(** Iterations spent on one value of the speculative entry of a frame
      with [d] pattern nodes left to assign below it. *)
Definition candidate_cost (d : nat) : nat :=
    match d with
    | O => 1
    | S d' => 1 + frame_cost t d'
    end.

Definition back_of (pm : GraphMapping) : Z :=
    default 0 (last (node_mapping_ pm)).

  (** Every frame holds as many entries as its height in the stack; the
      entries under test stay within [0, t], and within [0, t) below the
      top. *)
Fixpoint frames_below_ok (st : list GraphMapping) : Prop :=
    match st with
    | [] => True
    | pm :: below =>
        length (node_mapping_ pm) = length st ∧
        0 ≤ back_of pm < Z.of_nat t ∧
        frames_below_ok below
    end.

Definition stack_ok (st : list GraphMapping) : Prop :=
    match st with
    | [] => True
    | pm :: below =>
        length (node_mapping_ pm) = length st ∧
        (length st ≤ n)%nat ∧
        0 ≤ back_of pm ≤ Z.of_nat t ∧
        frames_below_ok below
    end.

Definition remaining (pm : GraphMapping) : nat :=
    (Z.to_nat (Z.of_nat t - back_of pm)
     * candidate_cost (n - length (node_mapping_ pm)))%nat.

Fixpoint potential_below (st : list GraphMapping) : nat :=
    match st with
    | [] => 0
    | pm :: below =>
        (remaining pm - candidate_cost (n - length (node_mapping_ pm)) + 1
         + potential_below below)%nat
    end.

Definition potential (st : list GraphMapping) : nat :=
    match st with
    | [] => 0
    | pm :: below => (remaining pm + 1 + potential_below below)%nat
    end.

(** A frame of the backtracking stack: node entries only. *)
Definition frame (nm : list Z) : GraphMapping := mkGraphMapping nm [].

Definition nm_at (nm : list Z) (i : Z) : Z := default 0 (vget nm i).

  (** The tests of lines 149-190 on a frame whose last entry is under test. *)
Definition accepts (nm : list Z) : bool :=
    match last nm with
    | None => false
    | Some j =>
        match vget (nodes_ pattern) (vsize nm - 1), vget (nodes_ target) j with
        | Some pattern_node, Some target_node =>
            negb (bool_decide (node_label_ (node_attrs_ pattern_node) ≠ EmptyString) &&
                  bool_decide (node_label_ (node_attrs_ pattern_node)
                               ≠ node_label_ (node_attrs_ target_node))) &&
            bool_decide (edge_fail target (edges_ pattern) nm (vsize nm - 1) j
                         = Some false)
        | _, _ => false
        end
    end.

  (** The match recorded for a complete node mapping. *)
Definition complete (nm : list Z) : GraphMapping :=
    mkGraphMapping nm
      (map (λ pattern_edge,
              collect_target_edges (edges_ target) 0
                (nm_at nm (head_ pattern_edge)) (nm_at nm (tail_ pattern_edge)))
           (edges_ pattern)).

  (** Node mappings found below an accepted frame [nm] when [d] pattern
      nodes are still unassigned, in the order the loop meets them. *)
Fixpoint extend (d : nat) (nm : list Z) : list (list Z) :=
    match d with
    | O => [nm]
    | S d' =>
        flat_map (λ j, if accepts (nm ++ [j]) then extend d' (nm ++ [j]) else [])
                 (seqZ 0 (Z.of_nat t))
    end.

Definition try_candidates (d : nat) (prefix : list Z) (js : list Z)
      : list (list Z) :=
    flat_map (λ j, if accepts (prefix ++ [j]) then extend d (prefix ++ [j]) else [])
             js.

Definition fm_next (s s' : fm_state) : Prop :=
    fm_step pattern target s = Next s'.

(** Candidates accepted one after the other, starting from [pre]. *)
Fixpoint accepted_path (pre suf : list Z) : Prop :=
  match suf with
  | [] => True
  | j :: suf' =>
      0 ≤ j < Z.of_nat t ∧ accepts (pre ++ [j]) = true ∧
      accepted_path (pre ++ [j]) suf'
  end.

(** The matching semantics in the words of the specification: an
    assignment of one target node to every pattern node such that a
    non-empty pattern label equals the target label, and such that every
    pattern edge has a target edge between the assigned endpoints, in the
    same direction.  Injectivity is not asked for. *)
Definition label_constraint (nm : list Z) : Prop :=
  ∀ (i : nat) pattern_node,
    nodes_ pattern !! i = Some pattern_node →
    ∃ j target_node,
      nm !! i = Some j ∧ vget (nodes_ target) j = Some target_node ∧
      (node_label_ (node_attrs_ pattern_node) ≠ EmptyString →
       node_label_ (node_attrs_ pattern_node)
       = node_label_ (node_attrs_ target_node)).

Definition edge_constraint (nm : list Z) : Prop :=
  ∀ pattern_edge,
    pattern_edge ∈ edges_ pattern →
    ∃ j_head j_tail target_edge,
      vget nm (head_ pattern_edge) = Some j_head ∧
      vget nm (tail_ pattern_edge) = Some j_tail ∧
      target_edge ∈ edges_ target ∧
      head_ target_edge = j_head ∧ tail_ target_edge = j_tail.

Definition valid_assignment (nm : list Z) : Prop :=
  length nm = n ∧ label_constraint nm ∧ edge_constraint nm.

(** Pattern node [i] may be sent to target node [j]. *)
Definition label_ok_at (i : nat) (j : Z) : Prop :=
  ∃ pattern_node target_node,
    nodes_ pattern !! i = Some pattern_node ∧
    vget (nodes_ target) j = Some target_node ∧
    (node_label_ (node_attrs_ pattern_node) ≠ EmptyString →
     node_label_ (node_attrs_ pattern_node)
     = node_label_ (node_attrs_ target_node)).

(** The pattern edge has a target edge between the images of its ends. *)
Definition edge_ok (nm : list Z) (pattern_edge : Edge) : Prop :=
  target_has_edge target (nm_at nm (head_ pattern_edge))
                  (nm_at nm (tail_ pattern_edge)) = true.

End MatcherAux.

(** Lexicographic order on node mappings. *)
Fixpoint lex_lt (a b : list Z) : Prop :=
  match a, b with
  | [], _ :: _ => True
  | x :: a', y :: b' => x < y ∨ (x = y ∧ lex_lt a' b')
  | _, [] => False
  end.

(** The node labels of a graph, and the ends of its edges: all that the
    matcher reads of its two arguments. *)
Definition node_labels (g : Graph) : list string :=
  map (λ node, node_label_ (node_attrs_ node)) (nodes_ g).

Definition edge_ends (g : Graph) : list (Z * Z) :=
  map (λ edge, (head_ edge, tail_ edge)) (edges_ g).

(** [pattern'] asks for no more than [pattern]: the same number of nodes,
    each with the label of its counterpart or with none, and no edge that
    [pattern] does not have. *)
Definition asks_less (pattern' pattern : Graph) : Prop :=
  Forall2 (λ node' node,
             node_label_ (node_attrs_ node') = EmptyString ∨
             node_label_ (node_attrs_ node') = node_label_ (node_attrs_ node))
          (nodes_ pattern') (nodes_ pattern) ∧
  edges_ pattern' ⊆ edges_ pattern.

(** [target'] offers no less than [target]: the same nodes, and every edge
    of [target]. *)
Definition offers_more (target' target : Graph) : Prop :=
  nodes_ target' = nodes_ target ∧ edges_ target ⊆ edges_ target'.

(** ** Auxiliary definitions for the applier *)

(** [push_back] of [src[x]] for each [x] of [xs], in order, recording in
    [table[x]] the position the node got. *)
Fixpoint emit_nodes (src : list Node) (xs : list Z) (nodes : list Node)
    (table : list Z) : option (list Node * list Z) :=
  match xs with
  | [] => Some (nodes, table)
  | x :: xs' =>
      node ← vget src x;
      table' ← vset table x (vsize (nodes ++ [node]) - 1);
      emit_nodes src xs' (nodes ++ [node]) table'
  end.

(** [push_back] of [src[m]], its ends sent through [table], for each [m] of
    [ms], in order. *)
Fixpoint emit_edges (src : list Edge) (table : list Z) (ms : list Z)
    (edges : list Edge) : option (list Edge) :=
  match ms with
  | [] => Some edges
  | m :: ms' =>
      src_edge ← vget src m;
      edge ← translate_edge table src_edge;
      emit_edges src table ms' (edges ++ [edge])
  end.

Section ApplierAux.
Variables (rule : Rule) (target : Graph) (lhs_to_target : GraphMapping).

(** Target nodes outside the image of the match, in target order. *)
Definition context_nodes : list Z :=
  filter (λ i, i ∉ target_nodes_in_lhs lhs_to_target) (positions (nodes_ target)).

(** The target node standing for the common node [i]. *)
Definition common_image (i : Z) : option Z :=
  lhs_node ← vget (node_mapping_ (common_to_lhs_ rule)) i;
  vget (node_mapping_ lhs_to_target) lhs_node.

Definition common_images : option (list Z) :=
  mapM common_image (positions (nodes_ (common_ rule))).

(** RHS nodes outside the common interface, in RHS order. *)
Definition fresh_nodes : list Z :=
  filter (λ i, i ∉ rhs_nodes_in_common rule) (positions (nodes_ (rhs_ rule))).

(** Target edges outside the image of the match, in target order. *)
Definition context_edges : list Z :=
  filter (λ m, m ∉ target_edges_in_lhs lhs_to_target) (positions (edges_ target)).

(** The target edges standing for the common edge [m]. *)
Definition common_edge_images (m : Z) : option (list Z) :=
  lhs_edges ← vget (edge_mapping_ (common_to_lhs_ rule)) m;
  lhs_edge ← vget lhs_edges 0;
  vget (edge_mapping_ lhs_to_target) lhs_edge.

Definition kept_edges : option (list Z) :=
  images ← mapM common_edge_images (positions (edges_ (common_ rule)));
  Some (concat images).

(** RHS edges outside the common interface, in RHS order. *)
Definition fresh_edges : list Z :=
  filter (λ m, m ∉ rhs_edges_in_common rule) (positions (edges_ (rhs_ rule))).

End ApplierAux.

(** The invariants of a rule (data model): the node mappings of the common
    interface inject its nodes into the two sides, its edge mappings pair
    every common edge with one edge of each side, and the edges of the sides
    stay inside their node lists. *)
Definition injects_nodes (mapping : GraphMapping) (common side : Graph) : Prop :=
  vsize (node_mapping_ mapping) = vsize (nodes_ common) ∧
  Forall (λ i, 0 ≤ i < vsize (nodes_ side)) (node_mapping_ mapping) ∧
  NoDup (node_mapping_ mapping).

Definition pairs_edges (mapping : GraphMapping) (common side : Graph) : Prop :=
  vsize (edge_mapping_ mapping) = vsize (edges_ common) ∧
  Forall (λ ms, length ms = 1%nat ∧ Forall (λ m, 0 ≤ m < vsize (edges_ side)) ms)
         (edge_mapping_ mapping).

Definition rule_wf (rule : Rule) : Prop :=
  injects_nodes (common_to_lhs_ rule) (common_ rule) (lhs_ rule) ∧
  injects_nodes (common_to_rhs_ rule) (common_ rule) (rhs_ rule) ∧
  pairs_edges (common_to_lhs_ rule) (common_ rule) (lhs_ rule) ∧
  pairs_edges (common_to_rhs_ rule) (common_ rule) (rhs_ rule) ∧
  wf_graph (lhs_ rule) ∧ wf_graph (rhs_ rule).

#[global] Instance injects_nodes_dec mapping common side :
  Decision (injects_nodes mapping common side).
Proof. unfold injects_nodes. apply _. Defined.

#[global] Instance pairs_edges_dec mapping common side :
  Decision (pairs_edges mapping common side).
Proof. unfold pairs_edges. apply _. Defined.

#[global] Instance rule_wf_dec rule : Decision (rule_wf rule).
Proof. unfold rule_wf. apply _. Defined.

(** A complete embedding of [pattern] into [target], as the matcher
    records it. *)
Definition match_of (pattern target : Graph) (φ : GraphMapping) : Prop :=
  valid_assignment pattern target (node_mapping_ φ) ∧
  φ = complete pattern target (node_mapping_ φ).

(** LHS nodes outside the common interface: the nodes a rule deletes. *)
Definition deleted_nodes (rule : Rule) : list Z :=
  filter (λ l, l ∉ (list_to_set (node_mapping_ (common_to_lhs_ rule)) : gset Z))
         (positions (nodes_ (lhs_ rule))).

(** The distinct target nodes in the image of the deleted nodes. *)
Definition deleted_image (rule : Rule) (φ : GraphMapping) : gset Z :=
  list_to_set (map (nm_at (node_mapping_ φ)) (deleted_nodes rule)).

(** The target nodes that the common nodes are matched to, one entry per
    common node. *)
Definition kept_image (rule : Rule) (φ : GraphMapping) : list Z :=
  map (nm_at (node_mapping_ φ)) (node_mapping_ (common_to_lhs_ rule)).

(** A target node survives the rewriting when no LHS node is mapped to it,
    or when a common node is. *)
Definition survives (rule : Rule) (φ : GraphMapping) (x : Z) : Prop :=
  x ∉ node_mapping_ φ ∨ x ∈ default [] (common_images rule φ).

(** No target edge that the applier copies touches a node that does not
    survive (the gluing condition of the double pushout). *)
Definition no_dangling_edge (rule : Rule) (target : Graph) (φ : GraphMapping)
    : Prop :=
  Forall (λ m, match vget (edges_ target) m with
               | Some target_edge =>
                   survives rule φ (head_ target_edge) ∧
                   survives rule φ (tail_ target_edge)
               | None => True
               end)
         (context_edges target φ ++ default [] (kept_edges rule φ)).

(** Every RHS edge outside the common interface joins RHS nodes outside the
    common interface. *)
Definition fresh_edges_on_fresh_nodes (rule : Rule) : Prop :=
  Forall (λ m, match vget (edges_ (rhs_ rule)) m with
               | Some rhs_edge =>
                   (head_ rhs_edge ∉ node_mapping_ (common_to_rhs_ rule)) ∧
                   (tail_ rhs_edge ∉ node_mapping_ (common_to_rhs_ rule))
               | None => True
               end)
         (fresh_edges rule).

#[global] Instance survives_dec rule φ x : Decision (survives rule φ x).
Proof. unfold survives. apply _. Defined.

#[global] Instance no_dangling_edge_dec rule target φ :
  Decision (no_dangling_edge rule target φ).
Proof.
  unfold no_dangling_edge. apply Forall_dec. intros m.
  destruct (vget (edges_ target) m); apply _.
Defined.

#[global] Instance fresh_edges_on_fresh_nodes_dec rule :
  Decision (fresh_edges_on_fresh_nodes rule).
Proof.
  unfold fresh_edges_on_fresh_nodes. apply Forall_dec. intros m.
  destruct (vget (edges_ (rhs_ rule)) m); apply _.
Defined.

(** "L = R = K": every node and every edge of the two sides is the image of
    a common one, so the rule deletes nothing and creates nothing. *)
Definition identity_rule (rule : Rule) : Prop :=
  node_mapping_ (common_to_lhs_ rule) ≡ₚ positions (nodes_ (lhs_ rule)) ∧
  node_mapping_ (common_to_rhs_ rule) ≡ₚ positions (nodes_ (rhs_ rule)) ∧
  concat (edge_mapping_ (common_to_lhs_ rule)) ≡ₚ positions (edges_ (lhs_ rule)) ∧
  concat (edge_mapping_ (common_to_rhs_ rule)) ≡ₚ positions (edges_ (rhs_ rule)).

#[global] Instance identity_rule_dec rule : Decision (identity_rule rule).
Proof. unfold identity_rule. apply _. Defined.

(** [σ] renames the nodes of [g] into those of [g']: it sends the positions
    of [g] one-to-one onto the positions of [g'], a node and its image are
    equal, and the edges of [g'] are, up to their order, the edges of [g]
    with both ends renamed. *)
Definition isomorphic_by (σ : list Z) (g g' : Graph) : Prop :=
  vsize σ = vsize (nodes_ g) ∧
  σ ≡ₚ positions (nodes_ g') ∧
  (∀ i node, vget (nodes_ g) i = Some node →
     ∃ i', vget σ i = Some i' ∧ vget (nodes_ g') i' = Some node) ∧
  ∃ renamed,
    Forall2 (λ edge edge', translate_edge σ edge = Some edge') (edges_ g) renamed ∧
    edges_ g' ≡ₚ renamed.

Definition isomorphic (g g' : Graph) : Prop := ∃ σ, isomorphic_by σ g g'.

(** The position of the last occurrence of [x] in [xs]. *)
Fixpoint last_index (xs : list Z) (x : Z) : option nat :=
  match xs with
  | [] => None
  | y :: ys =>
      match last_index ys x with
      | Some p => Some (S p)
      | None => if decide (y = x) then Some 0%nat else None
      end
  end.

(** The entry that a translation table holds for [x] once a loop has pushed
    one node for each element of [xs], the first of them at position
    [first] of the result: the position of the node pushed last for [x],
    since a later assignment overwrites an earlier one, or the value of [-1]
    the table was filled with when no node was pushed for [x]. *)
Definition emitted_at (first : Z) (xs : list Z) (x : Z) : Z :=
  match last_index xs x with
  | Some p => first + Z.of_nat p
  | None => index_none
  end.

(** The common edges of a rule, each with the LHS edges and the RHS edges it
    is mapped to. *)
Definition interface_edges (rule : Rule) : list (Edge * (list Z * list Z)) :=
  zip (edges_ (common_ rule))
      (zip (edge_mapping_ (common_to_lhs_ rule))
           (edge_mapping_ (common_to_rhs_ rule))).

(** [rule'] is [rule] with its common edges listed in another order: the
    same two sides, common nodes and node mappings, and the same common
    edges with the same images. *)
Definition interface_reordered (rule rule' : Rule) : Prop :=
  lhs_ rule' = lhs_ rule ∧
  rhs_ rule' = rhs_ rule ∧
  nodes_ (common_ rule') = nodes_ (common_ rule) ∧
  node_mapping_ (common_to_lhs_ rule') = node_mapping_ (common_to_lhs_ rule) ∧
  node_mapping_ (common_to_rhs_ rule') = node_mapping_ (common_to_rhs_ rule) ∧
  interface_edges rule' ≡ₚ interface_edges rule.

(** ** Auxiliary definitions for the rule compiler *)

(** The entries a side's label table holds once the edges [edges] of that
    side are in place: the non-empty labels with the positions of their
    edges, in the order of the edges. *)
Definition side_labels (edges : list Edge) : label_table :=
  filter (λ entry, fst entry ≠ EmptyString)
         (imap (λ k edge, (edge_label_ (edge_attrs_ edge), Z.of_nat k)) edges).

(** What the loop over the nodes has built after the positions [done]. *)
Definition nodes_split_as (graph : Graph) (lhs_subgraph rhs_subgraph : Subgraph)
    (done : list Z) (s : node_split) : Prop :=
  Forall2 (λ i node, vget (nodes_ graph) i = Some node)
          (filter (λ i, i ∈ subgraph_nodes_ lhs_subgraph) done) (lhs_nodes s) ∧
  Forall2 (λ i node, vget (nodes_ graph) i = Some node)
          (filter (λ i, i ∈ subgraph_nodes_ rhs_subgraph) done) (rhs_nodes s) ∧
  Forall2 (λ i node, vget (nodes_ graph) i = Some node)
          (filter (λ i, i ∈ subgraph_nodes_ lhs_subgraph
                        ∧ i ∈ subgraph_nodes_ rhs_subgraph) done)
          (common_nodes s) ∧
  Forall (λ i, i ∈ subgraph_nodes_ lhs_subgraph ∨ i ∈ subgraph_nodes_ rhs_subgraph)
         done ∧
  vsize (common_to_lhs_nodes s) = vsize (common_nodes s) ∧
  vsize (common_to_rhs_nodes s) = vsize (common_nodes s) ∧
  Forall (λ v, 0 ≤ v < vsize (lhs_nodes s)) (common_to_lhs_nodes s) ∧
  Forall (λ v, 0 ≤ v < vsize (rhs_nodes s)) (common_to_rhs_nodes s) ∧
  StronglySorted Z.lt (common_to_lhs_nodes s) ∧
  StronglySorted Z.lt (common_to_rhs_nodes s) ∧
  vsize (graph_to_lhs_node s) = vsize (nodes_ graph) ∧
  vsize (graph_to_rhs_node s) = vsize (nodes_ graph) ∧
  vsize (graph_to_common_node s) = vsize (nodes_ graph).

(** [m] is in exactly one of the two subgraphs. *)
Definition on_one_side (lhs_subgraph rhs_subgraph : Subgraph) (m : Z) : Prop :=
  (m ∈ subgraph_edges_ lhs_subgraph ∧ m ∉ subgraph_edges_ rhs_subgraph) ∨
  ((m ∉ subgraph_edges_ lhs_subgraph) ∧ m ∈ subgraph_edges_ rhs_subgraph).

(** No two edges of [side], taken at two places of [done], carry the same
    non-empty label. *)
Definition no_reuse (graph : Graph) (side : gset Z) (done : list Z) : Prop :=
  ∀ (p1 p2 : nat) m1 m2 edge1 edge2,
    (p1 < p2)%nat →
    done !! p1 = Some m1 → done !! p2 = Some m2 →
    vget (edges_ graph) m1 = Some edge1 →
    vget (edges_ graph) m2 = Some edge2 →
    m1 ∈ side → m2 ∈ side →
    edge_label_ (edge_attrs_ edge1) ≠ EmptyString →
    edge_label_ (edge_attrs_ edge1) ≠ edge_label_ (edge_attrs_ edge2).

(** The labels a side's table holds are those of its edges among [done]. *)
Definition labels_recorded (graph : Graph) (side : gset Z) (done : list Z)
    (table : label_table) : Prop :=
  ∀ label, label ∈ map fst table ↔
    ∃ m edge, m ∈ done ∧ vget (edges_ graph) m = Some edge ∧ m ∈ side ∧
              edge_label_ (edge_attrs_ edge) = label ∧ label ≠ EmptyString.

(** What the loop over the edges has built after the positions [done]. *)
Definition edges_split_as (graph : Graph) (lhs_subgraph rhs_subgraph : Subgraph)
    (ns : node_split) (done : list Z) (s : edge_split) : Prop :=
  Forall2 (λ m edge, ∃ graph_edge, vget (edges_ graph) m = Some graph_edge ∧
                       translate_edge (graph_to_lhs_node ns) graph_edge = Some edge)
          (filter (λ m, m ∈ subgraph_edges_ lhs_subgraph) done) (lhs_edges s) ∧
  Forall2 (λ m edge, ∃ graph_edge, vget (edges_ graph) m = Some graph_edge ∧
                       translate_edge (graph_to_rhs_node ns) graph_edge = Some edge)
          (filter (λ m, m ∈ subgraph_edges_ rhs_subgraph) done) (rhs_edges s) ∧
  lhs_label_to_edge s = side_labels (lhs_edges s) ∧
  rhs_label_to_edge s = side_labels (rhs_edges s) ∧
  labels_recorded graph (subgraph_edges_ lhs_subgraph) done (lhs_label_to_edge s) ∧
  labels_recorded graph (subgraph_edges_ rhs_subgraph) done (rhs_label_to_edge s) ∧
  Forall (on_one_side lhs_subgraph rhs_subgraph) done ∧
  no_reuse graph (subgraph_edges_ lhs_subgraph) done ∧
  no_reuse graph (subgraph_edges_ rhs_subgraph) done.

(** The subgraph [createRuleFromGraph] takes for a side: the first one of
    that name. *)
Definition side_subgraph (name : string) (graph : Graph) : option Subgraph :=
  find (λ subgraph, bool_decide (subgraph_name_ subgraph = name)) (subgraphs_ graph).







(** The entries of the LHS table, in the order they are visited, whose label
    the RHS table holds too. *)
Definition paired_labels (rhs_labels visited : label_table) : label_table :=
  filter (λ entry, is_Some (table_find rhs_labels (fst entry))) visited.

(** The order of emission (the contract of section 4.1): the elements put on
    a side are the elements of the annotated graph that belong to it, at
    increasing positions of the graph. *)
Definition nodes_in_graph_order (graph : Graph) (member : Z → Prop)
    `{∀ i, Decision (member i)} (emitted : list Node) : Prop :=
  Forall2 (λ i node, vget (nodes_ graph) i = Some node)
          (filter member (positions (nodes_ graph))) emitted.

Definition edges_in_graph_order (graph : Graph) (member : Z → Prop)
    `{∀ i, Decision (member i)} (emitted : list Edge) : Prop :=
  Forall2 (λ m edge, ∃ graph_edge, vget (edges_ graph) m = Some graph_edge ∧
                       edge_attrs_ edge = edge_attrs_ graph_edge)
          (filter member (positions (edges_ graph))) emitted.

(** The position a node of the annotated graph gets on a side: the number
    of nodes of that side that come before it. *)
Definition side_position (side : gset Z) (i : Z) : Z :=
  vsize (filter (λ k, k ∈ side) (seqZ 0 i)).

(** The entry of a translation table for the graph node [i], once the loop
    over the nodes is over: its position on the side, or the value of [-1]
    the table was filled with. *)
Definition side_entry (side : gset Z) (i : Z) : Z :=
  if decide (i ∈ side) then side_position side i else index_none.

(** What the loop over the nodes has put in the tables and in the node
    mappings of the common interface after the first [k] nodes. *)
Definition node_tables_as (graph : Graph) (lhs_subgraph rhs_subgraph : Subgraph)
    (k : Z) (s : node_split) : Prop :=
  vsize (graph_to_lhs_node s) = vsize (nodes_ graph) ∧
  vsize (graph_to_rhs_node s) = vsize (nodes_ graph) ∧
  vsize (graph_to_common_node s) = vsize (nodes_ graph) ∧
  vsize (lhs_nodes s) = side_position (subgraph_nodes_ lhs_subgraph) k ∧
  vsize (rhs_nodes s) = side_position (subgraph_nodes_ rhs_subgraph) k ∧
  (∀ i, 0 ≤ i < vsize (nodes_ graph) →
     vget (graph_to_lhs_node s) i
     = Some (if decide (i < k) then side_entry (subgraph_nodes_ lhs_subgraph) i
             else index_none)) ∧
  (∀ i, 0 ≤ i < vsize (nodes_ graph) →
     vget (graph_to_rhs_node s) i
     = Some (if decide (i < k) then side_entry (subgraph_nodes_ rhs_subgraph) i
             else index_none)) ∧
  Forall2 (λ v node, vget (lhs_nodes s) v = Some node)
          (common_to_lhs_nodes s) (common_nodes s) ∧
  Forall2 (λ v node, vget (rhs_nodes s) v = Some node)
          (common_to_rhs_nodes s) (common_nodes s).

(** The edges a side of the rule gets: the edges of the annotated graph in
    the subgraph of the side, in the order of the graph; their ends are
    nodes of the graph, renumbered by the table of the side. *)
Definition edges_renumbered (graph : Graph) (side : Subgraph)
    (emitted : list Edge) : Prop :=
  Forall2 (λ m edge,
             ∃ graph_edge,
               vget (edges_ graph) m = Some graph_edge ∧
               edge_in_range (vsize (nodes_ graph)) graph_edge ∧
               edge = mkEdge (side_entry (subgraph_nodes_ side) (head_ graph_edge))
                             (side_entry (subgraph_nodes_ side) (tail_ graph_edge))
                             (edge_attrs_ graph_edge))
          (filter (λ m, m ∈ subgraph_edges_ side) (positions (edges_ graph)))
          emitted.

(** Every edge of the annotated graph put on a side joins nodes of that
    side. *)
Definition edges_on_side (graph : Graph) (side : Subgraph) : Prop :=
  Forall (λ m, match vget (edges_ graph) m with
               | Some graph_edge =>
                   m ∈ subgraph_edges_ side →
                   head_ graph_edge ∈ subgraph_nodes_ side ∧
                   tail_ graph_edge ∈ subgraph_nodes_ side
               | None => True
               end)
         (positions (edges_ graph)).

#[global] Instance edges_on_side_dec graph side : Decision (edges_on_side graph side).
Proof.
  unfold edges_on_side. apply Forall_dec. intros m.
  destruct (vget (edges_ graph) m); apply _.
Defined.

(** ** Sample graphs *)

Definition sample_node (label : string) : Node :=
  mkNode label (mkNodeAttributes label EmptyString).

Definition sample_edge (head tail : Z) (label : string) : Edge :=
  mkEdge head tail (mkEdgeAttributes label EmptyString).

(** A labelled node [a] with an edge to an unlabelled node. *)
Definition sample_pattern : Graph :=
  mkGraph [sample_node "a"; sample_node EmptyString]
          [sample_edge 1 0 "e"] [].

(** Two parallel edges 0 -> 2, a loop on 1 and an edge 1 -> 0. *)
Definition sample_target : Graph :=
  mkGraph [sample_node "a"; sample_node "a"; sample_node "c"]
          [sample_edge 2 0 "x"; sample_edge 2 0 "y";
           sample_edge 1 1 "z"; sample_edge 0 1 "w"] [].

(** A rule whose two unlabelled nodes are on both sides, and a target with
    one node: both rule nodes can only go to that node. *)
Definition twin_rule_graph : Graph :=
  mkGraph [sample_node EmptyString; sample_node EmptyString] []
          [mkSubgraph "L" {[0; 1]} ∅; mkSubgraph "R" {[0; 1]} ∅].

Definition twin_side : Graph :=
  mkGraph [sample_node EmptyString; sample_node EmptyString] [] [].

Definition twin_rule : Rule :=
  mkRule twin_side twin_side twin_side
         (mkGraphMapping [0; 1] []) (mkGraphMapping [0; 1] []).

Definition single_target : Graph := mkGraph [sample_node "c"] [] [].

Definition twin_match : GraphMapping := mkGraphMapping [0; 0] [].

(** A rule that keeps [a], deletes [b] with the edge from [b] to [a], and
    adds [c] with a loop. *)
Definition swap_rule_graph : Graph :=
  mkGraph [sample_node "a"; sample_node "b"; sample_node "c"]
          [sample_edge 0 1 EmptyString; sample_edge 2 2 EmptyString]
          [mkSubgraph "L" {[0; 1]} {[0]}; mkSubgraph "R" {[0; 2]} {[1]}].

Definition swap_rule : Rule :=
  mkRule (mkGraph [sample_node "a"; sample_node "b"]
                  [sample_edge 0 1 EmptyString] [])
         (mkGraph [sample_node "a"; sample_node "c"]
                  [sample_edge 1 1 EmptyString] [])
         (mkGraph [sample_node "a"] [] [])
         (mkGraphMapping [0] []) (mkGraphMapping [0] []).

(** A host for [swap_rule]: its node [a] carries a payload of its own. *)
Definition host_a : Node := mkNode "host" (mkNodeAttributes "a" "kept").

Definition swap_host : Graph :=
  mkGraph [host_a; sample_node "b"; sample_node "z"]
          [sample_edge 0 1 "ba"; sample_edge 0 2 "za"] [].

Definition swap_match : GraphMapping := mkGraphMapping [0; 1] [[0]].

Definition swap_result : Graph :=
  mkGraph [sample_node "z"; host_a; sample_node "c"]
          [sample_edge 1 0 "za"; sample_edge 2 2 EmptyString] [].

(** A rule with L = R = K: two nodes and the edge between them, all kept. *)
Definition keep_rule_graph : Graph :=
  mkGraph [sample_node "x"; sample_node "y"]
          [sample_edge 1 0 "e"; sample_edge 1 0 "e"]
          [mkSubgraph "L" {[0; 1]} {[0]}; mkSubgraph "R" {[0; 1]} {[1]}].

Definition keep_side : Graph :=
  mkGraph [sample_node "x"; sample_node "y"] [sample_edge 1 0 "e"] [].

Definition keep_rule : Rule :=
  mkRule keep_side keep_side
         (mkGraph [sample_node "x"; sample_node "y"] [sample_edge 0 0 "e"] [])
         (mkGraphMapping [0; 1] [[0]]) (mkGraphMapping [0; 1] [[0]]).

(** Two parallel edges from [x] to [y] and an edge from [y] to [z]. *)
Definition keep_host : Graph :=
  mkGraph [sample_node "x"; sample_node "y"; sample_node "z"]
          [sample_edge 1 0 "p"; sample_edge 1 0 "q"; sample_edge 2 1 "r"] [].

Definition keep_match : GraphMapping := mkGraphMapping [0; 1] [[0; 1]].

(** Two labelled edges on each side: [a] before [b] in the graph. *)
Definition order_graph : Graph :=
  mkGraph [sample_node "x"; sample_node "y"]
          [sample_edge 1 0 "a"; sample_edge 1 0 "b";
           sample_edge 1 0 "a"; sample_edge 1 0 "b"]
          [mkSubgraph "L" {[0; 1]} {[0; 1]}; mkSubgraph "R" {[0; 1]} {[2; 3]}].

(** A rule that deletes its one node, and a target where that node has an
    edge the rule does not mention. *)
Definition dangle_rule_graph : Graph :=
  mkGraph [sample_node "a"] [] [mkSubgraph "L" {[0]} ∅; mkSubgraph "R" ∅ ∅].

Definition dangle_rule : Rule :=
  mkRule (mkGraph [sample_node "a"] [] []) (mkGraph [] [] []) (mkGraph [] [] [])
         (mkGraphMapping [] []) (mkGraphMapping [] []).

Definition dangle_target : Graph :=
  mkGraph [sample_node "a"; sample_node "b"] [sample_edge 0 1 "e"] [].

Definition dangle_match : GraphMapping := mkGraphMapping [0] [].

(** Edge insertion: both nodes are kept and the RHS adds an edge between
    them. *)
Definition insert_rule_graph : Graph :=
  mkGraph [sample_node "x"; sample_node "y"] [sample_edge 1 0 EmptyString]
          [mkSubgraph "L" {[0; 1]} ∅; mkSubgraph "R" {[0; 1]} {[0]}].

Definition insert_rule : Rule :=
  mkRule (mkGraph [sample_node "x"; sample_node "y"] [] [])
         (mkGraph [sample_node "x"; sample_node "y"]
                  [sample_edge 1 0 EmptyString] [])
         (mkGraph [sample_node "x"; sample_node "y"] [] [])
         (mkGraphMapping [0; 1] []) (mkGraphMapping [0; 1] []).

Definition insert_target : Graph :=
  mkGraph [sample_node "x"; sample_node "y"] [] [].

Definition insert_match : GraphMapping := mkGraphMapping [0; 1] [].

(** The rule compiled from [order_graph] when the labels are visited in the
    order they were inserted, and when they are visited in reverse order. *)
Definition order_rule : Rule :=
  mkRule (mkGraph [sample_node "x"; sample_node "y"]
                  [sample_edge 1 0 "a"; sample_edge 1 0 "b"] [])
         (mkGraph [sample_node "x"; sample_node "y"]
                  [sample_edge 1 0 "a"; sample_edge 1 0 "b"] [])
         (mkGraph [sample_node "x"; sample_node "y"]
                  [sample_edge 0 0 "a"; sample_edge 0 0 "b"] [])
         (mkGraphMapping [0; 1] [[0]; [1]]) (mkGraphMapping [0; 1] [[0]; [1]]).

Definition order_rule_reversed : Rule :=
  mkRule (mkGraph [sample_node "x"; sample_node "y"]
                  [sample_edge 1 0 "a"; sample_edge 1 0 "b"] [])
         (mkGraph [sample_node "x"; sample_node "y"]
                  [sample_edge 1 0 "a"; sample_edge 1 0 "b"] [])
         (mkGraph [sample_node "x"; sample_node "y"]
                  [sample_edge 0 0 "b"; sample_edge 0 0 "a"] [])
         (mkGraphMapping [0; 1] [[1]; [0]]) (mkGraphMapping [0; 1] [[1]; [0]]).

(** The match of the LHS of [order_rule] in [keep_host], and the result of
    applying [order_rule] there. *)
Definition order_match : GraphMapping := mkGraphMapping [0; 1] [[0; 1]; [0; 1]].

Definition order_result : Graph :=
  mkGraph [sample_node "z"; sample_node "x"; sample_node "y"]
          [sample_edge 0 2 "r"; sample_edge 2 1 "p"; sample_edge 2 1 "q";
           sample_edge 2 1 "p"; sample_edge 2 1 "q"] [].

(** A rule that keeps [a] and deletes two unlabelled nodes, and a match
    sending both deleted nodes to the same target node. *)
Definition merge_rule_graph : Graph :=
  mkGraph [sample_node "a"; sample_node EmptyString; sample_node EmptyString] []
          [mkSubgraph "L" {[0; 1; 2]} ∅; mkSubgraph "R" {[0]} ∅].

Definition merge_rule : Rule :=
  mkRule (mkGraph [sample_node "a"; sample_node EmptyString; sample_node EmptyString]
                  [] [])
         (mkGraph [sample_node "a"] [] [])
         (mkGraph [sample_node "a"] [] [])
         (mkGraphMapping [0] []) (mkGraphMapping [0] []).

Definition merge_target : Graph :=
  mkGraph [sample_node "a"; sample_node "b"; sample_node "c"] [] [].

Definition merge_match : GraphMapping := mkGraphMapping [0; 1; 1] [].

(** A graph that breaks three preconditions: the label of its second edge
    is taken on the LHS, that edge is on both sides, and its third edge is on
    no side. *)
Definition clash_graph : Graph :=
  mkGraph [sample_node "x"; sample_node "y"]
          [sample_edge 1 0 "e"; sample_edge 1 0 "e"; sample_edge 0 1 "f"]
          [mkSubgraph "L" {[0; 1]} {[0; 1]}; mkSubgraph "R" {[0; 1]} {[1]}].

(** * Properties *)

(** Settle a decidable closed proposition by evaluation. *)
Ltac vm_decide := apply (bool_decide_unpack _); vm_compute; exact I.

(** ** Vectors *)

Lemma vget_Some {A} (v : list A) i x :
  vget v i = Some x ↔ 0 ≤ i ∧ v !! Z.to_nat i = Some x.
Proof.
  unfold vget, vsize. case_decide as H; split.
  - intros Hx. split; [lia | done].
  - by intros [_ ?].
  - done.
  - intros [Hi Hx]. apply lookup_lt_Some in Hx. lia.
Qed.

Lemma vget_in_range {A} (v : list A) i :
  0 ≤ i < vsize v → is_Some (vget v i).
Proof.
  intros Hi. unfold vget. rewrite decide_True by done.
  apply lookup_lt_is_Some. unfold vsize in Hi. lia.
Qed.

Lemma vget_of_nat {A} (v : list A) (k : nat) : vget v (Z.of_nat k) = v !! k.
Proof.
  unfold vget, vsize. rewrite Nat2Z.id. case_decide as H; [done |].
  symmetry. apply lookup_ge_None. lia.
Qed.

Lemma vget_app_l {A} (v w : list A) i :
  i < vsize v → vget (v ++ w) i = vget v i.
Proof.
  intros Hi. unfold vget, vsize in *. rewrite length_app.
  destruct (decide (0 ≤ i)) as [H0 | H0].
  - rewrite !decide_True by lia. apply lookup_app_l. lia.
  - rewrite !decide_False by lia. done.
Qed.

Lemma vget_snoc {A} (v : list A) x : vget (v ++ [x]) (vsize v) = Some x.
Proof.
  unfold vsize. rewrite vget_of_nat. by rewrite lookup_app_r, Nat.sub_diag.
Qed.

Lemma vsize_app {A} (v w : list A) : vsize (v ++ w) = vsize v + vsize w.
Proof. unfold vsize. rewrite length_app. lia. Qed.

Lemma removelast_snoc {A} (v : list A) x : removelast (v ++ [x]) = v.
Proof. apply removelast_last. Qed.

(** ** Termination of the matcher *)

Section MatcherTermination.
Variables pattern target : Graph.

Local Abbreviation n := (length (nodes_ pattern)).
Local Abbreviation t := (length (nodes_ target)).

Local Abbreviation candidate_cost := (candidate_cost target).
Local Abbreviation frames_below_ok := (frames_below_ok target).
Local Abbreviation stack_ok := (stack_ok pattern target).
Local Abbreviation remaining := (remaining pattern target).
Local Abbreviation potential_below := (potential_below pattern target).
Local Abbreviation potential := (potential pattern target).

Lemma frame_cost_candidates d : frame_cost t d = (t * candidate_cost d + 1)%nat.
Proof. destruct d; simpl; lia. Qed.

Lemma incr_back_Some pm :
    node_mapping_ pm ≠ [] →
    ∃ pm', incr_back pm = Some pm' ∧
           length (node_mapping_ pm') = length (node_mapping_ pm) ∧
           back_of pm' = back_of pm + 1 ∧
           edge_mapping_ pm' = edge_mapping_ pm.
Proof.
    intros Hne. unfold incr_back, back_of.
    destruct (node_mapping_ pm) as [| x l] eqn:E using rev_ind; [done |].
    rewrite last_snoc. simpl. eexists; split; [done |]. simpl.
    rewrite removelast_snoc, last_snoc, !length_app. done.
Qed.

Lemma back_of_snoc l x em : back_of (mkGraphMapping (l ++ [x]) em) = x.
Proof. unfold back_of. simpl. by rewrite last_snoc. Qed.

Lemma back_of_last pm j : last (node_mapping_ pm) = Some j → back_of pm = j.
Proof. unfold back_of. by intros ->. Qed.

Lemma candidate_cost_pos d : (1 ≤ candidate_cost d)%nat.
Proof. destruct d; simpl; lia. Qed.

Lemma remaining_incr pm pm' :
    back_of pm' = back_of pm + 1 →
    length (node_mapping_ pm') = length (node_mapping_ pm) →
    0 ≤ back_of pm < Z.of_nat t →
    (remaining pm' + candidate_cost (n - length (node_mapping_ pm))
     = remaining pm)%nat.
Proof.
    intros Hb Hl Hr. unfold remaining. rewrite Hb, Hl.
    replace (Z.to_nat (Z.of_nat t - back_of pm))
      with (S (Z.to_nat (Z.of_nat t - (back_of pm + 1)))) by lia.
    simpl. lia.
Qed.

  (** One iteration keeps the shape of the stack and uses up potential. *)
Lemma fm_step_decreases s s' :
    stack_ok (partial_matches s) →
    fm_step pattern target s = Next s' →
    stack_ok (partial_matches s') ∧
    (potential (partial_matches s') < potential (partial_matches s))%nat.
Proof.
    destruct s as [st acc]. unfold fm_step. simpl.
    destruct st as [| pm below]; [done |].
    intros (Hlen & Hdepth & Hj & Hbelow).
    assert (Hne : node_mapping_ pm ≠ []).
    { intros E. rewrite E in Hlen. simpl in Hlen. lia. }
    destruct (incr_back_Some pm Hne) as (pm' & Hpm' & Hl' & Hb' & _).
    unfold back_of in Hj, Hb'.
    destruct (last (node_mapping_ pm)) as [j |] eqn:Elast; [| done].
    simpl in Hj, Hb'. unfold vsize.
    case_bool_decide as Hge.
    - (* backtrack *)
      destruct below as [| parent rest].
      + intros [= <-]. simpl. split; [done | lia].
      + destruct Hbelow as (Hpl & Hpj & Hrest).
        assert (Hpne : node_mapping_ parent ≠ []).
        { intros E. rewrite E in Hpl. simpl in Hpl. lia. }
        destruct (incr_back_Some parent Hpne) as (p' & Hp' & Hpl' & Hpb' & _).
        rewrite Hp'. intros [= <-]. simpl. split.
        * simpl in *. repeat split; try lia. done.
        * pose proof (remaining_incr parent p' Hpb' Hpl' Hpj) as Hrem.
          pose proof (candidate_cost_pos (n - length (node_mapping_ parent))).
          simpl. lia.
    - (* a candidate below the number of target nodes *)
      assert (Hjt : 0 ≤ j < Z.of_nat t) by lia.
      assert (Hadv : stack_ok (pm' :: below) ∧
                     (potential (pm' :: below) < potential (pm :: below))%nat).
      { split.
        - simpl in *. rewrite Hl'. unfold back_of. rewrite Hb'.
          repeat split; try lia. done.
        - assert (Hrem : (remaining pm' + candidate_cost (n - length (node_mapping_ pm))
                          = remaining pm)%nat).
          { apply remaining_incr; [| done |]; unfold back_of; rewrite Elast; simpl; lia. }
          pose proof (candidate_cost_pos (n - length (node_mapping_ pm))).
          simpl. lia. }
      destruct (vget (nodes_ pattern) _) as [pn |]; [| done].
      destruct (vget (nodes_ target) j) as [tn |]; [| done].
      rewrite Hpm'.
      destruct (_ && _); [by intros [= <-] |].
      destruct (edge_fail _ _ _ _ _) as [[|] |]; [by intros [= <-] | | done].
      case_bool_decide as Hfull.
      + destruct (fill_edge_matches _ _ _ _) as [filled |]; [| done].
        by intros [= <-].
      + (* recurse *)
        intros [= <-]. simpl.
        assert (Hlt : (length (node_mapping_ pm) < n)%nat).
        { simpl in Hdepth, Hlen. lia. }
        split.
        * rewrite length_app, back_of_snoc, (back_of_last pm j Elast).
          simpl in *. repeat split; try lia. done.
        * unfold remaining at 1. rewrite back_of_snoc. simpl node_mapping_.
          rewrite length_app. simpl length.
          assert (Hr : remaining pm
                       = (Z.to_nat (Z.of_nat t - j)
                          * candidate_cost (n - length (node_mapping_ pm)))%nat).
          { unfold remaining. by rewrite (back_of_last pm j Elast). }
          rewrite Hr.
          replace (Z.to_nat (Z.of_nat t - j)) with (S (Z.to_nat (Z.of_nat t - j) - 1)) by lia.
          replace (n - length (node_mapping_ pm))%nat
            with (S (n - (length (node_mapping_ pm) + 1))) by lia.
          replace (Z.to_nat (Z.of_nat t - 0)) with t by lia.
          pose proof (frame_cost_candidates (n - (length (node_mapping_ pm) + 1))) as Hfc.
          change (candidate_cost (S ?d)) with (1 + frame_cost t d)%nat.
          rewrite Hfc, Nat.mul_succ_l.
          generalize (t * candidate_cost (n - (length (node_mapping_ pm) + 1)))%nat.
          intros a. generalize ((Z.to_nat (Z.of_nat t - j) - 1) * (1 + (a + 1)))%nat.
          lia.
Qed.

Lemma fm_loop_terminates fuel s :
    stack_ok (partial_matches s) →
    (potential (partial_matches s) < fuel)%nat →
    fm_loop pattern target fuel s ≠ Exhausted.
Proof.
    revert s. induction fuel as [| fuel IH]; intros s Hok Hpot; [lia |].
    simpl. destruct (fm_step pattern target s) as [s' | ms |] eqn:Hstep; [| done | done].
    destruct (fm_step_decreases s s' Hok Hstep) as [Hok' Hlt].
    apply IH; [done | lia].
Qed.

End MatcherTermination.

(** ** The loop explores the search tree *)

Section MatcherSearch.
Variables pattern target : Graph.
Hypothesis pattern_wf : wf_graph pattern.

Lemma accepts_unfold prefix j :
  accepts pattern target (prefix ++ [j]) =
  match vget (nodes_ pattern) (vsize prefix), vget (nodes_ target) j with
  | Some pattern_node, Some target_node =>
      negb (bool_decide (node_label_ (node_attrs_ pattern_node) ≠ EmptyString) &&
            bool_decide (node_label_ (node_attrs_ pattern_node)
                         ≠ node_label_ (node_attrs_ target_node))) &&
      bool_decide (edge_fail target (edges_ pattern) (prefix ++ [j]) (vsize prefix) j
                   = Some false)
  | _, _ => false
  end.
Proof.
  unfold accepts. rewrite last_snoc, vsize_app.
  change (vsize [j]) with 1. by replace (vsize prefix + 1 - 1) with (vsize prefix) by lia.
Qed.

Local Abbreviation n := (length (nodes_ pattern)).
Local Abbreviation t := (length (nodes_ target)).
Local Abbreviation accepts := (accepts pattern target).
Local Abbreviation complete := (complete pattern target).
Local Abbreviation extend := (extend pattern target).
Local Abbreviation try_candidates := (try_candidates pattern target).
Local Abbreviation next := (fm_next pattern target).
Local Abbreviation fm_step := (fm_step pattern target).

Lemma incr_back_frame prefix j :
  incr_back (frame (prefix ++ [j])) = Some (frame (prefix ++ [j + 1])).
Proof.
  unfold incr_back, frame. simpl. rewrite last_snoc. simpl.
  by rewrite removelast_snoc.
Qed.

Lemma nm_at_vget nm i : 0 ≤ i < vsize nm → vget nm i = Some (nm_at nm i).
Proof.
  intros Hi. unfold nm_at. destruct (vget_in_range nm i Hi) as [x ->]. done.
Qed.

(** The edge test does not leave the node mapping when the pattern edges
    are in range. *)
Lemma edge_fail_defined pes nm i j :
  Forall (edge_in_range (vsize (nodes_ pattern))) pes →
  vsize nm = i + 1 →
  is_Some (edge_fail target pes nm i j).
Proof.
  intros Hwf Hlen. induction Hwf as [| pe pes [Hh Ht] _ IH]; simpl; [eauto |].
  destruct (bool_decide (head_ pe = i) && bool_decide (tail_ pe ≤ i)) eqn:E1.
  - apply andb_true_iff in E1 as [_ E1%bool_decide_eq_true].
    rewrite (nm_at_vget nm (tail_ pe)) by lia. simpl.
    destruct (target_has_edge _ _ _); eauto.
  - destruct (bool_decide (tail_ pe = i) && bool_decide (head_ pe ≤ i)) eqn:E2; [| done].
    apply andb_true_iff in E2 as [_ E2%bool_decide_eq_true].
    rewrite (nm_at_vget nm (head_ pe)) by lia. simpl.
    destruct (target_has_edge _ _ _); eauto.
Qed.

Lemma fill_edge_matches_complete pes nm :
  Forall (edge_in_range (vsize nm)) pes →
  fill_edge_matches target pes (replicate (length pes) []) nm
  = Some (map (λ pe, collect_target_edges (edges_ target) 0
                       (nm_at nm (head_ pe)) (nm_at nm (tail_ pe))) pes).
Proof.
  induction 1 as [| pe pes [Hh Ht] _ IH]; simpl; [done |].
  rewrite (nm_at_vget nm (head_ pe)), (nm_at_vget nm (tail_ pe)) by lia.
  simpl. rewrite IH. done.
Qed.

Lemma vresize_nil {A} k (d : A) : vresize k d [] = replicate k d.
Proof. unfold vresize. rewrite take_nil. simpl. by rewrite Nat.sub_0_r. Qed.

(** *** The four kinds of iteration *)

Lemma step_pop_last prefix j acc :
  Z.of_nat t ≤ j →
  fm_step (mkFmState [frame (prefix ++ [j])] acc) = Next (mkFmState [] acc).
Proof.
  intros Hj. unfold fm_step. simpl. rewrite last_snoc.
  by rewrite bool_decide_eq_true_2.
Qed.

Lemma step_pop prefix j prefix' j' below acc :
  Z.of_nat t ≤ j →
  fm_step (mkFmState (frame (prefix ++ [j]) :: frame (prefix' ++ [j']) :: below) acc)
  = Next (mkFmState (frame (prefix' ++ [j' + 1]) :: below) acc).
Proof.
  intros Hj. unfold fm_step. simpl. rewrite last_snoc.
  rewrite bool_decide_eq_true_2 by done. by rewrite incr_back_frame.
Qed.

Lemma step_reject prefix j below acc :
  0 ≤ j < Z.of_nat t →
  (length prefix < n)%nat →
  accepts (prefix ++ [j]) = false →
  fm_step (mkFmState (frame (prefix ++ [j]) :: below) acc)
  = Next (mkFmState (frame (prefix ++ [j + 1]) :: below) acc).
Proof.
  intros Hj Hlen Hacc. rewrite accepts_unfold in Hacc.
  unfold fm_step. simpl. rewrite last_snoc.
  rewrite bool_decide_eq_false_2 by (unfold vsize; lia).
  rewrite vsize_app. change (vsize [j]) with 1.
  replace (vsize prefix + 1 - 1) with (vsize prefix) by lia.
  destruct (vget_in_range (nodes_ pattern) (vsize prefix)) as [pn Hpn];
    [unfold vsize; lia |].
  destruct (vget_in_range (nodes_ target) j) as [tn Htn]; [unfold vsize; lia |].
  rewrite Hpn, Htn in Hacc |- *. rewrite incr_back_frame.
  destruct (bool_decide (node_label_ (node_attrs_ pn) ≠ EmptyString) && _);
    [done |]. simpl in Hacc.
  destruct (edge_fail_defined (edges_ pattern) (prefix ++ [j]) (vsize prefix) j)
    as [b Hb]; [done | rewrite vsize_app; done |].
  rewrite Hb in Hacc |- *. destruct b; [done |].
  by rewrite bool_decide_eq_true_2 in Hacc.
Qed.

Lemma accepts_inv prefix j :
  0 ≤ j < Z.of_nat t →
  (length prefix < n)%nat →
  accepts (prefix ++ [j]) = true →
  ∃ pn tn,
    vget (nodes_ pattern) (vsize prefix) = Some pn ∧
    vget (nodes_ target) j = Some tn ∧
    bool_decide (node_label_ (node_attrs_ pn) ≠ EmptyString) &&
      bool_decide (node_label_ (node_attrs_ pn) ≠ node_label_ (node_attrs_ tn)) = false ∧
    edge_fail target (edges_ pattern) (prefix ++ [j]) (vsize prefix) j = Some false.
Proof.
  intros Hj Hlen. rewrite accepts_unfold.
  destruct (vget (nodes_ pattern) _) as [pn |]; [| done].
  destruct (vget (nodes_ target) j) as [tn |]; [| done].
  intros [Hl He%bool_decide_eq_true]%andb_true_iff.
  exists pn, tn. repeat split; try done. by apply negb_true_iff.
Qed.

Lemma step_record prefix j below acc :
  0 ≤ j < Z.of_nat t →
  (length prefix + 1 = n)%nat →
  accepts (prefix ++ [j]) = true →
  fm_step (mkFmState (frame (prefix ++ [j]) :: below) acc)
  = Next (mkFmState (frame (prefix ++ [j + 1]) :: below)
                    (acc ++ [complete (prefix ++ [j])])).
Proof.
  intros Hj Hlen Hacc.
  destruct (accepts_inv prefix j) as (pn & tn & Hpn & Htn & Hl & He);
    [done | lia | done |].
  unfold fm_step. simpl. rewrite last_snoc.
  rewrite bool_decide_eq_false_2 by (unfold vsize; lia).
  rewrite vsize_app. change (vsize [j]) with 1.
  replace (vsize prefix + 1 - 1) with (vsize prefix) by lia.
  rewrite Hpn, Htn, Hl, He, incr_back_frame.
  rewrite bool_decide_eq_true_2 by (unfold vsize; lia).
  rewrite vresize_nil, fill_edge_matches_complete; [done |].
  rewrite vsize_app. change (vsize [j]) with 1.
  replace (vsize prefix + 1) with (vsize (nodes_ pattern)) by (unfold vsize; lia).
  done.
Qed.

Lemma step_push prefix j below acc :
  0 ≤ j < Z.of_nat t →
  (length prefix + 1 < n)%nat →
  accepts (prefix ++ [j]) = true →
  fm_step (mkFmState (frame (prefix ++ [j]) :: below) acc)
  = Next (mkFmState (frame ((prefix ++ [j]) ++ [0]) :: frame (prefix ++ [j]) :: below)
                    acc).
Proof.
  intros Hj Hlen Hacc.
  destruct (accepts_inv prefix j) as (pn & tn & Hpn & Htn & Hl & He);
    [done | lia | done |].
  unfold fm_step. simpl. rewrite last_snoc.
  rewrite bool_decide_eq_false_2 by (unfold vsize; lia).
  rewrite vsize_app. change (vsize [j]) with 1.
  replace (vsize prefix + 1 - 1) with (vsize prefix) by lia.
  rewrite Hpn, Htn, Hl, He.
  by rewrite bool_decide_eq_false_2 by (unfold vsize; lia).
Qed.

(** *** Running the loop through a frame *)

Lemma try_candidates_cons d prefix j js :
  try_candidates d prefix (j :: js)
  = (if accepts (prefix ++ [j]) then extend d (prefix ++ [j]) else [])
    ++ try_candidates d prefix js.
Proof. done. Qed.

Lemma extend_S d nm :
  extend (S d) nm = try_candidates d nm (seqZ 0 (Z.of_nat t)).
Proof. done. Qed.

(** From a frame testing candidate [j], the loop reaches the same frame with
    its candidates used up, having recorded every match of the subtrees of
    the candidates [j, ..., t - 1], in order. *)
Lemma run_candidates d :
  ∀ prefix, (length prefix + 1 + d = n)%nat →
  ∀ (c : nat) j below acc,
    0 ≤ j → j + Z.of_nat c = Z.of_nat t →
    rtc next
      (mkFmState (frame (prefix ++ [j]) :: below) acc)
      (mkFmState (frame (prefix ++ [Z.of_nat t]) :: below)
         (acc ++ map complete (try_candidates d prefix (seqZ j (Z.of_nat c))))).
Proof.
  induction d as [| d IHd]; intros prefix Hlen c;
    induction c as [| c IHc]; intros j below acc Hj Hc.
  - replace j with (Z.of_nat t) by lia. simpl. rewrite app_nil_r. done.
  - rewrite seqZ_cons by lia. rewrite try_candidates_cons.
    replace (Z.pred (Z.of_nat (S c))) with (Z.of_nat c) by lia.
    destruct (accepts (prefix ++ [j])) eqn:Hacc.
    + eapply rtc_l.
      { apply step_record; [lia | lia | done]. }
      rewrite map_app, (assoc_L (++) acc). apply IHc; lia.
    + eapply rtc_l.
      { apply step_reject; [lia | lia | done]. }
      simpl. apply IHc; lia.
  - replace j with (Z.of_nat t) by lia. simpl. rewrite app_nil_r. done.
  - rewrite seqZ_cons by lia. rewrite try_candidates_cons.
    replace (Z.pred (Z.of_nat (S c))) with (Z.of_nat c) by lia.
    destruct (accepts (prefix ++ [j])) eqn:Hacc.
    + eapply rtc_l.
      { apply step_push; [lia | lia | done]. }
      etrans.
      { apply (IHd (prefix ++ [j])) with (c := t) (j := 0);
          [rewrite length_app; simpl; lia | lia | lia]. }
      eapply rtc_l.
      { apply step_pop. lia. }
      rewrite <- extend_S, map_app, (assoc_L (++) acc). apply IHc; lia.
    + eapply rtc_l.
      { apply step_reject; [lia | lia | done]. }
      simpl. apply IHc; lia.
Qed.

Lemma fm_loop_reach fuel s s' ms :
  rtc next s s' →
  fm_step s' = Exit ms →
  fm_loop pattern target fuel s ≠ Exhausted →
  fm_loop pattern target fuel s = Returns ms.
Proof.
  intros Hrtc Hexit. revert fuel.
  induction Hrtc as [s | s s1 s2 Hstep _ IH]; intros fuel Hfuel.
  - destruct fuel; [done |]. simpl. by rewrite Hexit.
  - destruct fuel; [done |]. simpl in *.
    unfold fm_next in Hstep.
    rewrite Hstep in Hfuel |- *. by apply IH.
Qed.

Lemma findMatches_not_exhausted :
  (1 ≤ n)%nat →
  fm_loop pattern target (fm_budget pattern target) fm_init ≠ Exhausted.
Proof.
  intros Hn. apply fm_loop_terminates.
  - simpl. unfold back_of. simpl. repeat split; try lia.
  - unfold fm_budget, fm_init, potential, remaining, back_of. simpl.
    rewrite frame_cost_candidates.
    replace (Z.to_nat (Z.of_nat t - 0)) with t by lia. lia.
Qed.

(** The matcher returns the matches of the search tree, in its order. *)
Lemma findMatches_explores :
  (1 ≤ n)%nat →
  findMatches pattern target = Returns (map complete (extend n [])).
Proof.
  intros Hn. unfold findMatches.
  rewrite bool_decide_eq_true_2 by (unfold vsize; lia).
  apply fm_loop_reach with (s' := mkFmState [] (map complete (extend n []))).
  - etrans.
    { apply (run_candidates (n - 1) []) with (c := t) (j := 0) (below := []) (acc := []);
        [simpl; lia | lia | lia]. }
    eapply rtc_l; [apply (step_pop_last []); lia |].
    simpl. rewrite <- extend_S. replace (S (n - 1)) with n by lia. done.
  - done.
  - by apply findMatches_not_exhausted.
Qed.

End MatcherSearch.

(** ** What the search tree contains *)

Lemma target_has_edge_true target a b :
  target_has_edge target a b = true ↔
  ∃ te, te ∈ edges_ target ∧ head_ te = a ∧ tail_ te = b.
Proof.
  unfold target_has_edge. rewrite existsb_exists. split.
  - intros (te & Hin & [H1%bool_decide_eq_true H2%bool_decide_eq_true]%andb_true_iff).
    exists te. by rewrite list_elem_of_In.
  - intros (te & Hin & H1 & H2). exists te. rewrite <- list_elem_of_In.
    split; [done |]. by rewrite !bool_decide_eq_true_2.
Qed.

Lemma nm_at_app_l pre suf x : x < vsize pre → nm_at (pre ++ suf) x = nm_at pre x.
Proof. intros Hx. unfold nm_at. by rewrite vget_app_l. Qed.

Lemma nm_at_snoc pre j : nm_at (pre ++ [j]) (vsize pre) = j.
Proof. unfold nm_at. by rewrite vget_snoc. Qed.

Section MatcherSpec.
Variables pattern target : Graph.
Hypothesis pattern_wf : wf_graph pattern.

Local Abbreviation n := (length (nodes_ pattern)).
Local Abbreviation t := (length (nodes_ target)).

Lemma edge_fail_false pes nm i j :
  Forall (λ pe, 0 ≤ head_ pe ∧ 0 ≤ tail_ pe) pes →
  vsize nm = i + 1 →
  nm_at nm i = j →
  edge_fail target pes nm i j = Some false ↔
  ∀ pe, pe ∈ pes → Z.max (head_ pe) (tail_ pe) = i → edge_ok target nm pe.
Proof.
  intros Hwf Hlen Hj. unfold edge_ok.
  induction Hwf as [| pe pes [Hh Ht] _ IH]; simpl.
  - split; [| done]. intros _ pe Hin. by apply elem_of_nil in Hin.
  - destruct (bool_decide (head_ pe = i) && bool_decide (tail_ pe ≤ i)) eqn:E1.
    + apply andb_true_iff in E1 as [Ei%bool_decide_eq_true E1%bool_decide_eq_true].
      rewrite (nm_at_vget nm (tail_ pe)) by lia. simpl.
      destruct (target_has_edge target j _) eqn:He.
      * rewrite IH. split.
        -- intros H pe' [-> | Hin]%elem_of_cons Hmax; [| by apply H].
           by rewrite Ei, Hj.
        -- intros H pe' Hin. apply H. by apply elem_of_cons; right.
      * split; [done |]. intros H.
        specialize (H pe (list_elem_of_here _ _)). rewrite Ei, Hj, He in H.
        discriminate H. lia.
    + destruct (bool_decide (tail_ pe = i) && bool_decide (head_ pe ≤ i)) eqn:E2.
      * apply andb_true_iff in E2 as [Ei%bool_decide_eq_true E2%bool_decide_eq_true].
        rewrite (nm_at_vget nm (head_ pe)) by lia. simpl.
        destruct (target_has_edge target _ j) eqn:He.
        -- rewrite IH. split.
           ++ intros H pe' [-> | Hin]%elem_of_cons Hmax; [| by apply H].
              by rewrite Ei, Hj.
           ++ intros H pe' Hin. apply H. by apply elem_of_cons; right.
        -- split; [done |]. intros H.
           specialize (H pe (list_elem_of_here _ _)). rewrite Ei, Hj, He in H.
           discriminate H. lia.
      * rewrite IH. split.
        -- intros H pe' [-> | Hin]%elem_of_cons Hmax; [| by apply H].
           exfalso. apply andb_false_iff in E1, E2.
           rewrite !bool_decide_eq_false in E1, E2. lia.
        -- intros H pe' Hin. apply H. by apply elem_of_cons; right.
Qed.

Lemma pattern_edges_nonneg :
  Forall (λ pe, 0 ≤ head_ pe ∧ 0 ≤ tail_ pe) (edges_ pattern).
Proof.
  eapply Forall_impl; [apply pattern_wf |]. intros pe [? ?]. lia.
Qed.

Lemma accepts_spec pre j :
  accepts pattern target (pre ++ [j]) = true ↔
  label_ok_at pattern target (length pre) j ∧
  ∀ pe, pe ∈ edges_ pattern → Z.max (head_ pe) (tail_ pe) = vsize pre →
        edge_ok target (pre ++ [j]) pe.
Proof.
  rewrite accepts_unfold. unfold label_ok_at.
  unfold vsize at 1. rewrite vget_of_nat.
  destruct (nodes_ pattern !! length pre) as [pn |] eqn:Hpn.
  2: { split; [done |]. by intros [(? & ? & ? & _) _]. }
  destruct (vget (nodes_ target) j) as [tn |] eqn:Htn.
  2: { split; [done |]. by intros [(? & ? & ? & ? & _) _]. }
  rewrite andb_true_iff, negb_true_iff, bool_decide_eq_true.
  rewrite (edge_fail_false (edges_ pattern) (pre ++ [j]) (vsize pre) j);
    [| apply pattern_edges_nonneg | by rewrite vsize_app | apply nm_at_snoc].
  rewrite andb_false_iff, !bool_decide_eq_false.
  split.
  - intros [Hl He]. split; [| done]. exists pn, tn. repeat split; try done.
    intros Hne. destruct Hl as [Hl | Hl]; [done |].
    by destruct (decide (node_label_ (node_attrs_ pn) = node_label_ (node_attrs_ tn))).
  - intros [(pn' & tn' & [= <-] & [= <-] & Hl) He]. split; [| done].
    destruct (decide (node_label_ (node_attrs_ pn) = EmptyString)) as [E | E].
    + left. by intros ?.
    + right. intros Hne. by apply Hne, Hl.
Qed.

Lemma edge_ok_app_l pre suf pe :
  0 ≤ head_ pe → 0 ≤ tail_ pe →
  Z.max (head_ pe) (tail_ pe) < vsize pre →
  edge_ok target (pre ++ suf) pe ↔ edge_ok target pre pe.
Proof.
  intros Hh Ht Hmax. unfold edge_ok. by rewrite !nm_at_app_l by lia.
Qed.

Lemma accepted_path_spec suf :
  ∀ pre, (length pre + length suf = n)%nat →
  accepted_path pattern target pre suf ↔
  (∀ (k : nat) j, suf !! k = Some j →
     0 ≤ j < Z.of_nat t ∧ label_ok_at pattern target (length pre + k) j) ∧
  (∀ pe, pe ∈ edges_ pattern → vsize pre ≤ Z.max (head_ pe) (tail_ pe) →
     edge_ok target (pre ++ suf) pe).
Proof.
  induction suf as [| j suf IH]; intros pre Hlen; simpl.
  - split; [| done]. intros _. split; [by intros k j [=] |].
    intros pe Hin Hmax. exfalso.
    pose proof (proj1 (Forall_forall _ _) pattern_wf pe Hin) as [Hh Ht].
    unfold vsize in *. simpl in Hlen. lia.
  - rewrite accepts_spec, (IH (pre ++ [j])) by (rewrite length_app; simpl in *; lia).
    rewrite <- (assoc_L (++) pre [j] suf). simpl.
    split.
    + intros (Hj & [Hl He] & Hs & Hes). split.
      * intros [| k] j'; simpl.
        -- intros [= <-]. by rewrite Nat.add_0_r.
        -- intros Hk. destruct (Hs k j' Hk) as [? Hl'].
           split; [done |]. rewrite length_app in Hl'. simpl in Hl'.
           by replace (length pre + S k)%nat with (length pre + 1 + k)%nat by lia.
      * intros pe Hin Hmax.
        pose proof (proj1 (Forall_forall _ _) pattern_wf pe Hin) as [Hh Ht].
        destruct (decide (Z.max (head_ pe) (tail_ pe) = vsize pre)) as [E | E].
        -- specialize (He pe Hin E).
           change (j :: suf) with ([j] ++ suf). rewrite (assoc_L (++)).
           apply edge_ok_app_l; [lia | lia | | done].
           rewrite vsize_app. change (vsize [j]) with 1. lia.
        -- apply Hes; [done |]. rewrite vsize_app. change (vsize [j]) with 1. lia.
    + intros [Hs Hes]. split; [| split; [split |]].
      * by destruct (Hs 0%nat j eq_refl).
      * destruct (Hs 0%nat j eq_refl) as [_ Hl]. by rewrite Nat.add_0_r in Hl.
      * intros pe Hin Hmax.
        pose proof (proj1 (Forall_forall _ _) pattern_wf pe Hin) as [Hh Ht].
        specialize (Hes pe Hin ltac:(lia)).
        change (j :: suf) with ([j] ++ suf) in Hes. rewrite (assoc_L (++)) in Hes.
        apply edge_ok_app_l in Hes; [done | lia | lia |].
        rewrite vsize_app. change (vsize [j]) with 1. lia.
      * split.
        -- intros k j' Hk. destruct (Hs (S k) j' Hk) as [? Hl].
           split; [done |]. rewrite length_app. simpl.
           by replace (length pre + 1 + k)%nat with (length pre + S k)%nat by lia.
        -- intros pe Hin Hmax. apply Hes; [done |].
           rewrite vsize_app in Hmax. change (vsize [j]) with 1 in Hmax. lia.
Qed.

Lemma valid_assignment_path nm :
  valid_assignment pattern target nm ↔
  length nm = n ∧ accepted_path pattern target [] nm.
Proof.
  unfold valid_assignment. split.
  - intros (Hlen & Hlab & Hedge). split; [done |].
    apply accepted_path_spec; [simpl; lia |]. simpl. split.
    + intros k j Hk.
      destruct (lookup_lt_is_Some_2 (nodes_ pattern) k) as [pn Hpn].
      { apply lookup_lt_Some in Hk. lia. }
      destruct (Hlab k pn Hpn) as (j' & tn & Hj' & Htn & Hl).
      assert (j' = j) as -> by congruence.
      split.
      * apply vget_Some in Htn as [? Htn]. apply lookup_lt_Some in Htn. lia.
      * by exists pn, tn.
    + intros pe Hin _. destruct (Hedge pe Hin) as (a & b & te & Ha & Hb & Hte & <- & <-).
      unfold edge_ok, nm_at. rewrite Ha, Hb. simpl.
      apply target_has_edge_true. by exists te.
  - intros [Hlen Hpath]. split; [done |].
    apply accepted_path_spec in Hpath as [Hs He]; [| simpl; lia].
    simpl in Hs, He. split.
    + intros i pn Hpn.
      destruct (lookup_lt_is_Some_2 nm i) as [j Hj].
      { apply lookup_lt_Some in Hpn. lia. }
      destruct (Hs i j Hj) as [_ (pn' & tn & Hpn' & Htn & Hl)].
      assert (pn' = pn) as -> by congruence. by exists j, tn.
    + intros pe Hin.
      pose proof (proj1 (Forall_forall _ _) pattern_wf pe Hin) as [Hh Ht].
      specialize (He pe Hin ltac:(unfold vsize; simpl; lia)).
      apply target_has_edge_true in He as (te & Hte & H1 & H2).
      exists (nm_at nm (head_ pe)), (nm_at nm (tail_ pe)), te.
      rewrite !nm_at_vget by (unfold vsize in *; lia). done.
Qed.

Lemma elem_of_try_candidates d pre js nm :
  nm ∈ try_candidates pattern target d pre js ↔
  ∃ j, j ∈ js ∧ accepts pattern target (pre ++ [j]) = true ∧
       nm ∈ extend pattern target d (pre ++ [j]).
Proof.
  unfold try_candidates. rewrite list_elem_of_In, in_flat_map. split.
  - intros (j & Hj & Hin). exists j. rewrite list_elem_of_In.
    destruct (accepts pattern target (pre ++ [j])); [| done].
    by rewrite list_elem_of_In.
  - intros (j & Hj & Hacc & Hin). exists j. rewrite <- list_elem_of_In.
    rewrite Hacc. by rewrite <- list_elem_of_In.
Qed.

Lemma elem_of_extend d :
  ∀ pre nm,
    nm ∈ extend pattern target d pre ↔
    ∃ suf, nm = pre ++ suf ∧ length suf = d ∧
           accepted_path pattern target pre suf.
Proof.
  induction d as [| d IH]; intros pre nm.
  - simpl. rewrite list_elem_of_singleton. split.
    + intros ->. exists []. by rewrite app_nil_r.
    + intros (suf & -> & Hlen & _). destruct suf; [| done]. by rewrite app_nil_r.
  - change (extend pattern target (S d) pre)
      with (try_candidates pattern target d pre (seqZ 0 (Z.of_nat t))).
    rewrite elem_of_try_candidates. split.
    + intros (j & Hj & Hacc & Hin). apply IH in Hin as (suf & -> & Hlen & Hpath).
      exists (j :: suf). rewrite <- (assoc_L (++)). simpl.
      apply elem_of_seqZ in Hj. repeat split; try done; lia.
    + intros (suf & -> & Hlen & Hpath). destruct suf as [| j suf]; [done |].
      destruct Hpath as (Hj & Hacc & Hpath). exists j.
      split; [apply elem_of_seqZ; lia |]. split; [done |].
      apply IH. exists suf. rewrite <- (assoc_L (++)). simpl.
      repeat split; try done. simpl in Hlen. lia.
Qed.

(** The search tree holds exactly the valid assignments. *)
Lemma elem_of_extend_valid nm :
  nm ∈ extend pattern target n [] ↔ valid_assignment pattern target nm.
Proof.
  rewrite elem_of_extend, valid_assignment_path. simpl. split.
  - by intros (suf & -> & Hlen & Hpath).
  - intros [Hlen Hpath]. by exists nm.
Qed.

(** *** Order *)

Lemma lex_lt_app pre a b : lex_lt (pre ++ a) (pre ++ b) ↔ lex_lt a b.
Proof.
  induction pre as [| x pre IH]; simpl; [done |]. rewrite IH. split.
  - intros [? | [_ ?]]; [lia | done].
  - intros ?. by right.
Qed.

Lemma lex_lt_irrefl a : ¬ lex_lt a a.
Proof.
  induction a as [| x a IH]; simpl; [tauto |].
  intros [? | [_ ?]]; [lia | auto].
Qed.

Lemma extend_prefix d pre nm :
  nm ∈ extend pattern target d pre → ∃ suf, nm = pre ++ suf.
Proof. intros (suf & -> & _)%elem_of_extend. by exists suf. Qed.

Lemma try_candidates_sorted d pre js :
  (∀ pre', StronglySorted lex_lt (extend pattern target d pre')) →
  StronglySorted Z.lt js →
  StronglySorted lex_lt (try_candidates pattern target d pre js).
Proof.
  intros Hext Hjs. induction Hjs as [| j js Hjs IH Hlt]; simpl; [constructor |].
  change (StronglySorted lex_lt
            ((if accepts pattern target (pre ++ [j])
              then extend pattern target d (pre ++ [j]) else [])
             ++ try_candidates pattern target d pre js)).
  apply StronglySorted_app_2; [| by destruct (accepts _ _ _); [| constructor] | done].
  intros x y Hx Hy.
  destruct (accepts pattern target (pre ++ [j])); [| by apply elem_of_nil in Hx].
  apply extend_prefix in Hx as [sx ->].
  apply elem_of_try_candidates in Hy as (j' & Hj' & _ & Hy).
  apply extend_prefix in Hy as [sy ->].
  rewrite <- !(assoc_L (++)). apply lex_lt_app. simpl. left.
  by apply (proj1 (Forall_forall _ _) Hlt).
Qed.

Lemma seqZ_sorted m len : StronglySorted Z.lt (seqZ m len).
Proof.
  destruct (decide (0 ≤ len)) as [Hlen | Hlen].
  2: { rewrite seqZ_nil by lia. constructor. }
  rewrite <- (Z2Nat.id len) by done. clear Hlen.
  generalize (Z.to_nat len). intros k. revert m.
  induction k as [| k IH]; intros m; [constructor |].
  rewrite seqZ_cons by lia.
  replace (Z.pred (Z.of_nat (S k))) with (Z.of_nat k) by lia.
  constructor; [apply IH |].
  apply Forall_forall. intros x Hx%elem_of_seqZ. lia.
Qed.

Lemma extend_sorted d : ∀ pre, StronglySorted lex_lt (extend pattern target d pre).
Proof.
  induction d as [| d IH]; intros pre; simpl.
  - repeat constructor.
  - apply (try_candidates_sorted d pre); [done | apply seqZ_sorted].
Qed.

End MatcherSpec.

(** ** Properties of the matches returned *)

Lemma collect_target_edges_spec tes : ∀ n0 a b k,
  k ∈ collect_target_edges tes n0 a b ↔
  ∃ te, n0 ≤ k ∧ tes !! Z.to_nat (k - n0) = Some te ∧ head_ te = a ∧ tail_ te = b.
Proof.
  induction tes as [| te tes IH]; intros n0 a b k; simpl.
  - rewrite elem_of_nil. split; [done |]. by intros (? & _ & [=] & _).
  - assert (Hrest : (∃ te', n0 + 1 ≤ k ∧ tes !! Z.to_nat (k - (n0 + 1)) = Some te' ∧
                            head_ te' = a ∧ tail_ te' = b) ↔
                    (∃ te', n0 < k ∧ (te :: tes) !! Z.to_nat (k - n0) = Some te' ∧
                            head_ te' = a ∧ tail_ te' = b)).
    { split; intros (te' & Hk & Hl & Hh); exists te'; (split; [lia |]);
        (split; [| done]).
      - replace (Z.to_nat (k - n0)) with (S (Z.to_nat (k - (n0 + 1)))) by lia. done.
      - replace (Z.to_nat (k - n0)) with (S (Z.to_nat (k - (n0 + 1)))) in Hl by lia.
        done. }
    destruct (bool_decide (head_ te = a) && bool_decide (tail_ te = b)) eqn:E.
    + apply andb_true_iff in E as [Ea%bool_decide_eq_true Eb%bool_decide_eq_true].
      rewrite elem_of_cons, IH, Hrest. split.
      * intros [-> | (te' & Hk & Hl & Hh)].
        -- exists te. rewrite Z.sub_diag. simpl. repeat split; done.
        -- exists te'. split; [lia | done].
      * intros (te' & Hk & Hl & Hh).
        destruct (decide (k = n0)) as [-> | Hne]; [by left | right].
        exists te'. split; [lia | done].
    + rewrite IH, Hrest. split.
      * intros (te' & Hk & Hl & Hh). exists te'. split; [lia | done].
      * intros (te' & Hk & Hl & Hh).
        destruct (decide (k = n0)) as [-> | Hne].
        -- rewrite Z.sub_diag in Hl. simpl in Hl. injection Hl as <-.
           destruct Hh as [<- <-]. by rewrite !bool_decide_eq_true_2 in E.
        -- exists te'. split; [lia | done].
Qed.

Lemma collect_target_edges_sorted tes : ∀ n0 a b,
  StronglySorted Z.lt (collect_target_edges tes n0 a b).
Proof.
  induction tes as [| te tes IH]; intros n0 a b; simpl; [constructor |].
  destruct (_ && _); [| apply IH].
  constructor; [apply IH |]. apply Forall_forall.
  intros k (te' & Hk & _)%collect_target_edges_spec. lia.
Qed.

Lemma node_mapping_complete pattern target nms :
  map node_mapping_ (map (complete pattern target) nms) = nms.
Proof. induction nms as [| nm nms IH]; simpl; [done |]. by rewrite IH. Qed.

Lemma fm_loop_mono pattern target fuel fuel' s :
  fm_loop pattern target fuel s ≠ Exhausted →
  (fuel ≤ fuel')%nat →
  fm_loop pattern target fuel' s = fm_loop pattern target fuel s.
Proof.
  revert fuel' s. induction fuel as [| fuel IH]; intros fuel' s Hne Hle; [done |].
  destruct fuel' as [| fuel']; [lia |]. simpl in *.
  destruct (fm_step pattern target s); try done. apply IH; [done | lia].
Qed.

Lemma stack_ok_reachable pattern target s :
  (1 ≤ length (nodes_ pattern))%nat →
  rtc (fm_next pattern target) fm_init s →
  stack_ok pattern target (partial_matches s).
Proof.
  intros Hn Hrtc. apply rtc_nsteps in Hrtc as [k Hk].
  revert s Hk. induction k as [| k IH]; intros s Hk.
  - inversion Hk. subst. simpl. unfold back_of. simpl. repeat split; lia.
  - apply nsteps_inv_r in Hk as (s1 & Hk & Hstep).
    by destruct (fm_step_decreases pattern target s1 s (IH s1 Hk) Hstep).
Qed.

Lemma frames_below_ok_bounds target st :
  frames_below_ok target st →
  Forall (λ pm, 0 ≤ back_of pm ≤ vsize (nodes_ target)) st.
Proof.
  induction st as [| pm st IH]; simpl; [constructor |].
  intros (_ & Hj & Hst). constructor; [unfold vsize; lia | by apply IH].
Qed.

(** C8.  The matcher terminates on every pattern with at least one node:
    the iteration budget [fm_budget] is never used up, and a larger budget
    changes nothing.  In every state the loop reaches, the stack holds at
    most as many frames as the pattern has nodes, and the entry under test
    of every frame lies between 0 and the number of target nodes, so a frame
    goes through at most that number plus one values. *)
Theorem findMatches_terminates pattern target :
  1 ≤ vsize (nodes_ pattern) →
  findMatches pattern target ≠ Exhausted ∧
  (∀ fuel, (fm_budget pattern target ≤ fuel)%nat →
     fm_loop pattern target fuel fm_init = findMatches pattern target) ∧
  (∀ s, rtc (fm_next pattern target) fm_init s →
     vsize (partial_matches s) ≤ vsize (nodes_ pattern) ∧
     Forall (λ pm, 0 ≤ back_of pm ≤ vsize (nodes_ target)) (partial_matches s)).
Proof.
  intros Hn. unfold vsize in Hn.
  assert (Hne : fm_loop pattern target (fm_budget pattern target) fm_init ≠ Exhausted).
  { apply findMatches_not_exhausted. lia. }
  unfold findMatches. rewrite bool_decide_eq_true_2 by (unfold vsize; lia).
  split; [done |]. split.
  - intros fuel Hfuel. by apply fm_loop_mono.
  - intros s Hs. apply stack_ok_reachable in Hs; [| lia].
    destruct (partial_matches s) as [| pm below]; simpl in *.
    + split; [unfold vsize; simpl; lia | constructor].
    + destruct Hs as (_ & Hd & Hj & Hbelow). split.
      * unfold vsize. simpl. lia.
      * constructor; [unfold vsize; lia | by apply frames_below_ok_bounds].
Qed.

Lemma findMatches_terminates_witness :
  findMatches sample_pattern sample_target ≠ Exhausted ∧
  (∀ fuel, (fm_budget sample_pattern sample_target ≤ fuel)%nat →
     fm_loop sample_pattern sample_target fuel fm_init
     = findMatches sample_pattern sample_target) ∧
  (∀ s, rtc (fm_next sample_pattern sample_target) fm_init s →
     vsize (partial_matches s) ≤ vsize (nodes_ sample_pattern) ∧
     Forall (λ pm, 0 ≤ back_of pm ≤ vsize (nodes_ sample_target))
            (partial_matches s)).
Proof.
  apply (findMatches_terminates sample_pattern sample_target). vm_compute. done.
Defined.

Lemma findMatches_returns pattern target :
  wf_graph pattern →
  1 ≤ vsize (nodes_ pattern) →
  findMatches pattern target
  = Returns (map (complete pattern target)
                 (extend pattern target (length (nodes_ pattern)) [])).
Proof.
  intros Hwf Hn. apply findMatches_explores; [done |]. unfold vsize in Hn. lia.
Qed.

Lemma returned_match_valid pattern target φ :
  wf_graph pattern →
  φ ∈ map (complete pattern target)
          (extend pattern target (length (nodes_ pattern)) []) →
  φ = complete pattern target (node_mapping_ φ) ∧
  valid_assignment pattern target (node_mapping_ φ).
Proof.
  intros Hwf (nm & -> & Hnm)%list_elem_of_fmap. simpl. split; [done |].
  by apply elem_of_extend_valid.
Qed.

Lemma valid_assignment_in_range pattern target nm :
  valid_assignment pattern target nm →
  Forall (λ j, 0 ≤ j < vsize (nodes_ target)) nm.
Proof.
  intros (Hlen & Hlab & _). apply Forall_lookup. intros i j Hj.
  destruct (lookup_lt_is_Some_2 (nodes_ pattern) i) as [pn Hpn].
  { apply lookup_lt_Some in Hj. lia. }
  destruct (Hlab i pn Hpn) as (j' & tn & Hj' & Htn & _).
  assert (j' = j) as -> by congruence.
  apply vget_Some in Htn as [? Htn]. apply lookup_lt_Some in Htn.
  unfold vsize. lia.
Qed.

(** C9.  Shape of the matches: every mapping returned by the matcher has one
    node entry per pattern node, each of them a position of the target's
    node list, and one edge entry per pattern edge. *)
Theorem findMatches_shape pattern target :
  wf_graph pattern →
  1 ≤ vsize (nodes_ pattern) →
  ∃ ms, findMatches pattern target = Returns ms ∧
    ∀ φ, φ ∈ ms →
      vsize (node_mapping_ φ) = vsize (nodes_ pattern) ∧
      Forall (λ j, 0 ≤ j < vsize (nodes_ target)) (node_mapping_ φ) ∧
      vsize (edge_mapping_ φ) = vsize (edges_ pattern).
Proof.
  intros Hwf Hn. eexists. split; [by apply findMatches_returns |].
  intros φ Hφ. destruct (returned_match_valid pattern target φ Hwf Hφ) as [Heq Hvalid].
  split; [| split].
  - destruct Hvalid as [Hlen _]. unfold vsize. by rewrite Hlen.
  - by apply (valid_assignment_in_range pattern).
  - rewrite Heq. unfold complete, vsize. simpl. by rewrite length_map.
Qed.

Lemma findMatches_shape_witness :
  ∃ ms, findMatches sample_pattern sample_target = Returns ms ∧
    ∀ φ, φ ∈ ms →
      vsize (node_mapping_ φ) = vsize (nodes_ sample_pattern) ∧
      Forall (λ j, 0 ≤ j < vsize (nodes_ sample_target)) (node_mapping_ φ) ∧
      vsize (edge_mapping_ φ) = vsize (edges_ sample_pattern).
Proof.
  apply (findMatches_shape sample_pattern sample_target).
  - vm_decide.
  - vm_compute. done.
Defined.

(** C1.  Match soundness: for every match returned and every pattern edge
    [m], the target has an edge from the image of the tail of [m] to the
    image of its head, and the edge entry of [m] lists the indices of exactly
    the target edges between these two images, parallel edges included, each
    once and in increasing order. *)
Theorem findMatches_sound pattern target :
  wf_graph pattern →
  1 ≤ vsize (nodes_ pattern) →
  ∃ ms, findMatches pattern target = Returns ms ∧
    ∀ φ (m : nat) pattern_edge,
      φ ∈ ms →
      edges_ pattern !! m = Some pattern_edge →
      ∃ j_head j_tail target_edges,
        vget (node_mapping_ φ) (head_ pattern_edge) = Some j_head ∧
        vget (node_mapping_ φ) (tail_ pattern_edge) = Some j_tail ∧
        (∃ target_edge, target_edge ∈ edges_ target ∧
           head_ target_edge = j_head ∧ tail_ target_edge = j_tail) ∧
        edge_mapping_ φ !! m = Some target_edges ∧
        (∀ k, k ∈ target_edges ↔
              ∃ target_edge, vget (edges_ target) k = Some target_edge ∧
                head_ target_edge = j_head ∧ tail_ target_edge = j_tail) ∧
        StronglySorted Z.lt target_edges.
Proof.
  intros Hwf Hn. eexists. split; [by apply findMatches_returns |].
  intros φ m pe Hφ Hm.
  destruct (returned_match_valid pattern target φ Hwf Hφ) as [Heq Hvalid].
  destruct Hvalid as (Hlen & _ & Hedge).
  destruct (Hedge pe) as (j_head & j_tail & te & Hh & Ht & Hte & Hteh & Htet).
  { apply list_elem_of_lookup. by exists m. }
  exists j_head, j_tail,
    (collect_target_edges (edges_ target) 0 j_head j_tail).
  split; [done |]. split; [done |]. split; [by exists te |]. split; [| split].
  - rewrite Heq. unfold complete. simpl. rewrite list_lookup_fmap, Hm. simpl.
    unfold nm_at. by rewrite Hh, Ht.
  - intros k. rewrite collect_target_edges_spec. rewrite Z.sub_0_r. split.
    + intros (te' & Hk & Hl & Hte'). exists te'. split; [| done].
      by apply vget_Some.
    + intros (te' & [Hk Hl]%vget_Some & Hte'). by exists te'.
  - apply collect_target_edges_sorted.
Qed.

Lemma findMatches_sound_witness :
  ∃ ms, findMatches sample_pattern sample_target = Returns ms ∧
    ∀ φ (m : nat) pattern_edge,
      φ ∈ ms →
      edges_ sample_pattern !! m = Some pattern_edge →
      ∃ j_head j_tail target_edges,
        vget (node_mapping_ φ) (head_ pattern_edge) = Some j_head ∧
        vget (node_mapping_ φ) (tail_ pattern_edge) = Some j_tail ∧
        (∃ target_edge, target_edge ∈ edges_ sample_target ∧
           head_ target_edge = j_head ∧ tail_ target_edge = j_tail) ∧
        edge_mapping_ φ !! m = Some target_edges ∧
        (∀ k, k ∈ target_edges ↔
              ∃ target_edge, vget (edges_ sample_target) k = Some target_edge ∧
                head_ target_edge = j_head ∧ tail_ target_edge = j_tail) ∧
        StronglySorted Z.lt target_edges.
Proof.
  apply (findMatches_sound sample_pattern sample_target).
  - vm_decide.
  - vm_compute. done.
Defined.

(** C2.  Match completeness and ordering: the node mappings of the matches
    returned are exactly the assignments that satisfy the label and the edge
    constraint, injective or not; each of them is returned once; and the
    matches come in strictly increasing lexicographic order of their node
    mappings, which is the order of a search trying target index 0 first. *)
Theorem findMatches_complete pattern target :
  wf_graph pattern →
  1 ≤ vsize (nodes_ pattern) →
  ∃ ms, findMatches pattern target = Returns ms ∧
    (∀ nm, valid_assignment pattern target nm ↔ nm ∈ map node_mapping_ ms) ∧
    (∀ nm, valid_assignment pattern target nm →
       ∃ k : nat, ∀ k' : nat, map node_mapping_ ms !! k' = Some nm ↔ k' = k) ∧
    StronglySorted lex_lt (map node_mapping_ ms).
Proof.
  intros Hwf Hn. eexists. split; [by apply findMatches_returns |].
  rewrite node_mapping_complete.
  assert (Hsorted := extend_sorted pattern target (length (nodes_ pattern)) []).
  assert (Hnodup : NoDup (extend pattern target (length (nodes_ pattern)) [])).
  { revert Hsorted. generalize (extend pattern target (length (nodes_ pattern)) []).
    induction 1 as [| nm nms _ IH Hlt]; constructor; [| done].
    intros Hin. apply (lex_lt_irrefl nm).
    by apply (proj1 (Forall_forall _ _) Hlt). }
  split; [| split; [| done]].
  - intros nm. symmetry. by apply elem_of_extend_valid.
  - intros nm Hvalid. apply (elem_of_extend_valid pattern target Hwf) in Hvalid.
    apply list_elem_of_lookup in Hvalid as [k Hk]. exists k. intros k'. split.
    + intros Hk'. by apply (NoDup_lookup _ k' k nm Hnodup).
    + by intros ->.
Qed.

Lemma findMatches_complete_witness :
  ∃ ms, findMatches sample_pattern sample_target = Returns ms ∧
    (∀ nm, valid_assignment sample_pattern sample_target nm
           ↔ nm ∈ map node_mapping_ ms) ∧
    (∀ nm, valid_assignment sample_pattern sample_target nm →
       ∃ k : nat, ∀ k' : nat, map node_mapping_ ms !! k' = Some nm ↔ k' = k) ∧
    StronglySorted lex_lt (map node_mapping_ ms).
Proof.
  apply (findMatches_complete sample_pattern sample_target).
  - vm_decide.
  - vm_compute. done.
Defined.

(** ** The loops of the applier *)

Lemma vset_Some {A} (v : list A) i x v' :
  vset v i x = Some v' ↔ 0 ≤ i < vsize v ∧ v' = <[Z.to_nat i := x]> v.
Proof.
  unfold vset. case_decide as H; split.
  - by intros [= <-].
  - by intros [_ ->].
  - done.
  - by intros [? _].
Qed.

Lemma vget_insert {A} (v : list A) i j x :
  0 ≤ i < vsize v →
  vget (<[Z.to_nat i := x]> v) j = if decide (i = j) then Some x else vget v j.
Proof.
  intros Hi. unfold vget, vsize in *. rewrite length_insert.
  destruct (decide (i = j)) as [<- | Hij].
  - rewrite decide_True by done. apply list_lookup_insert_eq. lia.
  - destruct (decide (0 ≤ j < Z.of_nat (length v))) as [Hj | Hj]; [| done].
    apply list_lookup_insert_ne. lia.
Qed.

Lemma vsize_insert {A} (v : list A) k x : vsize (<[k := x]> v) = vsize v.
Proof. unfold vsize. by rewrite length_insert. Qed.

Lemma vsize_snoc {A} (v : list A) x : vsize (v ++ [x]) - 1 = vsize v.
Proof. rewrite vsize_app. change (vsize [x]) with 1. lia. Qed.

Lemma vget_lt {A} (v : list A) i x : vget v i = Some x → 0 ≤ i < vsize v.
Proof. intros [? H%lookup_lt_Some]%vget_Some. unfold vsize. lia. Qed.

Lemma emit_nodes_spec src xs : ∀ nodes table nodes' table',
  emit_nodes src xs nodes table = Some (nodes', table') →
  ∃ ns,
    Forall2 (λ x node, vget src x = Some node) xs ns ∧
    nodes' = nodes ++ ns ∧
    vsize table' = vsize table ∧
    Forall (λ x, 0 ≤ x < vsize table) xs ∧
    (∀ y, y ∉ xs → vget table' y = vget table y) ∧
    (∀ (p : nat) x, xs !! p = Some x → x ∉ drop (S p) xs →
       vget table' x = Some (vsize nodes + Z.of_nat p)).
Proof.
  induction xs as [| x xs IH]; intros nodes table nodes' table'; simpl.
  - intros [= <- <-]. exists []. rewrite app_nil_r.
    repeat split; done.
  - destruct (vget src x) as [node |] eqn:Hnode; [| done]. simpl.
    destruct (vset table x _) as [table1 |] eqn:Hset; [| done]. simpl.
    apply vset_Some in Hset as [Hx ->]. rewrite vsize_snoc.
    intros (ns & Hns & -> & Hsize & Hrange & Hother & Hpos)%IH.
    rewrite vsize_insert in Hsize, Hrange.
    exists (node :: ns). split; [by constructor |].
    split; [by rewrite <- (assoc_L (++)) |]. split; [done |].
    split; [by constructor |]. split.
    + intros y [Hy1 Hy2]%not_elem_of_cons. rewrite Hother by done.
      rewrite vget_insert by done. by rewrite decide_False.
    + intros [| p] y; simpl.
      * intros [= <-] Hy. rewrite drop_0 in Hy. rewrite Hother by done.
        rewrite vget_insert by done. rewrite decide_True by done.
        f_equal. lia.
      * intros Hp Hy. rewrite (Hpos p y Hp Hy). f_equal.
        rewrite vsize_app. change (vsize [node]) with 1. lia.
Qed.

Lemma emit_nodes_defined src xs : ∀ nodes table,
  Forall (λ x, 0 ≤ x < vsize src ∧ 0 ≤ x < vsize table) xs →
  is_Some (emit_nodes src xs nodes table).
Proof.
  induction xs as [| x xs IH]; intros nodes table Hxs; simpl; [eauto |].
  apply Forall_cons in Hxs as [[Hsrc Htable] Hxs].
  destruct (vget_in_range src x Hsrc) as [node ->]. simpl.
  unfold vset. rewrite decide_True by done. simpl.
  apply IH. eapply Forall_impl; [exact Hxs |]. simpl.
  intros y. by rewrite vsize_insert.
Qed.

Lemma emit_nodes_app src xs ys nodes table :
  emit_nodes src (xs ++ ys) nodes table
  = r ← emit_nodes src xs nodes table; emit_nodes src ys r.1 r.2.
Proof.
  revert nodes table. induction xs as [| x xs IH]; intros nodes table; simpl; [done |].
  destruct (vget src x) as [node |]; [| done]. simpl.
  destruct (vset table x _) as [table1 |]; [| done]. simpl. apply IH.
Qed.

Lemma emit_edges_spec src table ms : ∀ edges edges',
  emit_edges src table ms edges = Some edges' ↔
  ∃ es,
    Forall2 (λ m edge, ∃ src_edge, vget src m = Some src_edge ∧
                         translate_edge table src_edge = Some edge) ms es ∧
    edges' = edges ++ es.
Proof.
  induction ms as [| m ms IH]; intros edges edges'; simpl.
  - split.
    + intros [= <-]. exists []. by rewrite app_nil_r.
    + intros (es & Hes & ->). apply Forall2_nil_inv_l in Hes as ->.
      by rewrite app_nil_r.
  - split.
    + destruct (vget src m) as [se |] eqn:Hse; [| done]. simpl.
      destruct (translate_edge table se) as [e |] eqn:He; [| done]. simpl.
      intros (es & Hes & ->)%IH. exists (e :: es). split.
      * constructor; [by exists se | done].
      * by rewrite <- (assoc_L (++)).
    + intros (es & Hes & ->).
      apply Forall2_cons_inv_l in Hes as (e & es' & (se & Hse & He) & Hes & ->).
      rewrite Hse. simpl. rewrite He. simpl. apply IH. exists es'.
      split; [done |]. by rewrite <- (assoc_L (++)).
Qed.

Lemma emit_edges_app src table ms ms' edges :
  emit_edges src table (ms ++ ms') edges
  = es ← emit_edges src table ms edges; emit_edges src table ms' es.
Proof.
  revert edges. induction ms as [| m ms IH]; intros edges; simpl; [done |].
  destruct (vget src m) as [se |]; [| done]. simpl.
  destruct (translate_edge table se) as [e |]; [| done]. simpl. apply IH.
Qed.

(** Unfold one iteration of a loop, keeping the remaining iterations folded. *)
Ltac loop_step :=
  match goal with
  | |- for_each ?b (?i :: ?l) ?s = _ =>
      change (for_each b (i :: l) s) with (b s i ≫= for_each b l);
      set (loop := for_each b l) in *
  end.

Section ApplierLoops.
Variables (rule : Rule) (target : Graph) (lhs_to_target : GraphMapping).

Lemma context_node_loop (in_lhs : gset Z) ixs : ∀ s,
  for_each (copy_context_node target in_lhs) ixs s
  = r ← emit_nodes (nodes_ target) (filter (λ i, i ∉ in_lhs) ixs)
                   (result_nodes s) (target_to_result_node s);
    Some (mkApplyState r.1 (result_edges s) r.2 (rhs_to_result_node s)).
Proof.
  induction ixs as [| i ixs IH]; intros s; [by destruct s |].
  loop_step. unfold copy_context_node. rewrite filter_cons.
  destruct (decide (i ∈ in_lhs)) as [Hin | Hin].
  - rewrite decide_False by (by intros H; apply H). simpl. apply IH.
  - rewrite decide_True by done. simpl.
    destruct (vget (nodes_ target) i) as [node |]; [| done]. simpl.
    destruct (vset (target_to_result_node s) i _) as [table |]; [| done]. simpl.
    by rewrite IH.
Qed.

Lemma copy_common_node_image s k :
  copy_common_node rule target lhs_to_target s k
  = x ← common_image rule lhs_to_target k;
    r ← emit_nodes (nodes_ target) [x] (result_nodes s) (target_to_result_node s);
    Some (mkApplyState r.1 (result_edges s) r.2 (rhs_to_result_node s)).
Proof.
  unfold copy_common_node, common_image.
  destruct (vget (node_mapping_ (common_to_lhs_ rule)) k) as [l |]; [| done]. simpl.
  destruct (vget (node_mapping_ lhs_to_target) l) as [x |]; [| done]. simpl.
  destruct (vget (nodes_ target) x) as [node |]; [| done]. simpl.
  by destruct (vset (target_to_result_node s) x _).
Qed.

Lemma common_node_loop ks : ∀ s,
  for_each (copy_common_node rule target lhs_to_target) ks s
  = imgs ← mapM (common_image rule lhs_to_target) ks;
    r ← emit_nodes (nodes_ target) imgs (result_nodes s) (target_to_result_node s);
    Some (mkApplyState r.1 (result_edges s) r.2 (rhs_to_result_node s)).
Proof.
  induction ks as [| k ks IH]; intros s; [by destruct s |].
  loop_step. rewrite copy_common_node_image.
  change (mapM ?f (k :: ks)) with (y ← f k; ys ← mapM f ks; Some (y :: ys)).
  destruct (common_image rule lhs_to_target k) as [x |]; [| done]. simpl.
  destruct (vget (nodes_ target) x) as [node |] eqn:Hnode; simpl.
  - destruct (vset (target_to_result_node s) x _) as [table |] eqn:Hset; simpl.
    + rewrite IH. simpl.
      destruct (mapM _ ks) as [imgs |]; [| done]. simpl.
      by rewrite Hnode; simpl; rewrite Hset.
    + destruct (mapM _ ks) as [imgs |]; [| done]. simpl.
      by rewrite Hnode; simpl; rewrite Hset.
  - destruct (mapM _ ks) as [imgs |]; [| done]. simpl. by rewrite Hnode.
Qed.

Lemma rhs_node_loop (in_common : gset Z) ixs : ∀ s,
  for_each (add_rhs_node rule in_common) ixs s
  = r ← emit_nodes (nodes_ (rhs_ rule)) (filter (λ i, i ∉ in_common) ixs)
                   (result_nodes s) (rhs_to_result_node s);
    Some (mkApplyState r.1 (result_edges s) (target_to_result_node s) r.2).
Proof.
  induction ixs as [| i ixs IH]; intros s; [by destruct s |].
  loop_step. unfold add_rhs_node. rewrite filter_cons.
  destruct (decide (i ∈ in_common)) as [Hin | Hin].
  - rewrite decide_False by (by intros H; apply H). simpl. apply IH.
  - rewrite decide_True by done. simpl.
    destruct (vget (nodes_ (rhs_ rule)) i) as [node |]; [| done]. simpl.
    destruct (vset (rhs_to_result_node s) i _) as [table |]; [| done]. simpl.
    by rewrite IH.
Qed.

Lemma context_edge_loop (in_lhs : gset Z) ixs : ∀ s,
  for_each (copy_context_edge target in_lhs) ixs s
  = es ← emit_edges (edges_ target) (target_to_result_node s)
                    (filter (λ m, m ∉ in_lhs) ixs) (result_edges s);
    Some (mkApplyState (result_nodes s) es
                       (target_to_result_node s) (rhs_to_result_node s)).
Proof.
  induction ixs as [| m ixs IH]; intros s; [by destruct s |].
  loop_step. unfold copy_context_edge. rewrite filter_cons.
  destruct (decide (m ∈ in_lhs)) as [Hin | Hin].
  - rewrite decide_False by (by intros H; apply H). simpl. apply IH.
  - rewrite decide_True by done. simpl.
    destruct (vget (edges_ target) m) as [te |]; [| done]. simpl.
    destruct (translate_edge _ te) as [e |]; [| done]. simpl.
    by rewrite IH.
Qed.

Lemma matched_edge_loop tes : ∀ s,
  for_each (copy_matched_edge target) tes s
  = es ← emit_edges (edges_ target) (target_to_result_node s) tes (result_edges s);
    Some (mkApplyState (result_nodes s) es
                       (target_to_result_node s) (rhs_to_result_node s)).
Proof.
  induction tes as [| m tes IH]; intros s; [by destruct s |].
  loop_step. unfold copy_matched_edge. simpl.
  destruct (vget (edges_ target) m) as [te |]; [| done]. simpl.
  destruct (translate_edge _ te) as [e |]; [| done]. simpl.
  by rewrite IH.
Qed.

Lemma copy_common_edge_images s m :
  copy_common_edge rule target lhs_to_target s m
  = tes ← common_edge_images rule lhs_to_target m;
    for_each (copy_matched_edge target) tes s.
Proof.
  unfold copy_common_edge, common_edge_images.
  destruct (vget (edge_mapping_ (common_to_lhs_ rule)) m) as [ls |]; [| done]. simpl.
  by destruct (vget ls 0) as [l |].
Qed.

Lemma common_edge_loop ks : ∀ s,
  for_each (copy_common_edge rule target lhs_to_target) ks s
  = images ← mapM (common_edge_images rule lhs_to_target) ks;
    es ← emit_edges (edges_ target) (target_to_result_node s)
                    (concat images) (result_edges s);
    Some (mkApplyState (result_nodes s) es
                       (target_to_result_node s) (rhs_to_result_node s)).
Proof.
  induction ks as [| k ks IH]; intros s; [by destruct s |].
  loop_step. rewrite copy_common_edge_images.
  change (mapM ?f (k :: ks)) with (y ← f k; ys ← mapM f ks; Some (y :: ys)).
  destruct (common_edge_images rule lhs_to_target k) as [tes |]; [| done]. simpl.
  rewrite matched_edge_loop.
  destruct (emit_edges _ _ tes _) as [es |] eqn:Hes; simpl.
  - rewrite IH. simpl.
    destruct (mapM _ ks) as [images |]; [| done]. simpl.
    by rewrite emit_edges_app, Hes.
  - destruct (mapM _ ks) as [images |]; [| done]. simpl.
    by rewrite emit_edges_app, Hes.
Qed.

Lemma rhs_edge_loop (in_common : gset Z) ixs : ∀ s,
  for_each (add_rhs_edge rule in_common) ixs s
  = es ← emit_edges (edges_ (rhs_ rule)) (rhs_to_result_node s)
                    (filter (λ m, m ∉ in_common) ixs) (result_edges s);
    Some (mkApplyState (result_nodes s) es
                       (target_to_result_node s) (rhs_to_result_node s)).
Proof.
  induction ixs as [| m ixs IH]; intros s; [by destruct s |].
  loop_step. unfold add_rhs_edge. rewrite filter_cons.
  destruct (decide (m ∈ in_common)) as [Hin | Hin].
  - rewrite decide_False by (by intros H; apply H). simpl. apply IH.
  - rewrite decide_True by done. simpl.
    destruct (vget (edges_ (rhs_ rule)) m) as [re |]; [| done]. simpl.
    destruct (translate_edge _ re) as [e |]; [| done]. simpl.
    by rewrite IH.
Qed.

End ApplierLoops.

(** ** The applier as six passes *)

Section ApplierPasses.
Variables (rule : Rule) (target : Graph) (lhs_to_target : GraphMapping).

Local Abbreviation unassigned_target :=
  (replicate (length (nodes_ target)) index_none).
Local Abbreviation unassigned_rhs :=
  (replicate (length (nodes_ (rhs_ rule))) index_none).

(** [applyRule] returns a graph exactly when its six loops stay inside their
    vectors; the graph is then made of the nodes and edges they emit. *)
Lemma applyRule_Some result :
  applyRule rule target lhs_to_target = Some result ↔
  ∃ n1 t1 imgs n2 t2 n3 r3 e1 kept e2 e3,
    emit_nodes (nodes_ target) (context_nodes target lhs_to_target)
               [] unassigned_target = Some (n1, t1) ∧
    common_images rule lhs_to_target = Some imgs ∧
    emit_nodes (nodes_ target) imgs n1 t1 = Some (n2, t2) ∧
    emit_nodes (nodes_ (rhs_ rule)) (fresh_nodes rule) n2 unassigned_rhs
      = Some (n3, r3) ∧
    emit_edges (edges_ target) t2 (context_edges target lhs_to_target) []
      = Some e1 ∧
    kept_edges rule lhs_to_target = Some kept ∧
    emit_edges (edges_ target) t2 kept e1 = Some e2 ∧
    emit_edges (edges_ (rhs_ rule)) r3 (fresh_edges rule) e2 = Some e3 ∧
    result = mkGraph n3 e3 [].
Proof.
  unfold applyRule, apply_nodes, apply_edges.
  rewrite context_node_loop. unfold apply_init. simpl.
  fold (context_nodes target lhs_to_target).
  destruct (emit_nodes (nodes_ target) (context_nodes target lhs_to_target) _ _)
    as [[n1 t1] |] eqn:H1; simpl.
  2: { split; [done |]. by intros (? & ? & ? & ? & ? & ? & ? & ? & ? & ? & ? & ? & _). }
  rewrite common_node_loop. simpl.
  fold (common_images rule lhs_to_target).
  destruct (common_images rule lhs_to_target) as [imgs |] eqn:Himgs; simpl.
  2: { split; [done |]. by intros (? & ? & ? & ? & ? & ? & ? & ? & ? & ? & ? & _ & ? & _). }
  destruct (emit_nodes (nodes_ target) imgs n1 t1) as [[n2 t2] |] eqn:H2; simpl.
  2: { split; [done |].
       intros (? & ? & ? & ? & ? & ? & ? & ? & ? & ? & ? & [= <- <-] & [= <-] & ? & _).
       congruence. }
  rewrite rhs_node_loop. simpl. fold (fresh_nodes rule).
  destruct (emit_nodes (nodes_ (rhs_ rule)) (fresh_nodes rule) n2 _)
    as [[n3 r3] |] eqn:H3; simpl.
  2: { split; [done |].
       intros (? & ? & ? & ? & ? & ? & ? & ? & ? & ? & ? & [= <- <-] & [= <-] & H2' & ? & _).
       rewrite H2 in H2'. injection H2' as <- <-. congruence. }
  rewrite context_edge_loop. simpl. fold (context_edges target lhs_to_target).
  destruct (emit_edges (edges_ target) t2 (context_edges target lhs_to_target) [])
    as [e1 |] eqn:H4; simpl.
  2: { split; [done |].
       intros (? & ? & ? & ? & ? & ? & ? & ? & ? & ? & ? & [= <- <-] & [= <-] & H2' & ? & ? & _).
       rewrite H2 in H2'. injection H2' as <- <-. congruence. }
  rewrite common_edge_loop. simpl. unfold kept_edges.
  destruct (mapM (common_edge_images rule lhs_to_target) _) as [images |] eqn:Hk; simpl.
  2: { split; [done |].
       by intros (? & ? & ? & ? & ? & ? & ? & ? & ? & ? & ? & _ & _ & _ & _ & _ & ? & _). }
  destruct (emit_edges (edges_ target) t2 (concat images) e1) as [e2 |] eqn:H5; simpl.
  2: { split; [done |].
       intros (? & ? & ? & ? & ? & ? & ? & ? & ? & ? & ? & [= <- <-] & [= <-] & H2' & ? & H4' & [= <-] & ? & _).
       rewrite H2 in H2'. injection H2' as <- <-.
       rewrite H4 in H4'. injection H4' as <-. congruence. }
  rewrite rhs_edge_loop. simpl. fold (fresh_edges rule).
  destruct (emit_edges (edges_ (rhs_ rule)) r3 (fresh_edges rule) e2) as [e3 |] eqn:H6; simpl.
  2: { split; [done |].
       intros (? & ? & ? & ? & ? & ? & ? & ? & ? & ? & ? & [= <- <-] & [= <-] & H2' & H3' & H4' & [= <-] & H5' & ? & _).
       rewrite H2 in H2'. injection H2' as <- <-.
       rewrite H3 in H3'. injection H3' as <- <-.
       rewrite H4 in H4'. injection H4' as <-.
       rewrite H5 in H5'. injection H5' as <-. congruence. }
  split.
  - intros [= <-]. by exists n1, t1, imgs, n2, t2, n3, r3, e1, (concat images), e2, e3.
  - intros (? & ? & ? & ? & ? & ? & ? & ? & ? & ? & ? & [= <- <-] & [= <-] & H2' & H3' & H4' & [= <-] & H5' & H6' & ->).
    rewrite H2 in H2'. injection H2' as <- <-.
    rewrite H3 in H3'. injection H3' as <- <-.
    rewrite H4 in H4'. injection H4' as <-.
    rewrite H5 in H5'. injection H5' as <-.
    rewrite H6 in H6'. by injection H6' as <-.
Qed.

End ApplierPasses.

Lemma positions_lookup {A} (v : list A) (k : Z) :
  0 ≤ k < vsize v → positions v !! Z.to_nat k = Some k.
Proof.
  intros Hk. unfold positions. rewrite lookup_seqZ_lt by lia. f_equal. lia.
Qed.

Lemma elem_of_positions {A} (v : list A) (k : Z) :
  k ∈ positions v ↔ 0 ≤ k < vsize v.
Proof. unfold positions. rewrite elem_of_seqZ. lia. Qed.

Lemma NoDup_positions {A} (v : list A) : NoDup (positions v).
Proof. apply NoDup_seqZ. Qed.

Lemma length_positions {A} (v : list A) : length (positions v) = length v.
Proof. unfold positions, vsize. rewrite length_seqZ. lia. Qed.

Lemma vget_Forall2 {A B} (R : A → B → Prop) (xs : list A) (ys : list B) k x :
  Forall2 R xs ys → vget xs k = Some x → ∃ y, vget ys k = Some y ∧ R x y.
Proof.
  intros HF [Hk Hx]%vget_Some.
  destruct (Forall2_lookup_l _ _ _ _ _ HF Hx) as (y & Hy & HR).
  exists y. split; [| done]. by apply vget_Some.
Qed.

(** C7.  Preserved nodes keep the attributes of the target: when [applyRule]
    returns, the node it emits for the common node [k] stands right after the
    context nodes, at position (number of context nodes) + [k], and is the
    target node the match assigns to the LHS node of [k], unchanged.  No RHS
    node is read for it. *)
Theorem applyRule_preserved_node rule target lhs_to_target result k :
  applyRule rule target lhs_to_target = Some result →
  0 ≤ k < vsize (nodes_ (common_ rule)) →
  ∃ lhs_node target_node node,
    vget (node_mapping_ (common_to_lhs_ rule)) k = Some lhs_node ∧
    vget (node_mapping_ lhs_to_target) lhs_node = Some target_node ∧
    vget (nodes_ target) target_node = Some node ∧
    vget (nodes_ result)
         (vsize (context_nodes target lhs_to_target) + k) = Some node.
Proof.
  intros (n1 & t1 & imgs & n2 & t2 & n3 & r3 & e1 & kept & e2 & e3 &
          H1 & Himgs & H2 & H3 & _ & _ & _ & _ & ->)%applyRule_Some Hk.
  apply emit_nodes_spec in H1 as (ns1 & Hns1 & -> & _).
  apply emit_nodes_spec in H2 as (ns2 & Hns2 & -> & _).
  apply emit_nodes_spec in H3 as (ns3 & _ & -> & _).
  unfold common_images in Himgs. apply mapM_Some in Himgs.
  assert (Hpk : vget (positions (nodes_ (common_ rule))) k = Some k).
  { apply vget_Some. split; [lia |]. by apply positions_lookup. }
  destruct (vget_Forall2 _ _ _ _ _ Himgs Hpk) as (x & Hx & Himg).
  destruct (vget_Forall2 _ _ _ _ _ Hns2 Hx) as (node & Hnode & Hsrc).
  unfold common_image in Himg.
  destruct (vget (node_mapping_ (common_to_lhs_ rule)) k) as [l |] eqn:Hl; [| done].
  simpl in Himg. exists l, x, node. repeat split; try done. simpl.
  apply Forall2_length in Hns1.
  apply vget_Some in Hnode as [_ Hnode]. apply vget_Some. split; [unfold vsize; lia |].
  rewrite <- (assoc_L (++)). simpl.
  rewrite lookup_app_r by (unfold vsize; lia).
  rewrite lookup_app_l.
  - rewrite <- Hnode. f_equal. unfold vsize. lia.
  - apply lookup_lt_Some in Hnode. unfold vsize. lia.
Qed.

(** ** Matches as inputs of the applier *)

Lemma findMatches_match_of pattern target ms φ :
  wf_graph pattern →
  findMatches pattern target = Returns ms →
  φ ∈ ms →
  match_of pattern target φ.
Proof.
  intros Hwf Hret Hφ.
  assert (Hn : 1 ≤ vsize (nodes_ pattern)).
  { unfold findMatches in Hret. by case_bool_decide. }
  rewrite (findMatches_returns pattern target Hwf Hn) in Hret.
  injection Hret as <-.
  destruct (returned_match_valid pattern target φ Hwf Hφ) as [Heq Hvalid].
  by split.
Qed.

Lemma match_of_nodes pattern target φ :
  match_of pattern target φ →
  vsize (node_mapping_ φ) = vsize (nodes_ pattern) ∧
  Forall (λ j, 0 ≤ j < vsize (nodes_ target)) (node_mapping_ φ).
Proof.
  intros [Hvalid _]. split.
  - destruct Hvalid as [Hlen _]. unfold vsize. by rewrite Hlen.
  - by apply (valid_assignment_in_range pattern).
Qed.

Lemma match_of_edge pattern target φ m ms :
  match_of pattern target φ →
  vget (edge_mapping_ φ) m = Some ms →
  ∃ pattern_edge,
    vget (edges_ pattern) m = Some pattern_edge ∧
    ms = collect_target_edges (edges_ target) 0
           (nm_at (node_mapping_ φ) (head_ pattern_edge))
           (nm_at (node_mapping_ φ) (tail_ pattern_edge)).
Proof.
  intros [_ Heq] [Hm Hms]%vget_Some.
  pose proof (f_equal edge_mapping_ Heq) as Hem. simpl in Hem.
  rewrite Hem, list_lookup_fmap in Hms.
  destruct (edges_ pattern !! Z.to_nat m) as [pe |] eqn:Hpe; [| done].
  injection Hms as <-. exists pe. split; [by apply vget_Some | done].
Qed.

Lemma match_of_edges_size pattern target φ :
  match_of pattern target φ →
  vsize (edge_mapping_ φ) = vsize (edges_ pattern).
Proof.
  intros [_ Heq]. pose proof (f_equal edge_mapping_ Heq) as Hem. simpl in Hem.
  rewrite Hem. unfold vsize. by rewrite length_map.
Qed.

(** The target edges listed for a pattern edge join the images of its ends. *)
Lemma match_of_edge_ends pattern target φ m ms k :
  match_of pattern target φ →
  vget (edge_mapping_ φ) m = Some ms →
  k ∈ ms →
  ∃ pattern_edge target_edge,
    vget (edges_ pattern) m = Some pattern_edge ∧
    vget (edges_ target) k = Some target_edge ∧
    head_ target_edge = nm_at (node_mapping_ φ) (head_ pattern_edge) ∧
    tail_ target_edge = nm_at (node_mapping_ φ) (tail_ pattern_edge).
Proof.
  intros Hmatch Hms Hk.
  destruct (match_of_edge pattern target φ m ms Hmatch Hms) as (pe & Hpe & ->).
  apply collect_target_edges_spec in Hk as (te & Hk & Hte & Hh & Ht).
  rewrite Z.sub_0_r in Hte. exists pe, te. repeat split; try done.
  by apply vget_Some.
Qed.

(** ** When the applier stays inside its vectors *)

Lemma elem_of_concat {A} (x : A) (ls : list (list A)) :
  x ∈ concat ls ↔ ∃ l, x ∈ l ∧ l ∈ ls.
Proof.
  rewrite list_elem_of_In, in_concat. split.
  - intros (l & Hl & Hx). exists l. by rewrite !list_elem_of_In.
  - intros (l & Hx & Hl). exists l. by rewrite <- !list_elem_of_In.
Qed.

Lemma translate_edge_Some table edge edge' :
  translate_edge table edge = Some edge' ↔
  ∃ head tail,
    vget table (head_ edge) = Some head ∧
    vget table (tail_ edge) = Some tail ∧
    edge' = mkEdge head tail (edge_attrs_ edge).
Proof.
  unfold translate_edge. split.
  - destruct (vget table (head_ edge)) as [h |]; [| done]. simpl.
    destruct (vget table (tail_ edge)) as [t |]; [| done]. simpl.
    intros [= <-]. by exists h, t.
  - intros (h & t & -> & -> & ->). done.
Qed.

Lemma emit_edges_defined src table ms : ∀ edges,
  Forall (λ m, ∃ src_edge, vget src m = Some src_edge ∧
                 edge_in_range (vsize table) src_edge) ms →
  is_Some (emit_edges src table ms edges).
Proof.
  induction ms as [| m ms IH]; intros edges Hms; simpl; [eauto |].
  apply Forall_cons in Hms as [(se & -> & Hh & Ht) Hms]. simpl.
  unfold translate_edge.
  destruct (vget_in_range table (head_ se) Hh) as [h ->].
  destruct (vget_in_range table (tail_ se) Ht) as [t ->]. simpl.
  by apply IH.
Qed.

(** Reading [w[k]] for every position [k] of [w] visits [w] itself. *)
Lemma mapM_positions_aux {A B} (g : A → option B) (w : list A) : ∀ pre,
  mapM (λ k, x ← vget (pre ++ w) k; g x) (seqZ (vsize pre) (vsize w)) = mapM g w.
Proof.
  induction w as [| x w IH]; intros pre; [done |].
  rewrite seqZ_cons by (unfold vsize; simpl; lia).
  replace (Z.pred (vsize (x :: w))) with (vsize w) by (unfold vsize; simpl; lia).
  replace (Z.succ (vsize pre)) with (vsize (pre ++ [x]))
    by (rewrite vsize_app; change (vsize [x]) with 1; lia).
  change (pre ++ x :: w) with (pre ++ [x] ++ w).
  rewrite (assoc_L (++)).
  change (mapM ?f (?k :: ?ks)) with (y ← f k; ys ← mapM f ks; Some (y :: ys)).
  rewrite IH.
  rewrite vget_app_l, vget_snoc.
  - done.
  - rewrite vsize_app. change (vsize [x]) with 1. lia.
Qed.

Lemma mapM_positions {A B C} (g : A → option B) (w : list A) (v : list C) :
  vsize w = vsize v →
  mapM (λ k, x ← vget w k; g x) (positions v) = mapM g w.
Proof.
  intros Hsize. unfold positions. rewrite <- Hsize.
  apply (mapM_positions_aux g w []).
Qed.

Lemma common_images_mapM rule φ :
  vsize (node_mapping_ (common_to_lhs_ rule)) = vsize (nodes_ (common_ rule)) →
  common_images rule φ
  = mapM (vget (node_mapping_ φ)) (node_mapping_ (common_to_lhs_ rule)).
Proof. intros Hsize. unfold common_images, common_image. by apply mapM_positions. Qed.

Lemma kept_edges_mapM rule φ :
  vsize (edge_mapping_ (common_to_lhs_ rule)) = vsize (edges_ (common_ rule)) →
  kept_edges rule φ
  = images ← mapM (λ lhs_edges, lhs_edge ← vget lhs_edges 0;
                                vget (edge_mapping_ φ) lhs_edge)
                  (edge_mapping_ (common_to_lhs_ rule));
    Some (concat images).
Proof.
  intros Hsize. unfold kept_edges, common_edge_images.
  by rewrite (mapM_positions _ _ _ Hsize).
Qed.

Section ApplierDefined.
Variables (rule : Rule) (target : Graph) (φ : GraphMapping).
Hypothesis rule_ok : rule_wf rule.
Hypothesis target_ok : wf_graph target.
Hypothesis match_ok : match_of (lhs_ rule) target φ.

Lemma common_images_defined :
  ∃ imgs, common_images rule φ = Some imgs ∧
    Forall2 (λ l x, vget (node_mapping_ φ) l = Some x)
            (node_mapping_ (common_to_lhs_ rule)) imgs ∧
    Forall (λ x, 0 ≤ x < vsize (nodes_ target)) imgs.
Proof.
  destruct rule_ok as ((Hsize & Hrange & _) & _).
  destruct (match_of_nodes _ _ _ match_ok) as [Hlen Hnm].
  rewrite common_images_mapM by done.
  destruct (mapM (vget (node_mapping_ φ)) (node_mapping_ (common_to_lhs_ rule)))
    as [imgs |] eqn:Himgs.
  - exists imgs. split; [done |]. apply mapM_Some in Himgs. split; [done |].
    apply Forall_forall. intros x Hx.
    apply list_elem_of_lookup in Hx as [p Hp].
    destruct (Forall2_lookup_r _ _ _ _ _ Himgs Hp) as (l & _ & Hl).
    apply vget_Some in Hl as [_ Hl].
    by apply (proj1 (Forall_lookup _ _) Hnm _ _ Hl).
  - exfalso. apply mapM_None in Himgs. apply Exists_exists in Himgs as (l & Hl & Hnone).
    apply (proj1 (Forall_forall _ _) Hrange) in Hl.
    destruct (vget_in_range (node_mapping_ φ) l) as [x Hx]; [lia |]. congruence.
Qed.

Lemma kept_edges_defined :
  ∃ kept, kept_edges rule φ = Some kept ∧
    Forall (λ k, ∃ target_edge, vget (edges_ target) k = Some target_edge) kept.
Proof.
  destruct rule_ok as (_ & _ & (Hsize & Hpairs) & _).
  pose proof (match_of_edges_size _ _ _ match_ok) as Hlen.
  rewrite kept_edges_mapM by done.
  destruct (mapM _ (edge_mapping_ (common_to_lhs_ rule))) as [images |] eqn:Himages.
  - exists (concat images). split; [done |]. apply mapM_Some in Himages.
    apply Forall_forall. intros k Hk.
    apply elem_of_concat in Hk as (ms & Hk & Hms).
    apply list_elem_of_lookup in Hms as [p Hp].
    destruct (Forall2_lookup_r _ _ _ _ _ Himages Hp) as (ls & _ & Hls).
    destruct (vget ls 0) as [l |]; [| done]. simpl in Hls.
    destruct (match_of_edge_ends _ _ _ _ _ _ match_ok Hls Hk) as (_ & te & _ & Hte & _).
    by exists te.
  - exfalso. apply mapM_None in Himages.
    apply Exists_exists in Himages as (ls & Hls & Hnone).
    apply (proj1 (Forall_forall _ _) Hpairs) in Hls as [Hone Hin].
    destruct ls as [| l [| ? ?]]; try done.
    apply Forall_cons in Hin as [Hl _].
    change (vget [l] 0) with (Some l) in Hnone. simpl in Hnone.
    destruct (vget_in_range (edge_mapping_ φ) l) as [x Hx]; [lia |]. congruence.
Qed.

End ApplierDefined.

(** The graph returned: the nodes emitted for the context and the common
    interface, then the fresh RHS nodes; the target edges kept, then the
    fresh RHS edges. *)
Lemma applyRule_described rule target φ result :
  applyRule rule target φ = Some result →
  ∃ imgs kept ns ns3 es es3 t2 r3,
    common_images rule φ = Some imgs ∧
    kept_edges rule φ = Some kept ∧
    emit_nodes (nodes_ target) (context_nodes target φ ++ imgs) []
               (replicate (length (nodes_ target)) index_none) = Some (ns, t2) ∧
    emit_nodes (nodes_ (rhs_ rule)) (fresh_nodes rule) ns
               (replicate (length (nodes_ (rhs_ rule))) index_none)
      = Some (ns ++ ns3, r3) ∧
    emit_edges (edges_ target) t2 (context_edges target φ ++ kept) [] = Some es ∧
    emit_edges (edges_ (rhs_ rule)) r3 (fresh_edges rule) es = Some (es ++ es3) ∧
    result = mkGraph (ns ++ ns3) (es ++ es3) [].
Proof.
  intros (n1 & t1 & imgs & n2 & t2 & n3 & r3 & e1 & kept & e2 & e3 &
          H1 & Himgs & H2 & H3 & H4 & Hkept & H5 & H6 & ->)%applyRule_Some.
  destruct (emit_nodes_spec _ _ _ _ _ _ H3) as (ns3 & _ & -> & _).
  destruct (proj1 (emit_edges_spec _ _ _ _ _) H6) as (es3 & _ & ->).
  exists imgs, kept, n2, ns3, e2, es3, t2, r3.
  repeat split; try done.
  - rewrite emit_nodes_app, H1. simpl. exact H2.
  - rewrite emit_edges_app, H4. simpl. exact H5.
Qed.

Section ApplierTotal.
Variables (rule : Rule) (target : Graph) (φ : GraphMapping).
Hypothesis rule_ok : rule_wf rule.
Hypothesis target_ok : wf_graph target.
Hypothesis match_ok : match_of (lhs_ rule) target φ.

Lemma context_nodes_in_range :
  Forall (λ x, 0 ≤ x < vsize (nodes_ target)) (context_nodes target φ).
Proof.
  apply Forall_forall. intros x [_ Hx]%list_elem_of_filter.
  by apply elem_of_positions in Hx.
Qed.

(** For a well-formed rule, a target with in-range edges and a match of the
    LHS, no loop of the applier leaves its vectors. *)
Lemma applyRule_defined : is_Some (applyRule rule target φ).
Proof.
  destruct (common_images_defined rule target φ rule_ok match_ok)
    as (imgs & Himgs & _ & Himgs_range).
  destruct (kept_edges_defined rule target φ rule_ok match_ok)
    as (kept & Hkept & Hkept_range).
  destruct (emit_nodes_defined (nodes_ target) (context_nodes target φ) []
              (replicate (length (nodes_ target)) index_none)) as [[n1 t1] H1].
  { eapply Forall_impl; [apply context_nodes_in_range |]. simpl.
    intros x Hx. unfold vsize in *. rewrite length_replicate. lia. }
  destruct (emit_nodes_spec _ _ _ _ _ _ H1) as (_ & _ & _ & Ht1 & _).
  destruct (emit_nodes_defined (nodes_ target) imgs n1 t1) as [[n2 t2] H2].
  { eapply Forall_impl; [exact Himgs_range |]. simpl.
    intros x Hx. rewrite Ht1. unfold vsize in *. rewrite length_replicate. lia. }
  destruct (emit_nodes_spec _ _ _ _ _ _ H2) as (_ & _ & _ & Ht2 & _).
  assert (Hsize2 : vsize t2 = vsize (nodes_ target)).
  { rewrite Ht2, Ht1. unfold vsize. by rewrite length_replicate. }
  destruct (emit_nodes_defined (nodes_ (rhs_ rule)) (fresh_nodes rule) n2
              (replicate (length (nodes_ (rhs_ rule))) index_none)) as [[n3 r3] H3].
  { apply Forall_forall. intros x [_ Hx%elem_of_positions]%list_elem_of_filter.
    unfold vsize in *. rewrite length_replicate. lia. }
  destruct (emit_nodes_spec _ _ _ _ _ _ H3) as (_ & _ & _ & Hr3 & _).
  assert (Hsize3 : vsize r3 = vsize (nodes_ (rhs_ rule))).
  { rewrite Hr3. unfold vsize. by rewrite length_replicate. }
  destruct (emit_edges_defined (edges_ target) t2 (context_edges target φ) [])
    as [e1 H4].
  { apply Forall_forall. intros m [_ Hm%elem_of_positions]%list_elem_of_filter.
    destruct (vget_in_range _ _ Hm) as [te Hte]. exists te. split; [done |].
    rewrite Hsize2. apply (proj1 (Forall_forall _ _) target_ok).
    apply vget_Some in Hte as [_ Hte]. by apply list_elem_of_lookup; eexists. }
  destruct (emit_edges_defined (edges_ target) t2 kept e1) as [e2 H5].
  { eapply Forall_impl; [exact Hkept_range |]. simpl.
    intros m [te Hte]. exists te. split; [done |].
    rewrite Hsize2. apply (proj1 (Forall_forall _ _) target_ok).
    apply vget_Some in Hte as [_ Hte]. by apply list_elem_of_lookup; eexists. }
  destruct (emit_edges_defined (edges_ (rhs_ rule)) r3 (fresh_edges rule) e2)
    as [e3 H6].
  { apply Forall_forall. intros m [_ Hm%elem_of_positions]%list_elem_of_filter.
    destruct (vget_in_range _ _ Hm) as [re Hre]. exists re. split; [done |].
    rewrite Hsize3.
    destruct rule_ok as (_ & _ & _ & _ & _ & Hrhs).
    apply (proj1 (Forall_forall _ _) Hrhs).
    apply vget_Some in Hre as [_ Hre]. by apply list_elem_of_lookup; eexists. }
  exists (mkGraph n3 e3 []). apply applyRule_Some.
  by exists n1, t1, imgs, n2, t2, n3, r3, e1, kept, e2, e3.
Qed.

End ApplierTotal.

Lemma applyRule_preserved_node_witness :
  ∃ lhs_node target_node node,
    vget (node_mapping_ (common_to_lhs_ swap_rule)) 0 = Some lhs_node ∧
    vget (node_mapping_ swap_match) lhs_node = Some target_node ∧
    vget (nodes_ swap_host) target_node = Some node ∧
    vget (nodes_ swap_result)
         (vsize (context_nodes swap_host swap_match) + 0) = Some node.
Proof.
  apply (applyRule_preserved_node swap_rule swap_host swap_match swap_result 0).
  - vm_compute. reflexivity.
  - vm_compute. done.
Defined.

(** ** Counting the nodes of the result *)

Lemma filter_not_in_set_length (S : gset Z) (l : list Z) :
  NoDup l → (∀ x, x ∈ S → x ∈ l) →
  (length (filter (λ i, i ∉ S) l) + size S = length l)%nat.
Proof.
  intros Hl Hsub.
  rewrite <- (size_list_to_set (C := gset Z) (filter _ l))
    by (by apply NoDup_filter).
  rewrite <- (size_list_to_set (C := gset Z) l) by done.
  rewrite <- size_union.
  - f_equal. apply set_eq. intros x.
    rewrite elem_of_union, !elem_of_list_to_set, list_elem_of_filter.
    split; [| destruct (decide (x ∈ S)); tauto].
    intros [[_ ?] | ?]; auto.
  - intros x. rewrite !elem_of_list_to_set, list_elem_of_filter. tauto.
Qed.

(** The image of a match is made of the image of the deleted nodes and of
    the image of the common nodes. *)
Lemma image_split rule φ :
  injects_nodes (common_to_lhs_ rule) (common_ rule) (lhs_ rule) →
  vsize (node_mapping_ φ) = vsize (nodes_ (lhs_ rule)) →
  (list_to_set (node_mapping_ φ) : gset Z)
  = deleted_image rule φ ∪ list_to_set (kept_image rule φ).
Proof.
  intros (_ & Hrange & _) Hlen. apply set_eq. intros x.
  unfold deleted_image, kept_image, deleted_nodes.
  rewrite elem_of_union, !elem_of_list_to_set, !list_elem_of_fmap. split.
  - intros Hx. apply list_elem_of_lookup in Hx as [l Hl].
    pose proof (lookup_lt_Some _ _ _ Hl) as Hlt.
    assert (Hat : nm_at (node_mapping_ φ) (Z.of_nat l) = x).
    { unfold nm_at. by rewrite vget_of_nat, Hl. }
    destruct (decide (Z.of_nat l ∈ node_mapping_ (common_to_lhs_ rule))) as [Hk | Hk].
    + right. by exists (Z.of_nat l).
    + left. exists (Z.of_nat l). split; [done |].
      apply list_elem_of_filter. split; [by rewrite elem_of_list_to_set |].
      apply elem_of_positions. unfold vsize in *. lia.
  - assert (Hin : ∀ l, 0 ≤ l < vsize (nodes_ (lhs_ rule)) →
                    nm_at (node_mapping_ φ) l ∈ node_mapping_ φ).
    { intros l Hl. rewrite <- Hlen in Hl.
      pose proof (nm_at_vget _ _ Hl) as [_ H]%vget_Some.
      by apply list_elem_of_lookup_2 in H. }
    intros [(l & -> & [_ Hl%elem_of_positions]%list_elem_of_filter) | (l & -> & Hl)].
    + by apply Hin.
    + apply Hin. by apply (proj1 (Forall_forall _ _) Hrange).
Qed.

(** The number of nodes of the result, for any match the matcher returns:
    the nodes of the target outside the image of the match, one node for
    each common node, and the nodes the rule creates. *)
Lemma node_count_of_result rule target φ :
  rule_wf rule →
  wf_graph target →
  match_of (lhs_ rule) target φ →
  ∃ result,
    applyRule rule target φ = Some result ∧
    vsize (nodes_ result) + Z.of_nat (size (list_to_set (node_mapping_ φ) : gset Z))
    = vsize (nodes_ target) + vsize (nodes_ (common_ rule)) + vsize (fresh_nodes rule).
Proof.
  intros Hrule Htarget Hmatch.
  destruct (applyRule_defined rule target φ Hrule Htarget Hmatch) as [result Hres].
  exists result. split; [done |].
  destruct (applyRule_described _ _ _ _ Hres)
    as (imgs & kept & ns & ns3 & es & es3 & t2 & r3 &
        Himgs & _ & Hn & Hn3 & _ & _ & ->).
  destruct (emit_nodes_spec _ _ _ _ _ _ Hn) as (ns' & Hns & Heq & _).
  simpl in Heq. subst ns'.
  destruct (emit_nodes_spec _ _ _ _ _ _ Hn3) as (ns3' & Hns3 & Heq & _).
  apply app_inv_head in Heq. subst ns3'.
  apply Forall2_length in Hns, Hns3.
  destruct (match_of_nodes _ _ _ Hmatch) as [Hlen Hrange].
  unfold common_images in Himgs. apply mapM_Some_1, Forall2_length in Himgs.
  rewrite length_positions in Himgs.
  pose proof (filter_not_in_set_length (list_to_set (node_mapping_ φ))
                (positions (nodes_ target)) (NoDup_positions _)) as Hcount.
  rewrite length_positions in Hcount.
  simpl. unfold vsize in *. rewrite length_app in *.
  unfold context_nodes, target_nodes_in_lhs in Hns.
  rewrite <- Hcount.
  - lia.
  - intros x Hx%elem_of_list_to_set. apply elem_of_positions.
    by apply (proj1 (Forall_forall _ _) Hrange).
Qed.

Lemma kept_image_length rule φ :
  injects_nodes (common_to_lhs_ rule) (common_ rule) (lhs_ rule) →
  length (kept_image rule φ) = length (nodes_ (common_ rule)).
Proof.
  intros (Hsize & _). unfold kept_image, vsize in *. rewrite length_map. lia.
Qed.

(** C4, as the code has it.  For a match that sends the common nodes to
    pairwise distinct target nodes, none of which is also the image of a
    deleted node, the result has as many nodes as the target, minus the
    number of distinct target nodes in the image of the deleted nodes (those
    of L outside K), plus the number of nodes of R outside K.  Deleted nodes
    may share their image. *)
Theorem applyRule_node_count rule target ms φ :
  rule_wf rule →
  wf_graph target →
  findMatches (lhs_ rule) target = Returns ms →
  φ ∈ ms →
  NoDup (kept_image rule φ) →
  Forall (λ x, x ∉ deleted_image rule φ) (kept_image rule φ) →
  ∃ result,
    applyRule rule target φ = Some result ∧
    vsize (nodes_ result)
    = vsize (nodes_ target) - Z.of_nat (size (deleted_image rule φ))
      + vsize (fresh_nodes rule).
Proof.
  intros Hrule Htarget Hms Hφ Hdistinct Hapart.
  assert (Hmatch : match_of (lhs_ rule) target φ).
  { apply (findMatches_match_of _ _ ms); [apply Hrule | done | done]. }
  destruct (node_count_of_result rule target φ Hrule Htarget Hmatch)
    as (result & Hres & Hcount).
  exists result. split; [done |].
  destruct (match_of_nodes _ _ _ Hmatch) as [Hlen _].
  destruct Hrule as (Hlhs & _).
  rewrite (image_split rule φ Hlhs Hlen) in Hcount.
  rewrite size_union in Hcount.
  - rewrite size_list_to_set in Hcount by done.
    rewrite (kept_image_length rule φ Hlhs) in Hcount. unfold vsize in *. lia.
  - intros x Hdel Hkept%elem_of_list_to_set.
    by apply (proj1 (Forall_forall _ _) Hapart x Hkept).
Qed.

Lemma applyRule_node_count_witness :
  ∃ result,
    applyRule merge_rule merge_target merge_match = Some result ∧
    vsize (nodes_ result)
    = vsize (nodes_ merge_target)
      - Z.of_nat (size (deleted_image merge_rule merge_match))
      + vsize (fresh_nodes merge_rule).
Proof.
  apply (applyRule_node_count merge_rule merge_target
           (map (complete (lhs_ merge_rule) merge_target)
                [[0; 0; 0]; [0; 0; 1]; [0; 0; 2]; [0; 1; 0]; [0; 1; 1]; [0; 1; 2];
                 [0; 2; 0]; [0; 2; 1]; [0; 2; 2]])
           merge_match).
  - vm_decide.
  - vm_decide.
  - vm_compute. reflexivity.
  - vm_compute. do 4 right. left.
  - vm_decide.
  - vm_decide.
Defined.

Lemma size_list_to_set_le (l : list Z) :
  (size (list_to_set l : gset Z) ≤ length l)%nat.
Proof.
  induction l as [| x l IH]; [by rewrite size_list_to_set by constructor |]. simpl.
  rewrite size_union_alt, size_singleton.
  assert (size (list_to_set l ∖ {[x]} : gset Z) ≤ size (list_to_set l : gset Z))%nat
    by (apply subseteq_size; intros y [Hy _]%elem_of_difference; exact Hy).
  lia.
Qed.

Lemma size_list_to_set_NoDup (l : list Z) :
  size (list_to_set l : gset Z) = length l → NoDup l.
Proof.
  induction l as [| x l IH]; simpl; [constructor |].
  intros Hsize. destruct (decide (x ∈ l)) as [Hin | Hout].
  - assert (Heq : ({[x]} ∪ list_to_set l : gset Z) = list_to_set l).
    { apply set_eq. intros y. rewrite elem_of_union, elem_of_singleton,
        elem_of_list_to_set. split; [intros [-> | ?]; done | by right]. }
    rewrite Heq in Hsize.
    pose proof (size_list_to_set_le l). lia.
  - rewrite size_union in Hsize.
    + rewrite size_singleton in Hsize. constructor; [done |]. apply IH. lia.
    + intros y ->%elem_of_singleton Hy%elem_of_list_to_set. done.
Qed.

(** The two conditions on the match are needed: whenever the count of the
    specification holds, the common nodes are matched to pairwise distinct
    target nodes and none of these is the image of a deleted node. *)
Lemma node_count_conditions_needed rule target φ result :
  rule_wf rule →
  wf_graph target →
  match_of (lhs_ rule) target φ →
  applyRule rule target φ = Some result →
  vsize (nodes_ result)
  = vsize (nodes_ target) - Z.of_nat (size (deleted_image rule φ))
    + vsize (fresh_nodes rule) →
  NoDup (kept_image rule φ) ∧
  Forall (λ x, x ∉ deleted_image rule φ) (kept_image rule φ).
Proof.
  intros Hrule Htarget Hmatch Hres Hformula.
  destruct (node_count_of_result rule target φ Hrule Htarget Hmatch)
    as (result' & Hres' & Hcount).
  assert (result' = result) as -> by congruence.
  destruct (match_of_nodes _ _ _ Hmatch) as [Hlen _].
  destruct Hrule as (Hlhs & _).
  rewrite (image_split rule φ Hlhs Hlen) in Hcount.
  pose proof (kept_image_length rule φ Hlhs) as Hk.
  set (D := deleted_image rule φ) in *.
  set (K := (list_to_set (kept_image rule φ) : gset Z)) in *.
  pose proof (size_list_to_set_le (kept_image rule φ)) as HleK.
  fold K in HleK.
  assert (Hunion : size (D ∪ K) = (size D + size (K ∖ D))%nat).
  { rewrite <- size_union by (by intros y HyD [_ HyN]%elem_of_difference).
    f_equal. apply set_eq. intros x.
    rewrite !elem_of_union, elem_of_difference. destruct (decide (x ∈ D)); tauto. }
  assert (Hdiff : (size (K ∖ D) ≤ size K)%nat).
  { apply subseteq_size. by intros y [Hy _]%elem_of_difference. }
  assert (HsizeK : size K = length (kept_image rule φ)).
  { unfold vsize in *. lia. }
  assert (HdiffK : size (K ∖ D) = size K).
  { unfold vsize in *. lia. }
  split.
  - by apply size_list_to_set_NoDup.
  - apply Forall_forall. intros x Hx HxD.
    assert (Hsub : K ∖ D ⊂ K).
    { split; [by intros y [Hy _]%elem_of_difference |]. intros Hall.
      assert (Hgone : x ∈ K ∖ D) by (apply Hall; by apply elem_of_list_to_set).
      by apply elem_of_difference in Hgone as [_ Hgone]. }
    apply subset_size in Hsub. lia.
Qed.

(** C4 fails as stated: the matcher returns the match sending both nodes of
    [twin_rule] to the one target node; both are common, nothing is deleted
    and nothing is created, yet the result has two nodes. *)
Lemma applyRule_node_count_counterexample :
  createRuleFromGraph (λ table, table) twin_rule_graph = Value twin_rule ∧
  findMatches (lhs_ twin_rule) single_target = Returns [twin_match] ∧
  ∃ result,
    applyRule twin_rule single_target twin_match = Some result ∧
    vsize (nodes_ result) = 2 ∧
    vsize (nodes_ single_target)
      - Z.of_nat (size (deleted_image twin_rule twin_match))
      + vsize (fresh_nodes twin_rule) = 1.
Proof.
  split; [vm_compute; reflexivity |]. split; [vm_compute; reflexivity |].
  eexists. split; [vm_compute; reflexivity |]. split; vm_compute; reflexivity.
Qed.

(** ** Ends of the edges of the result *)

Lemma last_occurrence (x : Z) xs :
  x ∈ xs → ∃ p : nat, xs !! p = Some x ∧ x ∉ drop (S p) xs.
Proof.
  induction xs as [| a xs IH]; [by intros ?%elem_of_nil |].
  intros Hx. destruct (decide (x ∈ xs)) as [Hin | Hout].
  - destruct (IH Hin) as (p & Hp & Hlast). by exists (S p).
  - apply elem_of_cons in Hx as [-> | ?]; [| done]. by exists 0%nat.
Qed.

(** A node emitted by [emit_nodes] is recorded at a position of the node
    list it returns. *)
Lemma emit_nodes_recorded src xs nodes table nodes' table' x :
  emit_nodes src xs nodes table = Some (nodes', table') →
  x ∈ xs →
  ∃ v, vget table' x = Some v ∧ vsize nodes ≤ v < vsize nodes'.
Proof.
  intros (ns & Hns & -> & _ & _ & _ & Hpos)%emit_nodes_spec Hx.
  destruct (last_occurrence x xs Hx) as (p & Hp & Hlast).
  exists (vsize nodes + Z.of_nat p). split; [by apply Hpos |].
  apply lookup_lt_Some in Hp. apply Forall2_length in Hns.
  rewrite vsize_app. unfold vsize. lia.
Qed.

Lemma translate_edge_in_range table n edge edge' :
  translate_edge table edge = Some edge' →
  (∀ v, vget table (head_ edge) = Some v → 0 ≤ v < n) →
  (∀ v, vget table (tail_ edge) = Some v → 0 ≤ v < n) →
  edge_in_range n edge'.
Proof.
  intros (h & t & Hh & Ht & ->)%translate_edge_Some Hhead Htail.
  split; simpl; auto.
Qed.

Section ApplierEdges.
Variables (rule : Rule) (target : Graph) (φ : GraphMapping).
Hypothesis rule_ok : rule_wf rule.
Hypothesis target_ok : wf_graph target.
Hypothesis match_ok : match_of (lhs_ rule) target φ.

(** Under the gluing condition, and when the fresh RHS edges join fresh RHS
    nodes, every edge of the result joins nodes of the result. *)
Lemma applyRule_wf :
  no_dangling_edge rule target φ →
  fresh_edges_on_fresh_nodes rule →
  ∃ result, applyRule rule target φ = Some result ∧ wf_graph result.
Proof.
  intros Hglue Hfresh.
  destruct (applyRule_defined rule target φ rule_ok target_ok match_ok)
    as [result Hres].
  exists result. split; [done |].
  destruct (applyRule_described _ _ _ _ Hres)
    as (imgs & kept & ns & ns3 & es & es3 & t2 & r3 &
        Himgs & Hkept & Hn & Hn3 & He & He3 & ->).
  unfold no_dangling_edge in Hglue. rewrite Hkept in Hglue. simpl in Hglue.
  unfold wf_graph. simpl. apply Forall_app. split.
  - (* target edges *)
    apply emit_edges_spec in He as (es' & Hes & Heq). simpl in Heq. subst es'.
    apply Forall_forall. intros e Hin_e.
    apply list_elem_of_lookup in Hin_e as [p Hp].
    destruct (Forall2_lookup_r _ _ _ _ _ Hes Hp) as (m & Hm & te & Hte & Htr).
    assert (Hm' : m ∈ context_edges target φ ++ kept).
    { apply list_elem_of_lookup. by exists p. }
    pose proof (proj1 (Forall_forall _ _) Hglue m Hm') as Hsurv.
    cbv beta in Hsurv. rewrite Hte in Hsurv.
    assert (Hte_in : edge_in_range (vsize (nodes_ target)) te).
    { apply (proj1 (Forall_forall _ _) target_ok).
      apply vget_Some in Hte as [_ Hte]. by apply list_elem_of_lookup; eexists. }
    assert (Hrec : ∀ x v, 0 ≤ x < vsize (nodes_ target) → survives rule φ x →
                     vget t2 x = Some v → 0 ≤ v < vsize (ns ++ ns3)).
    { intros x v Hx Hs Hv.
      assert (Hin : x ∈ context_nodes target φ ++ imgs).
      { unfold survives in Hs. rewrite Himgs in Hs. simpl in Hs.
        apply elem_of_app. destruct Hs as [Hs | Hs]; [left | by right].
        apply list_elem_of_filter. split.
        - unfold target_nodes_in_lhs. by rewrite elem_of_list_to_set.
        - by apply elem_of_positions. }
      destruct (emit_nodes_recorded _ _ _ _ _ _ x Hn Hin) as (v' & Hv' & Hrange).
      assert (v' = v) as -> by congruence.
      rewrite vsize_app. unfold vsize in *. simpl in Hrange. lia. }
    destruct Hte_in as [Hh Ht]. destruct Hsurv as [Hsh Hst].
    apply (translate_edge_in_range t2 _ te); [done | |]; intros v Hv.
    + by apply (Hrec (head_ te)).
    + by apply (Hrec (tail_ te)).
  - (* RHS edges *)
    apply emit_edges_spec in He3 as (es' & Hes & Heq).
    apply app_inv_head in Heq. subst es'.
    apply Forall_forall. intros e Hin_e.
    apply list_elem_of_lookup in Hin_e as [p Hp].
    destruct (Forall2_lookup_r _ _ _ _ _ Hes Hp) as (m & Hm & re & Hre & Htr).
    assert (Hm' : m ∈ fresh_edges rule).
    { apply list_elem_of_lookup. by exists p. }
    pose proof (proj1 (Forall_forall _ _) Hfresh m Hm') as Hends.
    cbv beta in Hends. rewrite Hre in Hends.
    assert (Hre_in : edge_in_range (vsize (nodes_ (rhs_ rule))) re).
    { destruct rule_ok as (_ & _ & _ & _ & _ & Hrhs).
      apply (proj1 (Forall_forall _ _) Hrhs).
      apply vget_Some in Hre as [_ Hre]. by apply list_elem_of_lookup; eexists. }
    assert (Hrec : ∀ x v, 0 ≤ x < vsize (nodes_ (rhs_ rule)) →
                     x ∉ node_mapping_ (common_to_rhs_ rule) →
                     vget r3 x = Some v → 0 ≤ v < vsize (ns ++ ns3)).
    { intros x v Hx Hs Hv.
      assert (Hin : x ∈ fresh_nodes rule).
      { apply list_elem_of_filter. split.
        - unfold rhs_nodes_in_common. by rewrite elem_of_list_to_set.
        - by apply elem_of_positions. }
      destruct (emit_nodes_recorded _ _ _ _ _ _ x Hn3 Hin) as (v' & Hv' & Hrange).
      assert (v' = v) as -> by congruence.
      unfold vsize in *. lia. }
    destruct Hre_in as [Hh Ht]. destruct Hends as [Heh Het].
    apply (translate_edge_in_range r3 _ re); [done | |]; intros v Hv.
    + by apply (Hrec (head_ re)).
    + by apply (Hrec (tail_ re)).
Qed.

End ApplierEdges.

(** ** Rules that delete and create nothing *)

Lemma Forall2_perm_l {A B} (R : A → B → Prop) (xs xs' : list A) (ys : list B) :
  xs ≡ₚ xs' → Forall2 R xs ys → ∃ ys', ys ≡ₚ ys' ∧ Forall2 R xs' ys'.
Proof.
  intros Hperm. revert ys.
  induction Hperm as [| x xs xs' _ IH | x1 x2 xs | xs1 xs2 xs3 _ IH1 _ IH2];
    intros ys Hys.
  - apply Forall2_nil_inv_l in Hys as ->. by exists [].
  - apply Forall2_cons_inv_l in Hys as (y & ys0 & Hy & Hys & ->).
    destruct (IH ys0 Hys) as (ys' & Hp & HF). exists (y :: ys').
    split; [by constructor | by constructor].
  - apply Forall2_cons_inv_l in Hys as (y1 & ys0 & Hy1 & Hys & ->).
    apply Forall2_cons_inv_l in Hys as (y2 & ys1 & Hy2 & Hys & ->).
    exists (y2 :: y1 :: ys1). split; [constructor |].
    by repeat constructor.
  - destruct (IH1 ys Hys) as (ys1 & Hp1 & HF1).
    destruct (IH2 ys1 HF1) as (ys2 & Hp2 & HF2).
    exists ys2. split; [by etrans | done].
Qed.

Lemma Forall2_positions {A} (w ys : list A) :
  Forall2 (λ k x, vget w k = Some x) (positions w) ys → ys = w.
Proof.
  intros HF. apply list_eq. intros i.
  destruct (decide (i < length w)%nat) as [Hi | Hi].
  - assert (Hp : positions w !! i = Some (Z.of_nat i)).
    { rewrite <- (Nat2Z.id i) at 1. apply positions_lookup. unfold vsize. lia. }
    destruct (Forall2_lookup_l _ _ _ _ _ HF Hp) as (y & Hy & Hw).
    rewrite vget_of_nat in Hw. congruence.
  - apply Forall2_length in HF. rewrite length_positions in HF.
    rewrite !lookup_ge_None_2 by lia. done.
Qed.

Lemma concat_perm {A} (ls ls' : list (list A)) :
  ls ≡ₚ ls' → concat ls ≡ₚ concat ls'.
Proof.
  induction 1 as [| l ls ls' _ IH | l1 l2 ls | ls1 ls2 ls3 _ IH1 _ IH2]; simpl.
  - done.
  - by rewrite IH.
  - rewrite !(assoc_L (++)). f_equiv. apply Permutation_app_comm.
  - by etrans.
Qed.

Lemma filter_split_perm (xs l : list Z) :
  NoDup xs → NoDup l → (∀ x, x ∈ xs → x ∈ l) →
  filter (λ i, i ∉ (list_to_set xs : gset Z)) l ++ xs ≡ₚ l.
Proof.
  intros Hxs Hl Hsub. apply NoDup_Permutation; [| done |].
  - apply NoDup_app. split; [by apply NoDup_filter |]. split; [| done].
    intros x [Hx _]%list_elem_of_filter. by rewrite elem_of_list_to_set in Hx.
  - intros x. rewrite elem_of_app, list_elem_of_filter, elem_of_list_to_set.
    split; [intros [[_ ?] | ?]; auto |].
    destruct (decide (x ∈ xs)); tauto.
Qed.

Lemma filter_covered (xs l : list Z) :
  (∀ x, x ∈ l → x ∈ xs) →
  filter (λ i, i ∉ (list_to_set xs : gset Z)) l = [].
Proof.
  intros Hsub. induction l as [| a l IH]; [done |].
  rewrite filter_cons. rewrite decide_False.
  - apply IH. intros x Hx. apply Hsub. by apply elem_of_cons; right.
  - intros Hnot. apply Hnot. rewrite elem_of_list_to_set. apply Hsub.
    apply list_elem_of_here.
Qed.

(** A table that records the position of every member of a duplicate-free
    arrangement [xs] of the positions of [src] is one-to-one onto the
    positions of the nodes emitted. *)
Lemma inverse_table {A B} (src : list A) (xs σ : list Z) (ns : list B) :
  xs ≡ₚ positions src →
  vsize σ = vsize src →
  length ns = length xs →
  (∀ (p : nat) x, xs !! p = Some x → vget σ x = Some (Z.of_nat p)) →
  σ ≡ₚ positions ns.
Proof.
  intros Hperm Hsize Hlen Hpos.
  assert (Hlen_xs : length xs = length src).
  { by rewrite Hperm, length_positions. }
  assert (Hfind : ∀ x, 0 ≤ x < vsize src → ∃ p : nat, xs !! p = Some x).
  { intros x Hx. apply list_elem_of_lookup. rewrite Hperm.
    by apply elem_of_positions. }
  apply NoDup_Permutation; [| apply NoDup_positions |].
  - apply NoDup_alt. intros i j v Hi Hj.
    destruct (Hfind (Z.of_nat i)) as [p Hp].
    { apply lookup_lt_Some in Hi. unfold vsize in *. lia. }
    destruct (Hfind (Z.of_nat j)) as [q Hq].
    { apply lookup_lt_Some in Hj. unfold vsize in *. lia. }
    pose proof (Hpos p _ Hp) as Hp'. rewrite vget_of_nat, Hi in Hp'.
    pose proof (Hpos q _ Hq) as Hq'. rewrite vget_of_nat, Hj in Hq'.
    assert (p = q) as -> by (simplify_eq; lia).
    rewrite Hp in Hq. injection Hq as Hq. lia.
  - intros v. rewrite elem_of_positions. split.
    + intros [i Hi]%list_elem_of_lookup.
      destruct (Hfind (Z.of_nat i)) as [p Hp].
      { apply lookup_lt_Some in Hi. unfold vsize in *. lia. }
      pose proof (Hpos p _ Hp) as Hp'. rewrite vget_of_nat, Hi in Hp'.
      injection Hp' as ->. apply lookup_lt_Some in Hp. unfold vsize. lia.
    + intros Hv.
      destruct (lookup_lt_is_Some_2 xs (Z.to_nat v)) as [x Hx].
      { unfold vsize in Hv. lia. }
      pose proof (Hpos _ _ Hx) as Hσ. rewrite Z2Nat.id in Hσ by lia.
      apply vget_Some in Hσ as [_ Hσ]. apply list_elem_of_lookup. by eexists.
Qed.

Section ApplierIdentity.
Variables (rule : Rule) (target : Graph) (φ : GraphMapping).
Hypothesis rule_ok : rule_wf rule.
Hypothesis rule_identity : identity_rule rule.
Hypothesis target_ok : wf_graph target.
Hypothesis match_ok : match_of (lhs_ rule) target φ.
Hypothesis nodes_injective : NoDup (node_mapping_ φ).
Hypothesis edges_injective : NoDup (concat (edge_mapping_ φ)).

Lemma identity_fresh_nodes : fresh_nodes rule = [].
Proof.
  destruct rule_identity as (_ & Hr & _).
  apply filter_covered. intros x Hx. by rewrite Hr.
Qed.

Lemma identity_fresh_edges : fresh_edges rule = [].
Proof.
  destruct rule_identity as (_ & _ & _ & Hr).
  apply filter_covered. intros x Hx. by rewrite Hr.
Qed.

(** The common nodes stand for all the target nodes of the match. *)
Lemma identity_images imgs :
  common_images rule φ = Some imgs → imgs ≡ₚ node_mapping_ φ.
Proof.
  intros Himgs.
  destruct (common_images_defined rule target φ rule_ok match_ok)
    as (imgs' & Himgs' & Hshape & _).
  rewrite Himgs in Himgs'. injection Himgs' as <-.
  destruct rule_identity as (Hl & _).
  destruct (match_of_nodes _ _ _ match_ok) as [Hlen _].
  assert (Hl' : node_mapping_ (common_to_lhs_ rule)
                ≡ₚ positions (node_mapping_ φ)).
  { rewrite Hl. unfold positions. by rewrite Hlen. }
  destruct (Forall2_perm_l _ _ _ _ Hl' Hshape) as (imgs' & Hperm & Hall).
  by rewrite (Forall2_positions _ _ Hall) in Hperm.
Qed.

(** The common edges stand for all the target edges of the match. *)
Lemma identity_kept kept :
  kept_edges rule φ = Some kept → kept ≡ₚ concat (edge_mapping_ φ).
Proof.
  destruct rule_ok as (_ & _ & (Hsize & Hpairs) & _).
  destruct rule_identity as (_ & _ & Hl & _).
  rewrite kept_edges_mapM by done.
  destruct (mapM _ (edge_mapping_ (common_to_lhs_ rule))) as [images |] eqn:Himages;
    [| done].
  simpl. intros [= <-]. apply mapM_Some in Himages.
  assert (Hflat : Forall2 (λ l tes, vget (edge_mapping_ φ) l = Some tes)
                    (concat (edge_mapping_ (common_to_lhs_ rule))) images).
  { clear Hl Hsize. revert Hpairs.
    induction Himages as [| ls tes lss images Hls _ IH]; intros Hpairs; [constructor |].
    apply Forall_cons in Hpairs as [[Hone _] Hpairs].
    destruct ls as [| l [| ? ?]]; try done. simpl.
    constructor; [done | by apply IH]. }
  pose proof (match_of_edges_size _ _ _ match_ok) as Hlen.
  assert (Hl' : concat (edge_mapping_ (common_to_lhs_ rule))
                ≡ₚ positions (edge_mapping_ φ)).
  { rewrite Hl. unfold positions. by rewrite Hlen. }
  destruct (Forall2_perm_l _ _ _ _ Hl' Hflat) as (images' & Hperm & Hall).
  rewrite (Forall2_positions _ _ Hall) in Hperm.
  by apply concat_perm.
Qed.

Lemma identity_node_order imgs :
  common_images rule φ = Some imgs →
  context_nodes target φ ++ imgs ≡ₚ positions (nodes_ target).
Proof.
  intros Himgs. rewrite (identity_images imgs Himgs).
  apply filter_split_perm; [done | apply NoDup_positions |].
  intros x Hx. apply elem_of_positions.
  destruct (match_of_nodes _ _ _ match_ok) as [_ Hrange].
  by apply (proj1 (Forall_forall _ _) Hrange).
Qed.

Lemma identity_edge_order kept :
  kept_edges rule φ = Some kept →
  context_edges target φ ++ kept ≡ₚ positions (edges_ target).
Proof.
  intros Hkept. rewrite (identity_kept kept Hkept).
  apply filter_split_perm; [done | apply NoDup_positions |].
  intros k (tes & Hk & Htes)%elem_of_concat. apply elem_of_positions.
  apply list_elem_of_lookup in Htes as [m Hm].
  assert (Hm' : vget (edge_mapping_ φ) (Z.of_nat m) = Some tes)
    by (by rewrite vget_of_nat).
  destruct (match_of_edge_ends _ _ _ _ _ _ match_ok Hm' Hk) as (_ & te & _ & Hte & _).
  by apply vget_lt in Hte.
Qed.

End ApplierIdentity.

(** C3, as the code has it.  For a rule with L = R = K and a match that
    sends distinct LHS nodes to distinct target nodes and lists no target
    edge under two LHS edges, the result is isomorphic to the target: the
    table from target to result positions is one-to-one and onto, every
    target node is found unchanged at its image, and the edges of the result
    are the edges of the target with their ends renamed, in another order. *)
Theorem applyRule_identity rule target ms φ :
  rule_wf rule →
  identity_rule rule →
  wf_graph target →
  findMatches (lhs_ rule) target = Returns ms →
  φ ∈ ms →
  NoDup (node_mapping_ φ) →
  NoDup (concat (edge_mapping_ φ)) →
  ∃ result, applyRule rule target φ = Some result ∧ isomorphic target result.
Proof.
  intros Hrule Hid Htarget Hms Hφ Hnodes Hedges.
  assert (Hmatch : match_of (lhs_ rule) target φ).
  { apply (findMatches_match_of _ _ ms); [apply Hrule | done | done]. }
  destruct (applyRule_defined rule target φ Hrule Htarget Hmatch) as [result Hres].
  exists result. split; [done |].
  destruct (applyRule_described _ _ _ _ Hres)
    as (imgs & kept & ns & ns3 & es & es3 & t2 & r3 &
        Himgs & Hkept & Hn & Hn3 & He & He3 & ->).
  (* nothing is created *)
  rewrite (identity_fresh_nodes rule Hid) in Hn3. simpl in Hn3.
  injection Hn3 as Hns3 _. rewrite <- (app_nil_r ns) in Hns3 at 1.
  apply app_inv_head in Hns3 as <-.
  rewrite (identity_fresh_edges rule Hid) in He3. simpl in He3.
  injection He3 as Hes3. rewrite <- (app_nil_r es) in Hes3 at 1.
  apply app_inv_head in Hes3 as <-.
  rewrite !app_nil_r.
  (* the nodes: an arrangement of all target positions *)
  pose proof (identity_node_order rule target φ Hrule Hid Hmatch Hnodes imgs Himgs)
    as Hxs.
  assert (Hnd : NoDup (context_nodes target φ ++ imgs)).
  { rewrite Hxs. apply NoDup_positions. }
  destruct (emit_nodes_spec _ _ _ _ _ _ Hn)
    as (ns' & Hns & Heq & Hsize & _ & _ & Hpos).
  simpl in Heq. subst ns'.
  assert (Hsize' : vsize t2 = vsize (nodes_ target)).
  { rewrite Hsize. unfold vsize. by rewrite length_replicate. }
  assert (Hpos' : ∀ (p : nat) x, (context_nodes target φ ++ imgs) !! p = Some x →
                    vget t2 x = Some (Z.of_nat p)).
  { intros p x Hp. rewrite (Hpos p x Hp); [done |].
    intros Hin. apply list_elem_of_lookup in Hin as [q Hq].
    rewrite lookup_drop in Hq.
    pose proof (NoDup_lookup _ _ _ _ Hnd Hp Hq). lia. }
  (* the edges: an arrangement of all target edge positions *)
  pose proof (identity_edge_order rule target φ Hrule Hid Hmatch Hedges kept Hkept)
    as Hmsp.
  apply emit_edges_spec in He as (es' & Hes & Heq). simpl in Heq. subst es'.
  destruct (Forall2_perm_l _ _ _ _ Hmsp Hes) as (renamed & Hperm & Hall).
  exists t2. split; [done |]. split; [| split].
  - apply (inverse_table (nodes_ target) (context_nodes target φ ++ imgs));
      [done | done | | done].
    symmetry. by apply Forall2_length in Hns.
  - intros i node Hi.
    assert (Hin : i ∈ context_nodes target φ ++ imgs).
    { rewrite Hxs. apply elem_of_positions. by apply vget_lt in Hi. }
    apply list_elem_of_lookup in Hin as [p Hp].
    exists (Z.of_nat p). split; [by apply Hpos' |].
    destruct (Forall2_lookup_l _ _ _ _ _ Hns Hp) as (node' & Hnode' & Hsrc).
    rewrite vget_of_nat. simpl. congruence.
  - exists renamed. split; [| done].
    assert (HmapM : mapM (λ k, edge ← vget (edges_ target) k; translate_edge t2 edge)
                         (positions (edges_ target)) = Some renamed).
    { apply mapM_Some. eapply Forall2_impl; [exact Hall |]. simpl.
      intros m e (se & -> & Htr). done. }
    rewrite (mapM_positions _ _ _ eq_refl) in HmapM.
    by apply mapM_Some in HmapM.
Qed.

Lemma applyRule_identity_witness :
  ∃ result, applyRule keep_rule keep_host keep_match = Some result ∧
            isomorphic keep_host result.
Proof.
  apply (applyRule_identity keep_rule keep_host [keep_match] keep_match).
  - vm_decide.
  - vm_decide.
  - vm_decide.
  - vm_compute. reflexivity.
  - apply list_elem_of_here.
  - vm_decide.
  - vm_decide.
Defined.

(** C3 fails as stated: [twin_rule] has L = R = K, the matcher returns the
    match sending both of its nodes to the one node of the target, and the
    result has two nodes; no renaming of one position onto two exists. *)
Lemma applyRule_identity_counterexample :
  createRuleFromGraph (λ table, table) twin_rule_graph = Value twin_rule ∧
  identity_rule twin_rule ∧
  findMatches (lhs_ twin_rule) single_target = Returns [twin_match] ∧
  ∃ result,
    applyRule twin_rule single_target twin_match = Some result ∧
    ¬ isomorphic single_target result.
Proof.
  split; [vm_compute; reflexivity |]. split; [vm_decide |].
  split; [vm_compute; reflexivity |].
  eexists. split; [vm_compute; reflexivity |].
  intros (σ & Hsize & Hperm & _).
  apply Permutation_length in Hperm. rewrite length_positions in Hperm.
  unfold vsize in Hsize. simpl in *. lia.
Qed.

(** ** The loops of the rule compiler *)

Lemma for_each_thrown_snoc {S I} (body : S → I → thrown S) ixs i s :
  for_each_thrown body (ixs ++ [i]) s
  = s' ← for_each_thrown body ixs s; body s' i.
Proof.
  revert s. induction ixs as [| j ixs IH]; intros s; simpl.
  - by destruct (body s i).
  - destruct (body s j) as [s1 | |]; simpl; [apply IH | done | done].
Qed.

(** An invariant of the iterations done holds at the end of a loop that
    ends normally. *)
Lemma for_each_thrown_invariant {S I} (body : S → I → thrown S)
    (inv : list I → S → Prop) ixs s s' :
  inv [] s →
  (∀ done i s0 s1, inv done s0 → body s0 i = Value s1 → inv (done ++ [i]) s1) →
  for_each_thrown body ixs s = Value s' →
  inv ixs s'.
Proof.
  intros Hinit Hstep. revert s'.
  induction ixs as [| i ixs IH] using rev_ind; intros s'; simpl.
  - by intros [= <-].
  - rewrite for_each_thrown_snoc.
    destruct (for_each_thrown body ixs s) as [s1 | |] eqn:Hloop; simpl; [| done | done].
    intros Hbody. apply (Hstep ixs i s1); [by apply IH | done].
Qed.

Section CompilerNodes.
Variables (graph : Graph) (lhs_subgraph rhs_subgraph : Subgraph).

(** One iteration of the loop over the nodes, by membership of the node. *)
Lemma split_node_cases s i :
  0 ≤ i < vsize (nodes_ graph) →
  vsize (graph_to_lhs_node s) = vsize (nodes_ graph) →
  vsize (graph_to_rhs_node s) = vsize (nodes_ graph) →
  vsize (graph_to_common_node s) = vsize (nodes_ graph) →
  ∃ node, vget (nodes_ graph) i = Some node ∧
    split_node graph lhs_subgraph rhs_subgraph s i =
    match bool_decide (i ∈ subgraph_nodes_ lhs_subgraph),
          bool_decide (i ∈ subgraph_nodes_ rhs_subgraph) with
    | true, true =>
        Value (mkNodeSplit
                 (lhs_nodes s ++ [node]) (rhs_nodes s ++ [node])
                 (common_nodes s ++ [node])
                 (common_to_lhs_nodes s ++ [vsize (lhs_nodes s)])
                 (common_to_rhs_nodes s ++ [vsize (rhs_nodes s)])
                 (<[Z.to_nat i := vsize (lhs_nodes s)]> (graph_to_lhs_node s))
                 (<[Z.to_nat i := vsize (rhs_nodes s)]> (graph_to_rhs_node s))
                 (<[Z.to_nat i := vsize (common_nodes s)]> (graph_to_common_node s)))
    | true, false =>
        Value (mkNodeSplit
                 (lhs_nodes s ++ [node]) (rhs_nodes s) (common_nodes s)
                 (common_to_lhs_nodes s) (common_to_rhs_nodes s)
                 (<[Z.to_nat i := vsize (lhs_nodes s)]> (graph_to_lhs_node s))
                 (graph_to_rhs_node s) (graph_to_common_node s))
    | false, true =>
        Value (mkNodeSplit
                 (lhs_nodes s) (rhs_nodes s ++ [node]) (common_nodes s)
                 (common_to_lhs_nodes s) (common_to_rhs_nodes s)
                 (graph_to_lhs_node s)
                 (<[Z.to_nat i := vsize (rhs_nodes s)]> (graph_to_rhs_node s))
                 (graph_to_common_node s))
    | false, false => RuntimeError (node_neither_error node)
    end.
Proof.
  intros Hi Hl Hr Hc.
  destruct (vget_in_range (nodes_ graph) i Hi) as [node Hnode].
  exists node. split; [done |].
  unfold split_node. rewrite Hnode. simpl.
  assert (Hset : ∀ (table : list Z) v, vsize table = vsize (nodes_ graph) →
                   vset table i v = Some (<[Z.to_nat i := v]> table)).
  { intros table v Htable. unfold vset. by rewrite decide_True by lia. }
  destruct (bool_decide (i ∈ subgraph_nodes_ lhs_subgraph));
    destruct (bool_decide (i ∈ subgraph_nodes_ rhs_subgraph)); simpl;
    unfold put_lhs_node, put_rhs_node, put_common_node; simpl;
    rewrite ?Hset by done; simpl; rewrite ?Hset by done; simpl;
    rewrite ?Hset by done; simpl; rewrite ?vsize_snoc; done.
Qed.

Lemma Forall_bound_grow (l : list Z) n n' :
  Forall (λ v, 0 ≤ v < n) l → n ≤ n' → Forall (λ v, 0 ≤ v < n') l.
Proof. intros Hl Hn. eapply Forall_impl; [exact Hl |]. simpl. intros v. lia. Qed.

Lemma sorted_snoc (l : list Z) x :
  StronglySorted Z.lt l → Forall (λ v, 0 ≤ v < x) l →
  StronglySorted Z.lt (l ++ [x]).
Proof.
  intros Hl Hx. apply StronglySorted_app_2; [| done | repeat constructor].
  intros a b Ha ->%list_elem_of_singleton.
  apply (proj1 (Forall_forall _ _) Hx) in Ha. lia.
Qed.

Lemma filter_snoc {A} (P : A → Prop) `{∀ x, Decision (P x)} (l : list A) x :
  filter P (l ++ [x]) = filter P l ++ (if decide (P x) then [x] else []).
Proof. rewrite filter_app. f_equal. Qed.

Lemma Forall2_snoc {A B} (R : A → B → Prop) l k x y :
  Forall2 R l k → R x y → Forall2 R (l ++ [x]) (k ++ [y]).
Proof. intros Hl Hxy. apply Forall2_app; [done | by constructor]. Qed.

Lemma vsize_singleton {A} (x : A) : vsize [x] = 1.
Proof. done. Qed.

Lemma split_node_Value s i s' :
  split_node graph lhs_subgraph rhs_subgraph s i = Value s' →
  0 ≤ i < vsize (nodes_ graph).
Proof.
  unfold split_node.
  destruct (vget (nodes_ graph) i) as [node |] eqn:Hnode; [| done].
  intros _. by apply vget_lt in Hnode.
Qed.

Lemma split_node_step done i s s' :
  nodes_split_as graph lhs_subgraph rhs_subgraph done s →
  split_node graph lhs_subgraph rhs_subgraph s i = Value s' →
  nodes_split_as graph lhs_subgraph rhs_subgraph (done ++ [i]) s'.
Proof.
  intros (HL & HR & HK & Hmem & Hcl & Hcr & Hrl & Hrr & Hsl & Hsr & Htl & Htr & Htc)
         Hbody.
  pose proof (split_node_Value _ _ _ Hbody) as Hi.
  destruct (split_node_cases s i Hi Htl Htr Htc) as (node & Hnode & Hcases).
  rewrite Hcases in Hbody. clear Hcases.
  unfold nodes_split_as. rewrite !filter_snoc.
  destruct (bool_decide (i ∈ subgraph_nodes_ lhs_subgraph)) eqn:EL;
    destruct (bool_decide (i ∈ subgraph_nodes_ rhs_subgraph)) eqn:ER;
    [apply bool_decide_eq_true in EL, ER
    | apply bool_decide_eq_true in EL; apply bool_decide_eq_false in ER
    | apply bool_decide_eq_false in EL; apply bool_decide_eq_true in ER
    | done];
    injection Hbody as <-; simpl;
    rewrite ?(decide_True (P := i ∈ subgraph_nodes_ lhs_subgraph)) by done;
    rewrite ?(decide_False (P := i ∈ subgraph_nodes_ lhs_subgraph)) by done;
    rewrite ?(decide_True (P := i ∈ subgraph_nodes_ rhs_subgraph)) by done;
    rewrite ?(decide_False (P := i ∈ subgraph_nodes_ rhs_subgraph)) by done;
    rewrite ?(decide_True (P := _ ∧ _)) by done;
    rewrite ?(decide_False (P := _ ∧ _)) by tauto;
    rewrite ?app_nil_r, ?vsize_insert, ?vsize_app, ?vsize_singleton;
    repeat match goal with
           | |- _ ∧ _ => split
           | |- Forall2 _ (_ ++ [_]) (_ ++ [_]) => by apply Forall2_snoc
           | |- Forall _ (_ ++ [_]) => apply Forall_app; split
           | |- StronglySorted _ (_ ++ [_]) => by apply sorted_snoc
           | |- Forall _ [_] =>
               by (constructor; [first [unfold vsize; lia | tauto] | constructor])
           | |- Forall (λ v, 0 ≤ v < _) _ => by (eapply Forall_bound_grow; [eassumption | lia])
           | |- _ => done || lia
           end.
Qed.

(** The loop over the nodes, when it ends normally. *)
Lemma split_node_loop ixs s' :
  for_each_thrown (split_node graph lhs_subgraph rhs_subgraph) ixs
    (mkNodeSplit [] [] [] [] []
       (replicate (length (nodes_ graph)) index_none)
       (replicate (length (nodes_ graph)) index_none)
       (replicate (length (nodes_ graph)) index_none)) = Value s' →
  nodes_split_as graph lhs_subgraph rhs_subgraph ixs s'.
Proof.
  apply for_each_thrown_invariant.
  - unfold nodes_split_as, vsize. simpl. rewrite !length_replicate.
    repeat split; constructor.
  - intros done i s0 s1. apply split_node_step.
Qed.

End CompilerNodes.

Lemma table_find_None (table : label_table) label :
  table_find table label = None ↔ label ∉ map fst table.
Proof.
  unfold table_find. induction table as [| [l m] table IH]; simpl.
  - split; [intros _ ?%elem_of_nil; done | done].
  - case_bool_decide as Hl; simpl.
    + split; [done |]. intros Hnot. exfalso. apply Hnot. subst l. by left.
    + rewrite IH. rewrite not_elem_of_cons. split; [by split | by intros [_ ?]].
Qed.

Lemma table_find_Some (table : label_table) label m :
  table_find table label = Some m → (label, m) ∈ table.
Proof.
  unfold table_find. induction table as [| [l m'] table IH]; simpl; [done |].
  case_bool_decide as Hl; simpl.
  - intros [= <-]. subst l. by left.
  - intros H. right. by apply IH.
Qed.

Lemma side_labels_snoc edges edge :
  side_labels (edges ++ [edge])
  = side_labels edges
    ++ (if decide (edge_label_ (edge_attrs_ edge) ≠ EmptyString)
        then [(edge_label_ (edge_attrs_ edge), vsize edges)] else []).
Proof.
  unfold side_labels. rewrite imap_app, filter_app. f_equal.
  simpl. rewrite filter_cons, filter_nil. simpl.
  rewrite Nat.add_0_r. done.
Qed.

Lemma side_labels_in edges label m :
  (label, m) ∈ side_labels edges →
  ∃ edge, vget edges m = Some edge ∧ edge_label_ (edge_attrs_ edge) = label ∧
          label ≠ EmptyString.
Proof.
  unfold side_labels. intros [Hne Hin]%list_elem_of_filter. simpl in Hne.
  apply list_elem_of_lookup in Hin as [k Hk].
  rewrite list_lookup_imap in Hk.
  destruct (edges !! k) as [edge |] eqn:Hedge; [| done].
  simpl in Hk. injection Hk as <- <-. exists edge.
  rewrite vget_of_nat. done.
Qed.

Section CompilerEdges.
Variables (graph : Graph) (lhs_subgraph rhs_subgraph : Subgraph) (ns : node_split).

Lemma put_lhs_edge_cases edge s r :
  put_lhs_edge (graph_to_lhs_node ns) edge s = r →
  match translate_edge (graph_to_lhs_node ns) edge with
  | None => r = OutOfBounds
  | Some lhs_edge =>
      let label := edge_label_ (edge_attrs_ edge) in
      if decide (label = EmptyString) then
        r = Value (mkEdgeSplit (lhs_edges s ++ [lhs_edge]) (rhs_edges s)
                     (lhs_label_to_edge s) (rhs_label_to_edge s))
      else
        match table_find (lhs_label_to_edge s) label with
        | Some _ => r = RuntimeError (label_reused_error label "LHS")
        | None =>
            r = Value (mkEdgeSplit (lhs_edges s ++ [lhs_edge]) (rhs_edges s)
                         (lhs_label_to_edge s ++ [(label, vsize (lhs_edges s))])
                         (rhs_label_to_edge s))
        end
  end.
Proof.
  intros <-. unfold put_lhs_edge, table_emplace.
  destruct (translate_edge _ edge) as [el |]; simpl; [| done].
  destruct (decide (edge_label_ (edge_attrs_ edge) = EmptyString)) as [E | E].
  - by rewrite bool_decide_eq_false_2 by (by intros H; apply H).
  - rewrite bool_decide_eq_true_2 by done.
    destruct (table_find _ _); simpl; [done |]. by rewrite vsize_snoc.
Qed.

Lemma put_rhs_edge_cases edge s r :
  put_rhs_edge (graph_to_rhs_node ns) edge s = r →
  match translate_edge (graph_to_rhs_node ns) edge with
  | None => r = OutOfBounds
  | Some rhs_edge =>
      let label := edge_label_ (edge_attrs_ edge) in
      if decide (label = EmptyString) then
        r = Value (mkEdgeSplit (lhs_edges s) (rhs_edges s ++ [rhs_edge])
                     (lhs_label_to_edge s) (rhs_label_to_edge s))
      else
        match table_find (rhs_label_to_edge s) label with
        | Some _ => r = RuntimeError (label_reused_error label "RHS")
        | None =>
            r = Value (mkEdgeSplit (lhs_edges s) (rhs_edges s ++ [rhs_edge])
                         (lhs_label_to_edge s)
                         (rhs_label_to_edge s ++ [(label, vsize (rhs_edges s))]))
        end
  end.
Proof.
  intros <-. unfold put_rhs_edge, table_emplace.
  destruct (translate_edge _ edge) as [er |]; simpl; [| done].
  destruct (decide (edge_label_ (edge_attrs_ edge) = EmptyString)) as [E | E].
  - by rewrite bool_decide_eq_false_2 by (by intros H; apply H).
  - rewrite bool_decide_eq_true_2 by done.
    destruct (table_find _ _); simpl; [done |]. by rewrite vsize_snoc.
Qed.

(** An iteration of the loop over the edges that ends normally has put the
    edge on its one side. *)
Lemma split_edge_Value s m s' :
  split_edge graph lhs_subgraph rhs_subgraph ns s m = Value s' →
  ∃ edge, vget (edges_ graph) m = Some edge ∧
    let label := edge_label_ (edge_attrs_ edge) in
    ((m ∈ subgraph_edges_ lhs_subgraph ∧ (m ∉ subgraph_edges_ rhs_subgraph) ∧
      ∃ lhs_edge,
        translate_edge (graph_to_lhs_node ns) edge = Some lhs_edge ∧
        lhs_edges s' = lhs_edges s ++ [lhs_edge] ∧
        rhs_edges s' = rhs_edges s ∧
        rhs_label_to_edge s' = rhs_label_to_edge s ∧
        ((label = EmptyString ∧ lhs_label_to_edge s' = lhs_label_to_edge s) ∨
         (label ≠ EmptyString ∧
          table_find (lhs_label_to_edge s) label = None ∧
          lhs_label_to_edge s'
          = lhs_label_to_edge s ++ [(label, vsize (lhs_edges s))]))) ∨
     ((m ∉ subgraph_edges_ lhs_subgraph) ∧ m ∈ subgraph_edges_ rhs_subgraph ∧
      ∃ rhs_edge,
        translate_edge (graph_to_rhs_node ns) edge = Some rhs_edge ∧
        rhs_edges s' = rhs_edges s ++ [rhs_edge] ∧
        lhs_edges s' = lhs_edges s ∧
        lhs_label_to_edge s' = lhs_label_to_edge s ∧
        ((label = EmptyString ∧ rhs_label_to_edge s' = rhs_label_to_edge s) ∨
         (label ≠ EmptyString ∧
          table_find (rhs_label_to_edge s) label = None ∧
          rhs_label_to_edge s'
          = rhs_label_to_edge s ++ [(label, vsize (rhs_edges s))])))).
Proof.
  unfold split_edge.
  destruct (vget (edges_ graph) m) as [edge |] eqn:Hedge; [| done]. simpl.
  intros Hbody. exists edge. split; [done |].
  destruct (bool_decide (m ∈ subgraph_edges_ lhs_subgraph)) eqn:EL;
    destruct (bool_decide (m ∈ subgraph_edges_ rhs_subgraph)) eqn:ER;
    [apply bool_decide_eq_true in EL, ER
    | apply bool_decide_eq_true in EL; apply bool_decide_eq_false in ER
    | apply bool_decide_eq_false in EL; apply bool_decide_eq_true in ER
    | apply bool_decide_eq_false in EL, ER];
    simpl in Hbody.
  - exfalso. destruct (put_lhs_edge _ edge s) as [s1 | |]; simpl in Hbody; [| done | done].
    by destruct (put_rhs_edge _ edge s1).
  - left. split; [done |]. split; [done |].
    destruct (put_lhs_edge _ edge s) as [s1 | |] eqn:Hput; simpl in Hbody; [| done | done].
    injection Hbody as <-. apply put_lhs_edge_cases in Hput.
    destruct (translate_edge _ edge) as [el |]; [| done]. exists el. simpl in Hput.
    destruct (decide (edge_label_ (edge_attrs_ edge) = EmptyString)) as [E | E].
    + injection Hput as ->. simpl. repeat split; try done. by left.
    + destruct (table_find _ _) eqn:Hfind; [done |].
      injection Hput as ->. simpl. repeat split; try done. by right.
  - right. split; [done |]. split; [done |].
    destruct (put_rhs_edge _ edge s) as [s1 | |] eqn:Hput; simpl in Hbody; [| done | done].
    injection Hbody as <-. apply put_rhs_edge_cases in Hput.
    destruct (translate_edge _ edge) as [er |]; [| done]. exists er. simpl in Hput.
    destruct (decide (edge_label_ (edge_attrs_ edge) = EmptyString)) as [E | E].
    + injection Hput as ->. simpl. repeat split; try done. by left.
    + destruct (table_find _ _) eqn:Hfind; [done |].
      injection Hput as ->. simpl. repeat split; try done. by right.
  - done.
Qed.



End CompilerEdges.

Lemma translate_edge_attrs table edge edge' :
  translate_edge table edge = Some edge' → edge_attrs_ edge' = edge_attrs_ edge.
Proof. by intros (h & t & _ & _ & ->)%translate_edge_Some. Qed.

Lemma labels_recorded_skip graph side done table m :
  (∀ edge, vget (edges_ graph) m = Some edge → m ∈ side →
           edge_label_ (edge_attrs_ edge) = EmptyString) →
  labels_recorded graph side done table →
  labels_recorded graph side (done ++ [m]) table.
Proof.
  intros Hskip Hrec label. rewrite (Hrec label). split.
  - intros (m' & e & Hin & He & Hside & Hl & Hne). exists m', e.
    rewrite elem_of_app. by repeat split; [left | ..].
  - intros (m' & e & [Hin | ->%list_elem_of_singleton]%elem_of_app &
            He & Hside & Hl & Hne).
    + by exists m', e.
    + exfalso. apply Hne. rewrite <- Hl. by apply Hskip.
Qed.

Lemma labels_recorded_add graph side done table m edge k :
  vget (edges_ graph) m = Some edge →
  m ∈ side →
  edge_label_ (edge_attrs_ edge) ≠ EmptyString →
  labels_recorded graph side done table →
  labels_recorded graph side (done ++ [m])
                  (table ++ [(edge_label_ (edge_attrs_ edge), k)]).
Proof.
  intros Hedge Hside Hne Hrec label.
  rewrite map_app, elem_of_app, (Hrec label). simpl.
  rewrite list_elem_of_singleton. split.
  - intros [(m' & e & Hin & He & Hs & Hl & Hn) | ->].
    + exists m', e. rewrite elem_of_app. by repeat split; [left | ..].
    + exists m, edge. rewrite elem_of_app, list_elem_of_singleton.
      by repeat split; [right | ..].
  - intros (m' & e & [Hin | ->%list_elem_of_singleton]%elem_of_app &
            He & Hs & Hl & Hn).
    + left. by exists m', e.
    + right. congruence.
Qed.

Lemma no_reuse_snoc graph side done m :
  no_reuse graph side done →
  (∀ m1 edge1 edge, m1 ∈ done →
     vget (edges_ graph) m1 = Some edge1 → vget (edges_ graph) m = Some edge →
     m1 ∈ side → m ∈ side →
     edge_label_ (edge_attrs_ edge1) ≠ EmptyString →
     edge_label_ (edge_attrs_ edge1) ≠ edge_label_ (edge_attrs_ edge)) →
  no_reuse graph side (done ++ [m]).
Proof.
  intros Hold Hnew p1 p2 m1 m2 e1 e2 Hp H1 H2 He1 He2 Hs1 Hs2 Hne.
  assert (Hp2 : (p2 < length (done ++ [m]))%nat) by (by apply lookup_lt_Some in H2).
  rewrite length_app in Hp2. simpl in Hp2.
  rewrite lookup_app_l in H1 by lia.
  destruct (decide (p2 < length done)%nat) as [Hlt | Hge].
  - rewrite lookup_app_l in H2 by lia. by apply (Hold p1 p2 m1 m2).
  - rewrite lookup_app_r in H2 by lia.
    replace (p2 - length done)%nat with 0%nat in H2 by lia.
    injection H2 as <-.
    apply (Hnew m1 e1 e2); try done. apply list_elem_of_lookup. by exists p1.
Qed.

Section CompilerEdgeLoop.
Variables (graph : Graph) (lhs_subgraph rhs_subgraph : Subgraph) (ns : node_split).

Lemma split_edge_step done m s s' :
  edges_split_as graph lhs_subgraph rhs_subgraph ns done s →
  split_edge graph lhs_subgraph rhs_subgraph ns s m = Value s' →
  edges_split_as graph lhs_subgraph rhs_subgraph ns (done ++ [m]) s'.
Proof.
  intros (HL & HR & HtL & HtR & HrL & HrR & Hone & HnL & HnR)
         (edge & Hedge & Hcase)%split_edge_Value.
  simpl in Hcase. unfold edges_split_as. rewrite !filter_snoc.
  destruct Hcase as [(Hin & Hout & el & Htr & Hl' & Hr' & Htr' & Hlab)
                    | (Hout & Hin & er & Htr & Hr' & Hl' & Htl' & Hlab)].
  - (* an edge of the LHS *)
    rewrite decide_True by done. rewrite decide_False by done.
    rewrite app_nil_r, Hl', Hr', Htr'.
    pose proof (translate_edge_attrs _ _ _ Htr) as Hattrs.
    split; [apply Forall2_snoc; [done | by exists edge] |].
    split; [done |].
    split.
    { rewrite side_labels_snoc, Hattrs.
      destruct Hlab as [[E ->] | (E & _ & ->)].
      - rewrite decide_False by (by intros H; apply H). by rewrite app_nil_r.
      - rewrite decide_True by done. by rewrite HtL. }
    split; [done |].
    split.
    { destruct Hlab as [[E ->] | (E & _ & ->)].
      - apply labels_recorded_skip; [| done]. intros e He _. congruence.
      - by apply labels_recorded_add. }
    split.
    { apply labels_recorded_skip; [| done]. by intros e _ ?. }
    split; [apply Forall_app; split; [done | apply Forall_singleton; by left] |].
    split.
    + apply no_reuse_snoc; [done |].
      intros m1 e1 e Hm1 He1 He Hs1 _ Hne Heq.
      assert (e = edge) as -> by congruence.
      destruct Hlab as [[E _] | (E & Hfind & _)]; [congruence |].
      apply table_find_None in Hfind. apply Hfind, HrL.
      exists m1, e1. by repeat split.
    + apply no_reuse_snoc; [done |]. by intros m1 e1 e _ _ _ _ ?.
  - (* an edge of the RHS *)
    rewrite decide_False by done. rewrite decide_True by done.
    rewrite app_nil_r, Hl', Hr', Htl'.
    pose proof (translate_edge_attrs _ _ _ Htr) as Hattrs.
    split; [done |].
    split; [apply Forall2_snoc; [done | by exists edge] |].
    split; [done |].
    split.
    { rewrite side_labels_snoc, Hattrs.
      destruct Hlab as [[E ->] | (E & _ & ->)].
      - rewrite decide_False by (by intros H; apply H). by rewrite app_nil_r.
      - rewrite decide_True by done. by rewrite HtR. }
    split.
    { apply labels_recorded_skip; [| done]. by intros e _ ?. }
    split.
    { destruct Hlab as [[E ->] | (E & _ & ->)].
      - apply labels_recorded_skip; [| done]. intros e He _. congruence.
      - by apply labels_recorded_add. }
    split; [apply Forall_app; split; [done | apply Forall_singleton; by right] |].
    split.
    + apply no_reuse_snoc; [done |]. by intros m1 e1 e _ _ _ _ ?.
    + apply no_reuse_snoc; [done |].
      intros m1 e1 e Hm1 He1 He Hs1 _ Hne Heq.
      assert (e = edge) as -> by congruence.
      destruct Hlab as [[E _] | (E & Hfind & _)]; [congruence |].
      apply table_find_None in Hfind. apply Hfind, HrR.
      exists m1, e1. by repeat split.
Qed.

Lemma edges_split_init :
  edges_split_as graph lhs_subgraph rhs_subgraph ns [] (mkEdgeSplit [] [] [] []).
Proof.
  unfold edges_split_as. simpl.
  repeat split; try constructor; try done.
  all: try (by intros ?%elem_of_nil).
  all: try (by intros (? & ? & ?%elem_of_nil & _)).
  all: by intros p1 p2 ? ? ? ? _ ?.
Qed.

(** The loop over the edges, when it ends normally. *)
Lemma split_edge_loop ixs s' :
  for_each_thrown (split_edge graph lhs_subgraph rhs_subgraph ns) ixs
                  (mkEdgeSplit [] [] [] []) = Value s' →
  edges_split_as graph lhs_subgraph rhs_subgraph ns ixs s'.
Proof.
  apply for_each_thrown_invariant.
  - apply edges_split_init.
  - intros done i s0 s1. apply split_edge_step.
Qed.

End CompilerEdgeLoop.

(** ** When the rule compiler throws *)

(** A loop that does not end normally stopped in some iteration, after the
    iterations before it ended normally. *)
Lemma for_each_thrown_stops {S I} (body : S → I → thrown S) ixs s r :
  for_each_thrown body ixs s = r →
  (∀ s', r ≠ Value s') →
  ∃ done i rest s0,
    ixs = done ++ i :: rest ∧
    for_each_thrown body done s = Value s0 ∧
    body s0 i = r.
Proof.
  revert s. induction ixs as [| i ixs IH]; intros s; simpl.
  - intros <- Hr. by destruct (Hr s).
  - destruct (body s i) as [s1 | what |] eqn:Hbody; simpl.
    + intros Hloop Hr.
      destruct (IH s1 Hloop Hr) as (before & j & rest & s0 & -> & Hd & Hj).
      exists (i :: before), j, rest, s0. simpl. rewrite Hbody. simpl. done.
    + intros <- _. by exists [], i, ixs, s.
    + intros <- _. by exists [], i, ixs, s.
Qed.


Lemma positions_member {A} (v : list A) done m rest :
  positions v = done ++ m :: rest → 0 ≤ m < vsize v.
Proof.
  intros Hsplit. apply elem_of_positions. rewrite Hsplit.
  apply elem_of_app. right. by left.
Qed.

Lemma positions_split {A} (v : list A) done i rest :
  positions v = done ++ i :: rest →
  done = seqZ 0 i ∧ 0 ≤ i < vsize v.
Proof.
  unfold positions. intros Hsplit.
  assert (Hi : seqZ 0 (vsize v) !! length done = Some i).
  { rewrite Hsplit. by apply list_lookup_middle. }
  apply lookup_seqZ in Hi as [Hi Hlt]. rewrite Z.add_0_l in Hi. subst i.
  split; [| lia].
  apply (f_equal (take (length done))) in Hsplit.
  rewrite take_app_length in Hsplit.
  remember (length done) as k eqn:Hk. rewrite <- Hsplit.
  replace (vsize v) with (Z.of_nat k + (vsize v - Z.of_nat k)) by lia.
  rewrite seqZ_app by lia. apply take_app_length'.
  rewrite length_seqZ. lia.
Qed.


Section CompilerOutcome.
Variable traversal : label_table → label_table.
Variables (graph : Graph) (lhs_subgraph rhs_subgraph : Subgraph).
Hypothesis has_lhs : side_subgraph "L" graph = Some lhs_subgraph.
Hypothesis has_rhs : side_subgraph "R" graph = Some rhs_subgraph.

Local Abbreviation node_loop :=
  (for_each_thrown (split_node graph lhs_subgraph rhs_subgraph)
     (positions (nodes_ graph))
     (mkNodeSplit [] [] [] [] []
        (replicate (length (nodes_ graph)) index_none)
        (replicate (length (nodes_ graph)) index_none)
        (replicate (length (nodes_ graph)) index_none))).

Local Abbreviation edge_loop ns :=
  (for_each_thrown (split_edge graph lhs_subgraph rhs_subgraph ns)
     (positions (edges_ graph)) (mkEdgeSplit [] [] [] [])).

Local Abbreviation paired es :=
  (fold_left (pair_label (rhs_label_to_edge es))
             (traversal (lhs_label_to_edge es)) (mkCommonEdgeList [] [] [])).

Lemma createRuleFromGraph_loops :
  createRuleFromGraph traversal graph
  = ns ← node_loop;
    es ← edge_loop ns;
    Value (mkRule
             (mkGraph (lhs_nodes ns) (lhs_edges es) [])
             (mkGraph (rhs_nodes ns) (rhs_edges es) [])
             (mkGraph (common_nodes ns) (common_edges (paired es)) [])
             (mkGraphMapping (common_to_lhs_nodes ns)
                             (common_to_lhs_edges (paired es)))
             (mkGraphMapping (common_to_rhs_nodes ns)
                             (common_to_rhs_edges (paired es)))).
Proof.
  unfold createRuleFromGraph. unfold side_subgraph in has_lhs, has_rhs.
  by rewrite has_lhs, has_rhs.
Qed.

(** The loop over the nodes throws only at a node on no side, and names it;
    it never leaves a vector. *)
Lemma node_loop_outcome :
  (∃ ns, node_loop = Value ns ∧
         nodes_split_as graph lhs_subgraph rhs_subgraph (positions (nodes_ graph)) ns) ∨
  (∃ i node, vget (nodes_ graph) i = Some node ∧
             (i ∉ subgraph_nodes_ lhs_subgraph) ∧
             (i ∉ subgraph_nodes_ rhs_subgraph) ∧
             node_loop = RuntimeError (node_neither_error node)).
Proof.
  destruct node_loop as [ns | what |] eqn:Hloop.
  - left. exists ns. split; [done |]. by apply split_node_loop.
  - right.
    destruct (for_each_thrown_stops _ _ _ _ Hloop) as (before & i & rest & s0 & Hsplit & Hdone & Hbody);
      [done |].
    apply split_node_loop in Hdone.
    destruct Hdone as (_ & _ & _ & _ & _ & _ & _ & _ & _ & _ & Htl & Htr & Htc).
    destruct (split_node_cases graph lhs_subgraph rhs_subgraph s0 i
                (positions_member _ _ _ _ Hsplit) Htl Htr Htc)
      as (node & Hnode & Hcases).
    rewrite Hcases in Hbody. exists i, node.
    destruct (bool_decide (i ∈ subgraph_nodes_ lhs_subgraph)) eqn:EL;
      destruct (bool_decide (i ∈ subgraph_nodes_ rhs_subgraph)) eqn:ER; try done.
    apply bool_decide_eq_false in EL, ER. injection Hbody as <-. done.
  - exfalso.
    destruct (for_each_thrown_stops _ _ _ _ Hloop) as (before & i & rest & s0 & Hsplit & Hdone & Hbody);
      [done |].
    apply split_node_loop in Hdone.
    destruct Hdone as (_ & _ & _ & _ & _ & _ & _ & _ & _ & _ & Htl & Htr & Htc).
    destruct (split_node_cases graph lhs_subgraph rhs_subgraph s0 i
                (positions_member _ _ _ _ Hsplit) Htl Htr Htc)
      as (node & Hnode & Hcases).
    rewrite Hcases in Hbody.
    by destruct (bool_decide (i ∈ subgraph_nodes_ lhs_subgraph));
      destruct (bool_decide (i ∈ subgraph_nodes_ rhs_subgraph)).
Qed.


End CompilerOutcome.


Lemma createRuleFromGraph_missing traversal graph :
  side_subgraph "L" graph = None ∨ side_subgraph "R" graph = None →
  createRuleFromGraph traversal graph = RuntimeError missing_subgraph_error.
Proof.
  unfold createRuleFromGraph, side_subgraph. intros [-> | ->]; [done |].
  by destruct (find _ _).
Qed.


(** ** Which error the compiler throws *)













(** On [clash_graph] the loop stops at the second edge, at its first test:
    the label is taken on the LHS. *)
Example createRuleFromGraph_clash :
  createRuleFromGraph (λ table, table) clash_graph
  = RuntimeError (label_reused_error "e" "LHS").
Proof. vm_compute. reflexivity. Qed.

(** ** The rule returned by the compiler *)

Lemma paired_labels_cons rhs_labels entry visited :
  paired_labels rhs_labels (entry :: visited)
  = match table_find rhs_labels (fst entry) with
    | Some _ => entry :: paired_labels rhs_labels visited
    | None => paired_labels rhs_labels visited
    end.
Proof.
  unfold paired_labels.
  destruct (table_find rhs_labels (fst entry)) as [m |] eqn:Hfind.
  - apply filter_cons_True. rewrite Hfind. by eexists.
  - apply filter_cons_False. rewrite Hfind. by intros [? ?].
Qed.

Lemma pair_label_fold rhs_labels visited : ∀ acc,
  fold_left (pair_label rhs_labels) visited acc
  = mkCommonEdgeList
      (common_edges acc
       ++ map (λ entry, mkEdge 0 0 (mkEdgeAttributes (fst entry) EmptyString))
              (paired_labels rhs_labels visited))
      (common_to_lhs_edges acc
       ++ map (λ entry, [snd entry]) (paired_labels rhs_labels visited))
      (common_to_rhs_edges acc
       ++ map (λ entry, [default 0 (table_find rhs_labels (fst entry))])
              (paired_labels rhs_labels visited)).
Proof.
  induction visited as [| entry visited IH]; intros acc.
  - simpl. rewrite !app_nil_r. by destruct acc.
  - change (fold_left ?f (entry :: visited) acc)
      with (fold_left f visited (f acc entry)).
    rewrite IH, paired_labels_cons. unfold pair_label.
    destruct (table_find rhs_labels (fst entry)) as [m_rhs |] eqn:Hfind; simpl.
    + rewrite Hfind. simpl. by rewrite <- !(assoc_L (++)).
    + done.
Qed.

Lemma sorted_NoDup (l : list Z) : StronglySorted Z.lt l → NoDup l.
Proof.
  induction 1 as [| x l _ IH Hlt]; constructor; [| done].
  intros Hin. apply (proj1 (Forall_forall _ _) Hlt) in Hin. lia.
Qed.

Section CompiledRule.
Variable traversal : label_table → label_table.
Variables (graph : Graph) (rule : Rule).
Hypothesis compiled : createRuleFromGraph traversal graph = Value rule.

(** What a rule returned by the compiler is made of. *)
Lemma compiled_rule_parts :
  ∃ lhs_subgraph rhs_subgraph ns es,
    side_subgraph "L" graph = Some lhs_subgraph ∧
    side_subgraph "R" graph = Some rhs_subgraph ∧
    nodes_split_as graph lhs_subgraph rhs_subgraph (positions (nodes_ graph)) ns ∧
    edges_split_as graph lhs_subgraph rhs_subgraph ns (positions (edges_ graph)) es ∧
    lhs_ rule = mkGraph (lhs_nodes ns) (lhs_edges es) [] ∧
    rhs_ rule = mkGraph (rhs_nodes ns) (rhs_edges es) [] ∧
    nodes_ (common_ rule) = common_nodes ns ∧
    node_mapping_ (common_to_lhs_ rule) = common_to_lhs_nodes ns ∧
    node_mapping_ (common_to_rhs_ rule) = common_to_rhs_nodes ns ∧
    let paired := paired_labels (side_labels (rhs_edges es))
                                (traversal (side_labels (lhs_edges es))) in
    edges_ (common_ rule)
    = map (λ entry, mkEdge 0 0 (mkEdgeAttributes (fst entry) EmptyString)) paired ∧
    edge_mapping_ (common_to_lhs_ rule) = map (λ entry, [snd entry]) paired ∧
    edge_mapping_ (common_to_rhs_ rule)
    = map (λ entry, [default 0 (table_find (side_labels (rhs_edges es)) (fst entry))])
          paired.
Proof.
  destruct (side_subgraph "L" graph) as [lhs_subgraph |] eqn:HL.
  2: { rewrite (createRuleFromGraph_missing traversal graph (or_introl HL)) in compiled.
       done. }
  destruct (side_subgraph "R" graph) as [rhs_subgraph |] eqn:HR.
  2: { rewrite (createRuleFromGraph_missing traversal graph (or_intror HR)) in compiled.
       done. }
  rewrite (createRuleFromGraph_loops traversal graph _ _ HL HR) in compiled.
  destruct (for_each_thrown (split_node _ _ _) _ _) as [ns | |] eqn:Hns;
    simpl in compiled; [| done | done].
  destruct (for_each_thrown (split_edge _ _ _ _) _ _) as [es | |] eqn:Hes;
    simpl in compiled; [| done | done].
  injection compiled as <-.
  apply split_node_loop in Hns. apply split_edge_loop in Hes.
  exists lhs_subgraph, rhs_subgraph, ns, es.
  pose proof Hes as (_ & _ & HtL & HtR & _).
  rewrite pair_label_fold. simpl. rewrite HtL, HtR.
  do 4 (split; [done |]). repeat (split; [reflexivity |]). reflexivity.
Qed.

End CompiledRule.

Section CompiledRuleInvariants.
Variable traversal : label_table → label_table.
Hypothesis traversal_visits : ∀ table, traversal table ≡ₚ table.
Variables (graph : Graph) (rule : Rule).
Hypothesis compiled : createRuleFromGraph traversal graph = Value rule.

(** The mappings of a compiled rule inject the common nodes into the two
    sides and pair every common edge with one edge of each side. *)
Lemma compiled_rule_mappings :
  injects_nodes (common_to_lhs_ rule) (common_ rule) (lhs_ rule) ∧
  injects_nodes (common_to_rhs_ rule) (common_ rule) (rhs_ rule) ∧
  pairs_edges (common_to_lhs_ rule) (common_ rule) (lhs_ rule) ∧
  pairs_edges (common_to_rhs_ rule) (common_ rule) (rhs_ rule).
Proof.
  destruct (compiled_rule_parts traversal graph rule compiled)
    as (L & R & ns & es & _ & _ & Hns & _ & HL & HR & HK & HcL & HcR & HKe & HeL & HeR).
  destruct Hns as (_ & _ & _ & _ & Hcl & Hcr & Hrl & Hrr & Hsl & Hsr & _).
  unfold injects_nodes, pairs_edges.
  rewrite HL, HR, HK, HcL, HcR, HKe, HeL, HeR. simpl.
  split; [by repeat split; [| | apply sorted_NoDup] |].
  split; [by repeat split; [| | apply sorted_NoDup] |].
  split.
  - split; [unfold vsize; by rewrite !length_map |].
    apply Forall_forall. intros ms (entry & -> & Hentry)%list_elem_of_fmap.
    split; [done |]. apply Forall_singleton.
    apply list_elem_of_filter in Hentry as [_ Hentry].
    rewrite traversal_visits in Hentry. destruct entry as [label m].
    apply side_labels_in in Hentry as (edge & Hedge & _). by apply vget_lt in Hedge.
  - split; [unfold vsize; by rewrite !length_map |].
    apply Forall_forall. intros ms (entry & -> & Hentry)%list_elem_of_fmap.
    split; [done |]. apply Forall_singleton.
    apply list_elem_of_filter in Hentry as [[m Hfound] _].
    rewrite Hfound. simpl. apply table_find_Some in Hfound.
    apply side_labels_in in Hfound as (edge & Hedge & _). by apply vget_lt in Hedge.
Qed.

Lemma compiled_rule_wf :
  wf_graph (lhs_ rule) → wf_graph (rhs_ rule) → rule_wf rule.
Proof.
  intros HwL HwR.
  destruct compiled_rule_mappings as (H1 & H2 & H3 & H4).
  unfold rule_wf. tauto.
Qed.

End CompiledRuleInvariants.

Lemma sorted_filter (member : Z → Prop) `{∀ i, Decision (member i)} (l : list Z) :
  StronglySorted Z.lt l → StronglySorted Z.lt (filter member l).
Proof.
  induction 1 as [| x l _ IH Hlt]; [constructor |].
  rewrite filter_cons. destruct (decide (member x)); [| done].
  constructor; [done |]. apply Forall_forall.
  intros y [_ Hy]%list_elem_of_filter. by apply (proj1 (Forall_forall _ _) Hlt).
Qed.

(** Elements emitted in graph order come from increasing positions. *)
Lemma graph_order_increasing {A} (R : Z → A → Prop) (member : Z → Prop)
    `{∀ i, Decision (member i)} {B} (v : list B) (emitted : list A)
    (p p' : nat) x x' :
  Forall2 R (filter member (positions v)) emitted →
  emitted !! p = Some x → emitted !! p' = Some x' → (p < p')%nat →
  ∃ i i', i < i' ∧ member i ∧ member i' ∧ R i x ∧ R i' x'.
Proof.
  intros HF Hp Hp' Hlt.
  destruct (Forall2_lookup_r _ _ _ _ _ HF Hp) as (i & Hi & HR).
  destruct (Forall2_lookup_r _ _ _ _ _ HF Hp') as (i' & Hi' & HR').
  exists i, i'.
  assert (Hsorted : StronglySorted Z.lt (filter member (positions v))).
  { apply sorted_filter, seqZ_sorted. }
  assert (Hmem : member i ∧ member i').
  { split.
    - assert (Hin : i ∈ filter member (positions v))
        by (apply list_elem_of_lookup; by exists p).
      by apply list_elem_of_filter in Hin as [? _].
    - assert (Hin : i' ∈ filter member (positions v))
        by (apply list_elem_of_lookup; by exists p').
      by apply list_elem_of_filter in Hin as [? _]. }
  destruct Hmem. repeat split; try done.
  rewrite <- (take_drop_middle _ _ _ Hi') in Hsorted, Hi.
  apply (StronglySorted_app_1_elem_of _ _ _ _ _ Hsorted); [| by left].
  apply list_elem_of_lookup. exists p.
  rewrite lookup_app_l in Hi; [done |].
  rewrite length_take. apply lookup_lt_Some in Hi'. lia.
Qed.

(** C6, as the code has it.  In a rule returned by the compiler, the nodes of
    L, R and K and the edges of L and R are the nodes and edges of the
    annotated graph on that side, at increasing positions of the graph.  The
    common edges are another matter: they come in the order in which the
    labels of the LHS table are visited, one for each label the RHS table
    holds too. *)
Theorem createRuleFromGraph_order traversal graph rule :
  createRuleFromGraph traversal graph = Value rule →
  ∃ lhs_subgraph rhs_subgraph,
    side_subgraph "L" graph = Some lhs_subgraph ∧
    side_subgraph "R" graph = Some rhs_subgraph ∧
    nodes_in_graph_order graph (λ i, i ∈ subgraph_nodes_ lhs_subgraph)
                         (nodes_ (lhs_ rule)) ∧
    nodes_in_graph_order graph (λ i, i ∈ subgraph_nodes_ rhs_subgraph)
                         (nodes_ (rhs_ rule)) ∧
    nodes_in_graph_order graph
      (λ i, i ∈ subgraph_nodes_ lhs_subgraph ∧ i ∈ subgraph_nodes_ rhs_subgraph)
      (nodes_ (common_ rule)) ∧
    edges_in_graph_order graph (λ m, m ∈ subgraph_edges_ lhs_subgraph)
                         (edges_ (lhs_ rule)) ∧
    edges_in_graph_order graph (λ m, m ∈ subgraph_edges_ rhs_subgraph)
                         (edges_ (rhs_ rule)) ∧
    map (λ edge, edge_label_ (edge_attrs_ edge)) (edges_ (common_ rule))
    = map fst (paired_labels (side_labels (edges_ (rhs_ rule)))
                             (traversal (side_labels (edges_ (lhs_ rule))))).
Proof.
  intros Hcompiled.
  destruct (compiled_rule_parts traversal graph rule Hcompiled)
    as (L & R & ns & es & HsL & HsR & Hns & Hes & HL & HR & HK & _ & _ & HKe & _).
  exists L, R. split; [done |]. split; [done |].
  destruct Hns as (HnL & HnR & HnK & _).
  destruct Hes as (HeL & HeR & _).
  rewrite HL, HR, HK, HKe. simpl.
  unfold nodes_in_graph_order, edges_in_graph_order.
  split; [done |]. split; [done |]. split; [done |].
  split; [| split].
  - eapply Forall2_impl; [exact HeL |]. simpl.
    intros m e (ge & Hge & Htr). exists ge. split; [done |].
    by apply translate_edge_attrs in Htr.
  - eapply Forall2_impl; [exact HeR |]. simpl.
    intros m e (ge & Hge & Htr). exists ge. split; [done |].
    by apply translate_edge_attrs in Htr.
  - rewrite map_map. done.
Qed.

Lemma createRuleFromGraph_order_witness :
  ∃ lhs_subgraph rhs_subgraph,
    side_subgraph "L" swap_rule_graph = Some lhs_subgraph ∧
    side_subgraph "R" swap_rule_graph = Some rhs_subgraph ∧
    nodes_in_graph_order swap_rule_graph (λ i, i ∈ subgraph_nodes_ lhs_subgraph)
                         (nodes_ (lhs_ swap_rule)) ∧
    nodes_in_graph_order swap_rule_graph (λ i, i ∈ subgraph_nodes_ rhs_subgraph)
                         (nodes_ (rhs_ swap_rule)) ∧
    nodes_in_graph_order swap_rule_graph
      (λ i, i ∈ subgraph_nodes_ lhs_subgraph ∧ i ∈ subgraph_nodes_ rhs_subgraph)
      (nodes_ (common_ swap_rule)) ∧
    edges_in_graph_order swap_rule_graph (λ m, m ∈ subgraph_edges_ lhs_subgraph)
                         (edges_ (lhs_ swap_rule)) ∧
    edges_in_graph_order swap_rule_graph (λ m, m ∈ subgraph_edges_ rhs_subgraph)
                         (edges_ (rhs_ swap_rule)) ∧
    map (λ edge, edge_label_ (edge_attrs_ edge)) (edges_ (common_ swap_rule))
    = map fst (paired_labels (side_labels (edges_ (rhs_ swap_rule)))
                             ((λ table, table) (side_labels (edges_ (lhs_ swap_rule))))).
Proof.
  apply (createRuleFromGraph_order (λ table, table) swap_rule_graph swap_rule).
  vm_compute. reflexivity.
Defined.

(** C6 fails as stated for the common edges.  Visiting the table of LHS
    labels from its last entry to its first is one of the orders the language
    allows (it is the usual one of a small libstdc++ table).  In
    [order_graph] the edges labelled [a] come before the edges labelled [b]
    on both sides, yet the common edge for [b] is emitted before the one for
    [a]: common edge 0 is paired with LHS edge 1, common edge 1 with LHS
    edge 0. *)
Lemma createRuleFromGraph_order_counterexample :
  (∀ table : label_table, rev table ≡ₚ table) ∧
  ∃ rule,
    createRuleFromGraph (@rev (string * Z)) order_graph = Value rule ∧
    map (λ edge, edge_label_ (edge_attrs_ edge)) (edges_ (lhs_ rule)) = ["a"; "b"]%string ∧
    map (λ edge, edge_label_ (edge_attrs_ edge)) (edges_ (rhs_ rule)) = ["a"; "b"]%string ∧
    map (λ edge, edge_label_ (edge_attrs_ edge)) (edges_ (common_ rule))
    = ["b"; "a"]%string ∧
    edge_mapping_ (common_to_lhs_ rule) = [[1]; [0]] ∧
    edge_mapping_ (common_to_rhs_ rule) = [[1]; [0]].
Proof.
  split.
  - intros table. symmetry. apply Permutation_rev.
  - eexists. split; [vm_compute; reflexivity |]. simpl. repeat split.
Qed.

(** C10, as the code has it.  For a rule returned by the compiler whose
    sides have in-range edges, a target with in-range edges and a match
    returned by the matcher: when no target edge the applier copies touches a
    node that does not survive, and every RHS edge outside the common
    interface joins RHS nodes outside it, the applier returns a graph all of
    whose edges have their head and tail among its nodes. *)
Theorem applyRule_edges_in_range traversal graph rule target ms φ :
  (∀ table, traversal table ≡ₚ table) →
  createRuleFromGraph traversal graph = Value rule →
  wf_graph (lhs_ rule) →
  wf_graph (rhs_ rule) →
  wf_graph target →
  findMatches (lhs_ rule) target = Returns ms →
  φ ∈ ms →
  no_dangling_edge rule target φ →
  fresh_edges_on_fresh_nodes rule →
  ∃ result, applyRule rule target φ = Some result ∧ wf_graph result.
Proof.
  intros Htraversal Hcompiled HwL HwR Htarget Hms Hφ Hglue Hfresh.
  pose proof (compiled_rule_wf traversal Htraversal graph rule Hcompiled HwL HwR)
    as Hrule.
  apply applyRule_wf; try done.
  by apply (findMatches_match_of _ _ ms).
Qed.

Lemma applyRule_edges_in_range_witness :
  ∃ result, applyRule swap_rule swap_host swap_match = Some result ∧
            wf_graph result.
Proof.
  apply (applyRule_edges_in_range (λ table, table) swap_rule_graph swap_rule
           swap_host [swap_match] swap_match).
  - done.
  - vm_compute. reflexivity.
  - vm_decide.
  - vm_decide.
  - vm_decide.
  - vm_compute. reflexivity.
  - apply list_elem_of_here.
  - vm_decide.
  - vm_decide.
Defined.

(** C10 fails as stated: [dangle_rule] deletes its one node; in
    [dangle_target] that node is the head of an edge from the other node,
    which is not in the image of the match (the rule has no edge).  The
    applier copies the edge and reads the entry of the deleted node in the
    target-to-result table, which still holds the value of [-1]. *)
Lemma applyRule_edges_in_range_counterexample :
  createRuleFromGraph (λ table, table) dangle_rule_graph = Value dangle_rule ∧
  wf_graph dangle_target ∧
  findMatches (lhs_ dangle_rule) dangle_target = Returns [dangle_match] ∧
  ∃ result,
    applyRule dangle_rule dangle_target dangle_match = Some result ∧
    map head_ (edges_ result) = [index_none] ∧
    vsize (nodes_ result) = 1 ∧
    ¬ wf_graph result.
Proof.
  split; [vm_compute; reflexivity |]. split; [vm_decide |].
  split; [vm_compute; reflexivity |].
  eexists. split; [vm_compute; reflexivity |].
  split; [vm_compute; reflexivity |]. split; [vm_compute; reflexivity |].
  intros Hwf. apply Forall_cons in Hwf as [[Hhead _] _].
  vm_compute in Hhead. by destruct Hhead as [_ Hlt].
Qed.

(** An RHS edge between two common nodes: the loop over the common nodes
    fills the target-to-result table only, so the ends of the new edge are
    read from entries of the RHS-to-result table that were never assigned. *)
Example applyRule_edge_on_common_node :
  createRuleFromGraph (λ table, table) insert_rule_graph = Value insert_rule ∧
  findMatches (lhs_ insert_rule) insert_target = Returns [insert_match] ∧
  applyRule insert_rule insert_target insert_match
  = Some (mkGraph [sample_node "x"; sample_node "y"]
                  [sample_edge index_none index_none EmptyString] []).
Proof. repeat split; vm_compute; reflexivity. Qed.

(** Two LHS edges with the same label: the compiler throws and names it. *)
Example createRuleFromGraph_label_reused :
  createRuleFromGraph (λ table, table)
    (mkGraph [sample_node "x"; sample_node "y"]
             [sample_edge 1 0 "e"; sample_edge 0 1 "e"]
             [mkSubgraph "L" {[0; 1]} {[0; 1]}; mkSubgraph "R" {[0; 1]} ∅])
  = RuntimeError (label_reused_error "e" "LHS").
Proof. vm_compute. reflexivity. Qed.

(** A path pattern has no match in a star: the edge test prunes them all. *)
Example findMatches_path_in_star :
  findMatches
    (mkGraph [sample_node EmptyString; sample_node EmptyString; sample_node EmptyString]
             [sample_edge 1 0 EmptyString; sample_edge 2 1 EmptyString] [])
    (mkGraph [sample_node "c"; sample_node "p"; sample_node "q"; sample_node "r"]
             [sample_edge 1 0 EmptyString; sample_edge 2 0 EmptyString;
              sample_edge 3 0 EmptyString] [])
  = Returns [].
Proof. vm_compute. reflexivity. Qed.

(** ** The matcher on degenerate inputs *)

(** X1.  A target without nodes: the first entry under test is already past the
    end, the only frame is popped and the loop ends with no match.  The
    pattern is not looked at. *)
Theorem findMatches_empty_target pattern target :
  1 ≤ vsize (nodes_ pattern) →
  nodes_ target = [] →
  findMatches pattern target = Returns [].
Proof.
  intros Hn Ht. destruct target as [target_nodes target_edges target_subgraphs].
  simpl in Ht. subst target_nodes. unfold findMatches, fm_budget.
  rewrite bool_decide_eq_true_2 by done.
  by destruct (length (nodes_ pattern) - 1)%nat.
Qed.

Lemma findMatches_empty_target_witness :
  findMatches sample_pattern (mkGraph [] [] []) = Returns [].
Proof.
  apply (findMatches_empty_target sample_pattern (mkGraph [] [] [])).
  - vm_compute. done.
  - reflexivity.
Defined.

Lemma fill_edge_matches_in_range target pes : ∀ slots nm filled,
  fill_edge_matches target pes slots nm = Some filled →
  Forall (edge_in_range (vsize nm)) pes.
Proof.
  induction pes as [| pe pes IH]; intros slots nm filled; simpl; [constructor |].
  destruct slots as [| slot slots]; [done |].
  destruct (vget nm (head_ pe)) as [j_head |] eqn:Hh; [| done]. simpl.
  destruct (vget nm (tail_ pe)) as [j_tail |] eqn:Ht; [| done]. simpl.
  destruct (fill_edge_matches target pes slots nm) as [rest |] eqn:Hrest; [| done].
  intros _. constructor; [| by apply (IH slots nm rest)].
  split; by eapply vget_lt.
Qed.

(** The loop records a match only after reading the image of both ends of
    every pattern edge. *)
Lemma fm_step_records pattern target s s' :
  fm_step pattern target s = Next s' →
  matches s' = matches s ∨ wf_graph pattern.
Proof.
  unfold fm_step. intros Hstep.
  destruct (partial_matches s) as [| pm below]; [done |].
  destruct (last (node_mapping_ pm)) as [j |]; [| done].
  destruct (bool_decide (vsize (nodes_ target) ≤ j)).
  { destruct below as [| parent rest].
    - injection Hstep as <-. by left.
    - destruct (incr_back parent); [| done]. injection Hstep as <-. by left. }
  destruct (vget (nodes_ pattern) _) as [pn |]; [| done].
  destruct (vget (nodes_ target) j) as [tn |]; [| done].
  assert (Hadv : ∀ r, match incr_back pm with
                      | Some pm' => Next (mkFmState (pm' :: below) (matches s))
                      | None => Fault
                      end = Next r → matches r = matches s).
  { intros r Hr. destruct (incr_back pm); [| done]. by injection Hr as <-. }
  cbv zeta in Hstep.
  destruct (bool_decide (node_label_ (node_attrs_ pn) ≠ EmptyString) &&
            bool_decide (node_label_ (node_attrs_ pn) ≠ node_label_ (node_attrs_ tn))).
  { left. by apply Hadv. }
  destruct (edge_fail target (edges_ pattern) (node_mapping_ pm) _ j) as [[|] |];
    [left; by apply Hadv | | done].
  destruct (bool_decide (vsize (node_mapping_ pm) = vsize (nodes_ pattern))) eqn:Hsize.
  - apply bool_decide_eq_true in Hsize.
    destruct (fill_edge_matches target (edges_ pattern) _ (node_mapping_ pm))
      as [filled |] eqn:Hfill; [| done].
    right. apply fill_edge_matches_in_range in Hfill.
    unfold wf_graph. by rewrite <- Hsize.
  - injection Hstep as <-. by left.
Qed.

Lemma fm_loop_records_nothing pattern target fuel : ∀ s,
  ¬ wf_graph pattern →
  matches s = [] →
  fm_loop pattern target fuel s = Undefined ∨
  fm_loop pattern target fuel s = Returns [] ∨
  fm_loop pattern target fuel s = Exhausted.
Proof.
  induction fuel as [| fuel IH]; intros s Hwf Hs; simpl; [auto |].
  destruct (fm_step pattern target s) as [s' | ms |] eqn:Hstep; [| | auto].
  - apply IH; [done |].
    destruct (fm_step_records pattern target s s' Hstep) as [-> | ?]; done.
  - right. left. unfold fm_step in Hstep.
    destruct (partial_matches s) as [| pm below].
    + injection Hstep as <-. by rewrite Hs.
    + destruct (last (node_mapping_ pm)); [| done].
      destruct (bool_decide _).
      * destruct below; [done |]. by destruct (incr_back _).
      * destruct (vget (nodes_ pattern) _); [| done].
        destruct (vget (nodes_ target) _); [| done]. cbv zeta in Hstep.
        destruct (_ && _); [by destruct (incr_back pm) |].
        destruct (edge_fail _ _ _ _ _) as [[|] |]; [by destruct (incr_back pm) | | done].
        destruct (bool_decide _); [| done].
        destruct (fill_edge_matches _ _ _ _); [| done]. by destruct (incr_back pm).
Qed.

(** X2.  A pattern with an edge that leaves its node list is never matched: the
    tests on the candidates skip the edge, but recording a match reads the
    image of its two ends, outside the node mapping.  The call is undefined
    as soon as an assignment passes the tests, and returns no match
    otherwise. *)
Theorem findMatches_ill_formed_pattern pattern target :
  ¬ wf_graph pattern →
  findMatches pattern target = Undefined ∨
  findMatches pattern target = Returns [].
Proof.
  intros Hwf. unfold findMatches. case_bool_decide as Hn; [| by left].
  destruct (fm_loop_records_nothing pattern target (fm_budget pattern target)
              fm_init Hwf eq_refl) as [? | [? | Hex]]; [by left | by right |].
  apply findMatches_not_exhausted in Hex; [done |]. unfold vsize in Hn. lia.
Qed.

Lemma findMatches_ill_formed_pattern_witness :
  findMatches (mkGraph [sample_node EmptyString] [sample_edge 1 0 EmptyString] [])
              sample_target = Undefined ∨
  findMatches (mkGraph [sample_node EmptyString] [sample_edge 1 0 EmptyString] [])
              sample_target = Returns [].
Proof.
  apply (findMatches_ill_formed_pattern
           (mkGraph [sample_node EmptyString] [sample_edge 1 0 EmptyString] [])
           sample_target).
  vm_decide.
Defined.

(** ** What the matcher reads *)

Lemma vget_fmap {A B} (f : A → B) (v : list A) i :
  vget (map f v) i = f <$> vget v i.
Proof.
  unfold vget, vsize. rewrite length_map.
  case_decide; [| done]. apply list_lookup_fmap.
Qed.

Section MatcherReads.
Variables pattern pattern' target target' : Graph.
Hypothesis pattern_labels : node_labels pattern = node_labels pattern'.
Hypothesis pattern_ends : edge_ends pattern = edge_ends pattern'.
Hypothesis target_labels : node_labels target = node_labels target'.
Hypothesis target_ends : edge_ends target = edge_ends target'.

Lemma same_labels_vsize g g' :
  node_labels g = node_labels g' → vsize (nodes_ g) = vsize (nodes_ g').
Proof.
  intros H. apply (f_equal length) in H. unfold node_labels in H.
  rewrite !length_map in H. unfold vsize. lia.
Qed.

Lemma same_labels_vget g g' i :
  node_labels g = node_labels g' →
  (λ node, node_label_ (node_attrs_ node)) <$> vget (nodes_ g) i
  = (λ node, node_label_ (node_attrs_ node)) <$> vget (nodes_ g') i.
Proof. intros H. rewrite <- !vget_fmap. by f_equal. Qed.

Lemma target_has_edge_ends j_head j_tail :
  target_has_edge target j_head j_tail = target_has_edge target' j_head j_tail.
Proof.
  unfold target_has_edge. revert target_ends. unfold edge_ends.
  generalize (edges_ target') as es'.
  induction (edges_ target) as [| e es IH]; intros [| e' es']; simpl; try done.
  intros [= Hh Ht Hes]. by rewrite Hh, Ht, (IH es').
Qed.

Lemma edge_fail_ends nm i j : ∀ pes pes',
  map (λ edge, (head_ edge, tail_ edge)) pes
  = map (λ edge, (head_ edge, tail_ edge)) pes' →
  edge_fail target pes nm i j = edge_fail target' pes' nm i j.
Proof.
  induction pes as [| pe pes IH]; intros [| pe' pes']; simpl; try done.
  intros [= Hh Ht Hes]. rewrite <- Hh, <- Ht, (IH pes' Hes).
  destruct (_ && _).
  { destruct (vget nm (tail_ pe)); [| done]. simpl. by rewrite target_has_edge_ends. }
  destruct (_ && _); [| done].
  destruct (vget nm (head_ pe)); [| done]. simpl. by rewrite target_has_edge_ends.
Qed.

Lemma collect_target_edges_ends j_head j_tail : ∀ tes tes' n,
  map (λ edge, (head_ edge, tail_ edge)) tes
  = map (λ edge, (head_ edge, tail_ edge)) tes' →
  collect_target_edges tes n j_head j_tail
  = collect_target_edges tes' n j_head j_tail.
Proof.
  induction tes as [| te tes IH]; intros [| te' tes'] n; simpl; try done.
  intros [= Hh Ht Hes]. by rewrite Hh, Ht, (IH tes' (n + 1) Hes).
Qed.

Lemma fill_edge_matches_ends nm : ∀ pes pes' slots,
  map (λ edge, (head_ edge, tail_ edge)) pes
  = map (λ edge, (head_ edge, tail_ edge)) pes' →
  fill_edge_matches target pes slots nm = fill_edge_matches target' pes' slots nm.
Proof.
  induction pes as [| pe pes IH]; intros [| pe' pes'] slots; simpl; try done.
  intros [= Hh Ht Hes]. destruct slots as [| slot slots]; [done |].
  rewrite <- Hh, <- Ht, (IH pes' slots Hes).
  destruct (vget nm (head_ pe)) as [j_head |]; [| done]. simpl.
  destruct (vget nm (tail_ pe)) as [j_tail |]; [| done]. simpl.
  by rewrite (collect_target_edges_ends j_head j_tail _ _ 0 target_ends).
Qed.

Lemma fm_step_reads s : fm_step pattern target s = fm_step pattern' target' s.
Proof.
  unfold fm_step.
  destruct (partial_matches s) as [| pm below]; [done |].
  destruct (last (node_mapping_ pm)) as [j |]; [| done].
  rewrite <- (same_labels_vsize target target' target_labels).
  rewrite <- (same_labels_vsize pattern pattern' pattern_labels).
  destruct (bool_decide (vsize (nodes_ target) ≤ j)); [done |].
  pose proof (same_labels_vget pattern pattern' (vsize (node_mapping_ pm) - 1)
                pattern_labels) as Hp.
  pose proof (same_labels_vget target target' j target_labels) as Ht.
  destruct (vget (nodes_ pattern) _) as [pn |], (vget (nodes_ pattern') _) as [pn' |];
    try done.
  destruct (vget (nodes_ target) j) as [tn |], (vget (nodes_ target') j) as [tn' |];
    try done.
  simpl in Hp, Ht. injection Hp as Hp. injection Ht as Ht.
  cbv zeta. rewrite <- Hp, <- Ht.
  rewrite (edge_fail_ends _ _ _ (edges_ pattern) (edges_ pattern') pattern_ends).
  rewrite (fill_edge_matches_ends _ (edges_ pattern) (edges_ pattern') _ pattern_ends).
  assert (Hlen : length (edges_ pattern) = length (edges_ pattern')).
  { apply (f_equal length) in pattern_ends. unfold edge_ends in pattern_ends.
    by rewrite !length_map in pattern_ends. }
  by rewrite Hlen.
Qed.

Lemma fm_loop_reads fuel : ∀ s,
  fm_loop pattern target fuel s = fm_loop pattern' target' fuel s.
Proof.
  induction fuel as [| fuel IH]; intros s; simpl; [done |].
  rewrite fm_step_reads. by destruct (fm_step pattern' target' s).
Qed.

End MatcherReads.

(** X3.  The matcher reads the labels of the nodes and the two ends of the edges,
    nothing else: node names, the other node attributes, edge labels and
    edge attributes, and subgraphs play no role.  Two patterns, and two
    targets, that agree on the labels of their nodes and the ends of their
    edges get the same matches. *)
Theorem findMatches_reads_labels_and_ends pattern pattern' target target' :
  node_labels pattern = node_labels pattern' →
  edge_ends pattern = edge_ends pattern' →
  node_labels target = node_labels target' →
  edge_ends target = edge_ends target' →
  findMatches pattern target = findMatches pattern' target'.
Proof.
  intros Hpl Hpe Htl Hte. unfold findMatches, fm_budget.
  rewrite <- (same_labels_vsize pattern pattern' Hpl).
  assert (Hn : length (nodes_ pattern) = length (nodes_ pattern')).
  { pose proof (same_labels_vsize pattern pattern' Hpl). unfold vsize in *. lia. }
  assert (Ht : length (nodes_ target) = length (nodes_ target')).
  { pose proof (same_labels_vsize target target' Htl). unfold vsize in *. lia. }
  rewrite <- Hn, <- Ht. case_bool_decide; [| done].
  by apply fm_loop_reads.
Qed.

Lemma findMatches_reads_labels_and_ends_witness :
  findMatches sample_pattern sample_target
  = findMatches
      (mkGraph (map (λ node, mkNode "renamed" (mkNodeAttributes
                                (node_label_ (node_attrs_ node)) "other"))
                    (nodes_ sample_pattern))
               (map (λ edge, mkEdge (head_ edge) (tail_ edge)
                               (mkEdgeAttributes "relabelled" "other"))
                    (edges_ sample_pattern))
               [mkSubgraph "L" ∅ ∅])
      sample_target.
Proof.
  apply (findMatches_reads_labels_and_ends sample_pattern _ sample_target sample_target);
    reflexivity.
Defined.

(** ** Matches under changes of the pattern and of the target *)

Lemma valid_assignment_weaken pattern pattern' target target' nm :
  asks_less pattern' pattern →
  offers_more target' target →
  valid_assignment pattern target nm →
  valid_assignment pattern' target' nm.
Proof.
  intros [Hnodes Hedges] [Htn Hte] (Hlen & Hlab & Hedge).
  split; [| split].
  - apply Forall2_length in Hnodes. lia.
  - intros i pn' Hpn'.
    destruct (Forall2_lookup_l _ _ _ _ _ Hnodes Hpn') as (pn & Hpn & Hrel).
    destruct (Hlab i pn Hpn) as (j & tn & Hj & Htn' & Hl).
    exists j, tn. rewrite Htn. split; [done |]. split; [done |].
    intros Hne. destruct Hrel as [? | Heq]; [done |]. rewrite Heq in *. by apply Hl.
  - intros pe Hpe.
    destruct (Hedge pe (Hedges pe Hpe)) as (jh & jt & te & Hh & Ht & Hin & Hends).
    exists jh, jt, te. split; [done |]. split; [done |]. split; [by apply Hte | done].
Qed.

(** X4.  Matching is monotone.  When the pattern is relaxed (labels blanked, edges
    dropped) and the target gets more edges, every node mapping matched
    before is matched again: the matcher never rejects an assignment because
    of an edge the target has and the pattern does not. *)
Theorem findMatches_monotone pattern pattern' target target' :
  wf_graph pattern →
  1 ≤ vsize (nodes_ pattern) →
  asks_less pattern' pattern →
  offers_more target' target →
  ∃ ms ms',
    findMatches pattern target = Returns ms ∧
    findMatches pattern' target' = Returns ms' ∧
    map node_mapping_ ms ⊆ map node_mapping_ ms'.
Proof.
  intros Hwf Hn Hless Hmore.
  assert (Hwf' : wf_graph pattern').
  { destruct Hless as [Hnodes Hedges]. unfold wf_graph, vsize.
    rewrite (Forall2_length _ _ _ Hnodes). apply Forall_forall. intros pe Hpe.
    by apply (proj1 (Forall_forall _ _) Hwf), Hedges. }
  assert (Hn' : 1 ≤ vsize (nodes_ pattern')).
  { destruct Hless as [Hnodes _]. unfold vsize in *.
    by rewrite (Forall2_length _ _ _ Hnodes). }
  eexists _, _. split; [by apply findMatches_returns |].
  split; [by apply findMatches_returns |].
  rewrite !node_mapping_complete. intros nm Hnm.
  apply (elem_of_extend_valid pattern' target' Hwf').
  apply (valid_assignment_weaken pattern pattern' target target'); [done | done |].
  by apply (elem_of_extend_valid pattern target Hwf).
Qed.

Lemma findMatches_monotone_witness :
  ∃ ms ms',
    findMatches sample_pattern sample_target = Returns ms ∧
    findMatches (mkGraph (map (λ _, sample_node EmptyString) (nodes_ sample_pattern))
                         [] [])
                (mkGraph (nodes_ sample_target)
                         (sample_edge 0 0 "loop" :: edges_ sample_target) [])
    = Returns ms' ∧
    map node_mapping_ ms ⊆ map node_mapping_ ms'.
Proof.
  apply (findMatches_monotone sample_pattern _ sample_target _).
  - vm_decide.
  - vm_compute. done.
  - split; [| by intros pe Hpe%elem_of_nil].
    simpl. repeat constructor.
  - split; [done |]. intros te Hte. by right.
Defined.

(** X5.  Every pattern matches itself: the assignment sending each node to its own
    position is among the matches of a pattern in itself. *)
Theorem findMatches_self pattern :
  wf_graph pattern →
  1 ≤ vsize (nodes_ pattern) →
  ∃ ms, findMatches pattern pattern = Returns ms ∧
        positions (nodes_ pattern) ∈ map node_mapping_ ms.
Proof.
  intros Hwf Hn. eexists. split; [by apply findMatches_returns |].
  rewrite node_mapping_complete. apply (elem_of_extend_valid pattern pattern Hwf).
  split; [by rewrite length_positions | split].
  - intros i pn Hpn. exists (Z.of_nat i), pn.
    pose proof (lookup_lt_Some _ _ _ Hpn) as Hi.
    split; [| split; [| done]].
    + rewrite <- (Nat2Z.id i) at 1. apply positions_lookup. unfold vsize. lia.
    + by rewrite vget_of_nat.
  - intros pe Hpe.
    destruct (proj1 (Forall_forall _ _) Hwf pe Hpe) as [Hh Ht].
    exists (head_ pe), (tail_ pe), pe.
    assert (Hpos : ∀ k, 0 ≤ k < vsize (nodes_ pattern) →
                     vget (positions (nodes_ pattern)) k = Some k).
    { intros k Hk. apply vget_Some. split; [lia |]. by apply positions_lookup. }
    rewrite !Hpos by done. done.
Qed.

Lemma findMatches_self_witness :
  ∃ ms, findMatches sample_pattern sample_pattern = Returns ms ∧
        positions (nodes_ sample_pattern) ∈ map node_mapping_ ms.
Proof.
  apply (findMatches_self sample_pattern).
  - vm_decide.
  - vm_compute. done.
Defined.

Lemma length_flat_map_const {A B} (f : A → list B) (k : nat) (l : list A) :
  (∀ x, x ∈ l → length (f x) = k) →
  length (flat_map f l) = (length l * k)%nat.
Proof.
  induction l as [| x l IH]; intros Hf; simpl; [done |].
  rewrite length_app, Hf by left. rewrite IH; [done |].
  intros y Hy. apply Hf. by right.
Qed.

Section MatcherUnconstrained.
Variables pattern target : Graph.
Hypothesis no_label :
  Forall (λ node, node_label_ (node_attrs_ node) = EmptyString) (nodes_ pattern).
Hypothesis no_edge : edges_ pattern = [].

Lemma unconstrained_wf : wf_graph pattern.
Proof. unfold wf_graph. rewrite no_edge. constructor. Qed.

Lemma unconstrained_accepts pre j :
  (length pre < length (nodes_ pattern))%nat →
  0 ≤ j < vsize (nodes_ target) →
  accepts pattern target (pre ++ [j]) = true.
Proof.
  intros Hpre Hj. apply (accepts_spec pattern target unconstrained_wf). split.
  - destruct (lookup_lt_is_Some_2 (nodes_ pattern) (length pre) Hpre) as [pn Hpn].
    destruct (vget_in_range (nodes_ target) j Hj) as [tn Htn].
    exists pn, tn. split; [done |]. split; [done |].
    intros Hne. destruct Hne.
    apply (proj1 (Forall_forall _ _) no_label). apply list_elem_of_lookup. by exists (length pre).
  - intros pe Hpe. rewrite no_edge in Hpe. by apply elem_of_nil in Hpe.
Qed.

Lemma unconstrained_extend d : ∀ pre,
  (length pre + d = length (nodes_ pattern))%nat →
  length (extend pattern target d pre) = (length (nodes_ target) ^ d)%nat.
Proof.
  induction d as [| d IH]; intros pre Hlen; [done |].
  cbn [extend]. rewrite (length_flat_map_const _ (length (nodes_ target) ^ d)%nat).
  - rewrite length_seqZ, Nat2Z.id. done.
  - intros j Hj. apply elem_of_seqZ in Hj.
    rewrite unconstrained_accepts; [| lia | unfold vsize; lia].
    apply IH. rewrite length_app. simpl. lia.
Qed.

End MatcherUnconstrained.

(** X6.  Matches need not be injective, and the matcher enumerates them all: a
    pattern of [n] nodes without labels and without edges is matched by
    every one of the [t ^ n] assignments of a target node to each pattern
    node, [t] the number of target nodes. *)
Theorem findMatches_unconstrained pattern target :
  1 ≤ vsize (nodes_ pattern) →
  Forall (λ node, node_label_ (node_attrs_ node) = EmptyString) (nodes_ pattern) →
  edges_ pattern = [] →
  ∃ ms, findMatches pattern target = Returns ms ∧
        length ms = (length (nodes_ target) ^ length (nodes_ pattern))%nat.
Proof.
  intros Hn Hlabel Hedge. eexists.
  split; [apply findMatches_returns; [by apply unconstrained_wf | done] |].
  rewrite length_map. by apply unconstrained_extend.
Qed.

Lemma findMatches_unconstrained_witness :
  ∃ ms, findMatches (mkGraph [sample_node EmptyString; sample_node EmptyString] [] [])
                    sample_target = Returns ms ∧
        length ms = (length (nodes_ sample_target) ^ 2)%nat.
Proof.
  apply (findMatches_unconstrained
           (mkGraph [sample_node EmptyString; sample_node EmptyString] [] [])
           sample_target).
  - vm_compute. done.
  - repeat constructor.
  - reflexivity.
Defined.

(** ** The graph returned by the applier, part by part *)

(** X7.  A match returned by the matcher never takes the applier outside a
    vector: for a well-formed rule and a target whose edges join its own
    nodes, [applyRule] returns a graph for every element of
    [findMatches (rule.lhs_, target)], injective or not. *)
Theorem applyRule_returns_on_matches rule target ms φ :
  rule_wf rule →
  wf_graph target →
  findMatches (lhs_ rule) target = Returns ms →
  φ ∈ ms →
  is_Some (applyRule rule target φ).
Proof.
  intros Hrule Htarget Hms Hφ. apply applyRule_defined; [done | done |].
  destruct Hrule as (_ & _ & _ & _ & Hlhs & _).
  by apply (findMatches_match_of _ _ ms).
Qed.

Lemma applyRule_returns_on_matches_witness :
  is_Some (applyRule twin_rule single_target twin_match).
Proof.
  apply (applyRule_returns_on_matches twin_rule single_target [twin_match] twin_match).
  - vm_decide.
  - vm_decide.
  - vm_compute. reflexivity.
  - by left.
Defined.

Lemma common_images_length rule φ imgs :
  common_images rule φ = Some imgs →
  vsize imgs = vsize (nodes_ (common_ rule)).
Proof.
  unfold common_images. intros H%mapM_Some_1%Forall2_length.
  rewrite length_positions in H. unfold vsize. lia.
Qed.

(** X8.  The node list of the result, as the three loops over the nodes build it:
    first the target nodes outside the image of the match, in target order;
    then, for each common node in turn, the target node it is matched to;
    then the RHS nodes outside the common interface, in RHS order.  Their
    number follows, whatever the match; no subgraph is carried over. *)
Theorem applyRule_nodes rule target φ result :
  applyRule rule target φ = Some result →
  ∃ imgs context kept fresh,
    common_images rule φ = Some imgs ∧
    nodes_ result = context ++ kept ++ fresh ∧
    Forall2 (λ x node, vget (nodes_ target) x = Some node)
            (context_nodes target φ) context ∧
    Forall2 (λ x node, vget (nodes_ target) x = Some node) imgs kept ∧
    Forall2 (λ x node, vget (nodes_ (rhs_ rule)) x = Some node)
            (fresh_nodes rule) fresh ∧
    vsize (nodes_ result)
    = vsize (context_nodes target φ) + vsize (nodes_ (common_ rule))
      + vsize (fresh_nodes rule) ∧
    subgraphs_ result = [].
Proof.
  intros (imgs & kept & ns & ns3 & es & es3 & t2 & r3 &
          Himgs & _ & Hns & Hns3 & _ & _ & ->)%applyRule_described.
  apply emit_nodes_spec in Hns as (ns0 & Hsrc & -> & _).
  apply emit_nodes_spec in Hns3 as (ns3' & Hsrc3 & Heq & _).
  apply app_inv_head in Heq as ->. simpl in *.
  apply Forall2_app_inv_l in Hsrc as (context & kept_nodes & Hc & Hk & ->).
  exists imgs, context, kept_nodes, ns3'.
  split; [done |]. split; [by rewrite <- app_assoc |].
  split; [done |]. split; [done |]. split; [done |]. split; [| done].
  rewrite <- (common_images_length rule φ imgs Himgs).
  unfold vsize. rewrite !length_app.
  rewrite (Forall2_length _ _ _ Hc), (Forall2_length _ _ _ Hk),
    (Forall2_length _ _ _ Hsrc3). lia.
Qed.

Lemma applyRule_nodes_witness :
  ∃ imgs context kept fresh,
    common_images twin_rule twin_match = Some imgs ∧
    nodes_ (mkGraph [sample_node "c"; sample_node "c"] [] [])
    = context ++ kept ++ fresh ∧
    Forall2 (λ x node, vget (nodes_ single_target) x = Some node)
            (context_nodes single_target twin_match) context ∧
    Forall2 (λ x node, vget (nodes_ single_target) x = Some node) imgs kept ∧
    Forall2 (λ x node, vget (nodes_ (rhs_ twin_rule)) x = Some node)
            (fresh_nodes twin_rule) fresh ∧
    vsize (nodes_ (mkGraph [sample_node "c"; sample_node "c"] [] []))
    = vsize (context_nodes single_target twin_match)
      + vsize (nodes_ (common_ twin_rule)) + vsize (fresh_nodes twin_rule) ∧
    subgraphs_ (mkGraph [sample_node "c"; sample_node "c"] [] []) = [].
Proof.
  apply (applyRule_nodes twin_rule single_target twin_match).
  vm_compute. reflexivity.
Defined.

(** X9.  The edge list of the result: the target edges outside the image of the
    match, in target order; then, for each common edge in turn, the target
    edges listed for its LHS edge; then the RHS edges outside the common
    interface.  Every edge keeps the attributes of the edge it is copied
    from, so an edge kept through the common interface has the attributes of
    the target edge, not those of its twin in the RHS. *)
Theorem applyRule_edges rule target φ result :
  applyRule rule target φ = Some result →
  ∃ images context kept fresh,
    kept_edges rule φ = Some images ∧
    edges_ result = context ++ kept ++ fresh ∧
    Forall2 (λ m edge, ∃ target_edge, vget (edges_ target) m = Some target_edge ∧
                         edge_attrs_ edge = edge_attrs_ target_edge)
            (context_edges target φ) context ∧
    Forall2 (λ m edge, ∃ target_edge, vget (edges_ target) m = Some target_edge ∧
                         edge_attrs_ edge = edge_attrs_ target_edge)
            images kept ∧
    Forall2 (λ m edge, ∃ rhs_edge, vget (edges_ (rhs_ rule)) m = Some rhs_edge ∧
                         edge_attrs_ edge = edge_attrs_ rhs_edge)
            (fresh_edges rule) fresh ∧
    vsize (edges_ result)
    = vsize (context_edges target φ) + vsize images + vsize (fresh_edges rule).
Proof.
  intros (imgs & images & ns & ns3 & es & es3 & t2 & r3 &
          _ & Himages & _ & _ & Hes & Hes3 & ->)%applyRule_described.
  apply emit_edges_spec in Hes as (es0 & Hsrc & ->).
  apply emit_edges_spec in Hes3 as (es3' & Hsrc3 & Heq).
  apply app_inv_head in Heq as ->. simpl in *.
  assert (Hattrs : ∀ src table ms es,
            Forall2 (λ m edge, ∃ src_edge, vget src m = Some src_edge ∧
                                 translate_edge table src_edge = Some edge) ms es →
            Forall2 (λ m edge, ∃ src_edge, vget src m = Some src_edge ∧
                                 edge_attrs_ edge = edge_attrs_ src_edge) ms es).
  { intros src table ms0 es1 H. eapply Forall2_impl; [exact H |].
    intros m edge (se & Hse & (h & t & _ & _ & ->)%translate_edge_Some).
    by exists se. }
  apply Hattrs in Hsrc, Hsrc3.
  apply Forall2_app_inv_l in Hsrc as (context & kept & Hc & Hk & ->).
  exists images, context, kept, es3'.
  split; [done |]. split; [by rewrite <- app_assoc |].
  split; [done |]. split; [done |]. split; [done |].
  unfold vsize. rewrite !length_app.
  rewrite (Forall2_length _ _ _ Hc), (Forall2_length _ _ _ Hk),
    (Forall2_length _ _ _ Hsrc3). lia.
Qed.

Lemma applyRule_edges_witness :
  ∃ images context kept fresh,
    kept_edges keep_rule keep_match = Some images ∧
    edges_ (mkGraph [sample_node "z"; sample_node "x"; sample_node "y"]
                    [sample_edge 0 2 "r"; sample_edge 2 1 "p"; sample_edge 2 1 "q"] [])
    = context ++ kept ++ fresh ∧
    Forall2 (λ m edge, ∃ target_edge, vget (edges_ keep_host) m = Some target_edge ∧
                         edge_attrs_ edge = edge_attrs_ target_edge)
            (context_edges keep_host keep_match) context ∧
    Forall2 (λ m edge, ∃ target_edge, vget (edges_ keep_host) m = Some target_edge ∧
                         edge_attrs_ edge = edge_attrs_ target_edge)
            images kept ∧
    Forall2 (λ m edge, ∃ rhs_edge, vget (edges_ (rhs_ keep_rule)) m = Some rhs_edge ∧
                         edge_attrs_ edge = edge_attrs_ rhs_edge)
            (fresh_edges keep_rule) fresh ∧
    vsize (edges_ (mkGraph [sample_node "z"; sample_node "x"; sample_node "y"]
                    [sample_edge 0 2 "r"; sample_edge 2 1 "p"; sample_edge 2 1 "q"] []))
    = vsize (context_edges keep_host keep_match) + vsize images
      + vsize (fresh_edges keep_rule).
Proof.
  apply (applyRule_edges keep_rule keep_host keep_match).
  vm_compute. reflexivity.
Defined.

(** ** The ends of the edges of the result *)

Lemma vget_unassigned (n : nat) x v :
  vget (replicate n index_none) x = Some v → v = index_none.
Proof. intros [_ H]%vget_Some. by apply lookup_replicate in H as [-> _]. Qed.

Lemma last_index_Some xs x p :
  last_index xs x = Some p ↔ xs !! p = Some x ∧ x ∉ drop (S p) xs.
Proof.
  revert p. induction xs as [| y ys IH]; intros p; simpl.
  - split; [done | by intros [? _]].
  - destruct (last_index ys x) as [q |] eqn:Hq.
    + pose proof (proj1 (IH q) eq_refl) as [Hq1 Hq2]. split.
      * intros [= <-]. done.
      * intros [Hp Hnot]. destruct p as [| p].
        -- simpl in Hnot. destruct Hnot. rewrite drop_0.
           by apply list_elem_of_lookup_2 in Hq1.
        -- simpl in Hp, Hnot. by pose proof (proj2 (IH p) (conj Hp Hnot)) as [= ->].
    + assert (Hnone : x ∉ ys).
      { intros (q & Hq1 & Hq2)%last_occurrence.
        by pose proof (proj2 (IH q) (conj Hq1 Hq2)). }
      destruct (decide (y = x)) as [-> | Hne]; split.
      * intros [= <-]. simpl. by rewrite drop_0.
      * intros [Hp _]. destruct p as [| p]; [done |].
        simpl in Hp. by apply list_elem_of_lookup_2 in Hp.
      * done.
      * intros [Hp _]. destruct p as [| p]; simpl in Hp; [congruence |].
        by apply list_elem_of_lookup_2 in Hp.
Qed.

Lemma last_index_None xs x : last_index xs x = None ↔ x ∉ xs.
Proof.
  split.
  - intros Hnone (p & Hp & Hnot)%last_occurrence.
    pose proof (proj2 (last_index_Some xs x p) (conj Hp Hnot)). congruence.
  - intros Hnot. destruct (last_index xs x) as [p |] eqn:Hp; [| done].
    apply last_index_Some in Hp as [Hp _]. by apply list_elem_of_lookup_2 in Hp.
Qed.

(** The table that [emit_nodes] fills, entry by entry. *)
Lemma emit_nodes_entry src xs nodes table nodes' table' x v :
  emit_nodes src xs nodes table = Some (nodes', table') →
  vget table' x = Some v →
  vsize table' = vsize table ∧
  (x ∈ xs → v = emitted_at (vsize nodes) xs x) ∧
  (x ∉ xs → vget table x = Some v).
Proof.
  intros (ns & Hsrc & -> & Hsize & _ & Hother & Hlast)%emit_nodes_spec Hv.
  split; [done |]. split.
  - intros (p & Hp & Hnot)%last_occurrence.
    rewrite (Hlast p x Hp Hnot) in Hv. injection Hv as <-.
    unfold emitted_at. by rewrite (proj2 (last_index_Some xs x p) (conj Hp Hnot)).
  - intros Hnot. by rewrite <- (Hother x Hnot).
Qed.

Lemma emitted_at_unassigned (n : nat) first xs x v :
  x ∉ xs → vget (replicate n index_none) x = Some v → v = emitted_at first xs x.
Proof.
  intros Hnot Hv. apply vget_unassigned in Hv as ->.
  unfold emitted_at. by rewrite (proj2 (last_index_None xs x) Hnot).
Qed.

Section ResultEnds.
Variables (rule : Rule) (target : Graph) (φ : GraphMapping) (result : Graph).
Hypothesis applied : applyRule rule target φ = Some result.

(** The edges of the result and the two tables their ends went through. *)
Lemma applyRule_tables :
  ∃ imgs kept t2 r3 es es3,
    common_images rule φ = Some imgs ∧
    kept_edges rule φ = Some kept ∧
    edges_ result = es ++ es3 ∧
    Forall2 (λ m edge, ∃ src_edge, vget (edges_ target) m = Some src_edge ∧
                         translate_edge t2 src_edge = Some edge)
            (context_edges target φ ++ kept) es ∧
    Forall2 (λ m edge, ∃ src_edge, vget (edges_ (rhs_ rule)) m = Some src_edge ∧
                         translate_edge r3 src_edge = Some edge)
            (fresh_edges rule) es3 ∧
    (∀ x v, vget t2 x = Some v →
       0 ≤ x < vsize (nodes_ target) ∧
       v = emitted_at 0 (context_nodes target φ ++ imgs) x) ∧
    (∀ x v, vget r3 x = Some v →
       0 ≤ x < vsize (nodes_ (rhs_ rule)) ∧
       v = emitted_at (vsize (context_nodes target φ) + vsize (nodes_ (common_ rule)))
                      (fresh_nodes rule) x).
Proof.
  destruct (applyRule_described rule target φ result applied)
    as (imgs & kept & ns & ns3 & es & es3 & t2 & r3 &
        Himgs & Hkept & Hns & Hns3 & Hes & Hes3 & ->).
  exists imgs, kept, t2, r3, es, es3. simpl.
  split; [done |]. split; [done |]. split; [done |].
  apply emit_edges_spec in Hes as (es0 & Hsrc & ->).
  apply emit_edges_spec in Hes3 as (es3' & Hsrc3 & Heq).
  apply app_inv_head in Heq as ->. simpl.
  split; [done |]. split; [done |].
  assert (Hlen : vsize ns
                 = vsize (context_nodes target φ) + vsize (nodes_ (common_ rule))).
  { apply emit_nodes_spec in Hns as (ns0 & Hsrc0 & -> & _). simpl.
    apply Forall2_length in Hsrc0. rewrite length_app in Hsrc0.
    unfold common_images in Himgs. apply mapM_Some_1, Forall2_length in Himgs.
    rewrite length_positions in Himgs. unfold vsize. lia. }
  split.
  - intros x v Hv.
    destruct (emit_nodes_entry _ _ _ _ _ _ x v Hns Hv) as (Hsize & Hin & Hout).
    split.
    + apply vget_lt in Hv. rewrite Hsize in Hv. unfold vsize in *.
      by rewrite length_replicate in Hv.
    + destruct (decide (x ∈ context_nodes target φ ++ imgs)) as [Hx | Hx].
      * by apply Hin.
      * eapply emitted_at_unassigned; [done |]. by apply Hout.
  - intros x v Hv.
    destruct (emit_nodes_entry _ _ _ _ _ _ x v Hns3 Hv) as (Hsize & Hin & Hout).
    split.
    + apply vget_lt in Hv. rewrite Hsize in Hv. unfold vsize in *.
      by rewrite length_replicate in Hv.
    + rewrite <- Hlen. destruct (decide (x ∈ fresh_nodes rule)) as [Hx | Hx].
      * by apply Hin.
      * eapply emitted_at_unassigned; [done |]. by apply Hout.
Qed.

End ResultEnds.

(** X10.  The applier does not check the gluing condition.  A target edge
    that it copies (an edge outside the image of the match, or listed for a
    common edge) keeps its attributes, and each of its ends becomes the
    position at which the node of that end was pushed into the result, the
    last time it was: its place among the target nodes outside the image of
    the match, or the number of these plus the index of the last common node
    matched to it.  An end on a node that does not survive, a target node in
    the image of the match that no common node is matched to, becomes the
    value of [-1]. *)
Theorem applyRule_copied_edge rule target φ result (p : nat) m target_edge :
  applyRule rule target φ = Some result →
  (context_edges target φ ++ default [] (kept_edges rule φ)) !! p = Some m →
  vget (edges_ target) m = Some target_edge →
  ∃ edge,
    edges_ result !! p = Some edge ∧
    edge_attrs_ edge = edge_attrs_ target_edge ∧
    head_ edge
    = emitted_at 0 (context_nodes target φ ++ default [] (common_images rule φ))
                 (head_ target_edge) ∧
    tail_ edge
    = emitted_at 0 (context_nodes target φ ++ default [] (common_images rule φ))
                 (tail_ target_edge) ∧
    (¬ survives rule φ (head_ target_edge) → head_ edge = index_none) ∧
    (¬ survives rule φ (tail_ target_edge) → tail_ edge = index_none).
Proof.
  intros Happly Hp Hm.
  destruct (applyRule_tables rule target φ result Happly)
    as (imgs & kept & t2 & r3 & es & es3 & Himgs & Hkept & Hedges & Hes & _ & Ht2 & _).
  rewrite Hkept in Hp. rewrite Himgs. simpl in *.
  destruct (Forall2_lookup_l _ _ _ _ _ Hes Hp) as (edge & Hedge & te & Hte & Htr).
  assert (te = target_edge) as -> by congruence.
  apply translate_edge_Some in Htr as (h & t & Hh & Ht & ->).
  exists (mkEdge h t (edge_attrs_ target_edge)).
  rewrite Hedges. split; [by apply lookup_app_l_Some |]. split; [done |]. simpl.
  destruct (Ht2 _ _ Hh) as [Hhr ->]. destruct (Ht2 _ _ Ht) as [Htr ->].
  split; [done |]. split; [done |].
  assert (Hgone : ∀ x, ¬ survives rule φ x →
            emitted_at 0 (context_nodes target φ ++ imgs) x = index_none).
  { intros x Hx. unfold emitted_at.
    rewrite (proj2 (last_index_None _ x)); [done |].
    intros Hin. apply Hx. unfold survives. rewrite Himgs. simpl.
    apply elem_of_app in Hin as [Hin | Hin]; [left | by right].
    unfold context_nodes in Hin. apply list_elem_of_filter in Hin as [Hin _].
    unfold target_nodes_in_lhs in Hin. by rewrite elem_of_list_to_set in Hin. }
  split; apply Hgone.
Qed.

Lemma applyRule_copied_edge_witness :
  ∃ edge,
    edges_ swap_result !! 0%nat = Some edge ∧
    edge_attrs_ edge = edge_attrs_ (sample_edge 0 2 "za") ∧
    head_ edge
    = emitted_at 0 (context_nodes swap_host swap_match
                    ++ default [] (common_images swap_rule swap_match))
                 (head_ (sample_edge 0 2 "za")) ∧
    tail_ edge
    = emitted_at 0 (context_nodes swap_host swap_match
                    ++ default [] (common_images swap_rule swap_match))
                 (tail_ (sample_edge 0 2 "za")) ∧
    (¬ survives swap_rule swap_match (head_ (sample_edge 0 2 "za")) →
     head_ edge = index_none) ∧
    (¬ survives swap_rule swap_match (tail_ (sample_edge 0 2 "za")) →
     tail_ edge = index_none).
Proof.
  apply (applyRule_copied_edge swap_rule swap_host swap_match swap_result 0 1).
  - vm_compute. reflexivity.
  - reflexivity.
  - reflexivity.
Defined.

(** X11.  The loop over the common nodes records the position of a kept node
    in the table of the target, never in the table of the RHS.  An RHS edge
    outside the common interface is added after the edges copied from the
    target, with its attributes; each of its ends becomes the position at
    which the loop over the RHS nodes pushed the node of that end, which is
    the number of nodes pushed before that loop plus the place of the node
    among the RHS nodes outside the common interface.  An end on a common
    node becomes the value of [-1]. *)
Theorem applyRule_fresh_edge rule target φ result (p : nat) m rhs_edge :
  applyRule rule target φ = Some result →
  fresh_edges rule !! p = Some m →
  vget (edges_ (rhs_ rule)) m = Some rhs_edge →
  ∃ edge,
    edges_ result !! (length (context_edges target φ)
                      + length (default [] (kept_edges rule φ)) + p)%nat
    = Some edge ∧
    edge_attrs_ edge = edge_attrs_ rhs_edge ∧
    head_ edge
    = emitted_at (vsize (context_nodes target φ) + vsize (nodes_ (common_ rule)))
                 (fresh_nodes rule) (head_ rhs_edge) ∧
    tail_ edge
    = emitted_at (vsize (context_nodes target φ) + vsize (nodes_ (common_ rule)))
                 (fresh_nodes rule) (tail_ rhs_edge) ∧
    (head_ rhs_edge ∈ node_mapping_ (common_to_rhs_ rule) → head_ edge = index_none) ∧
    (tail_ rhs_edge ∈ node_mapping_ (common_to_rhs_ rule) → tail_ edge = index_none).
Proof.
  intros Happly Hp Hm.
  destruct (applyRule_tables rule target φ result Happly)
    as (imgs & kept & t2 & r3 & es & es3 & _ & Hkept & Hedges & Hes & Hes3 & _ & Hr3).
  rewrite Hkept. simpl.
  destruct (Forall2_lookup_l _ _ _ _ _ Hes3 Hp) as (edge & Hedge & re & Hre & Htr).
  assert (re = rhs_edge) as -> by congruence.
  apply translate_edge_Some in Htr as (h & t & Hh & Ht & ->).
  exists (mkEdge h t (edge_attrs_ rhs_edge)). rewrite Hedges.
  split.
  { rewrite <- length_app, (Forall2_length _ _ _ Hes).
    by rewrite lookup_app_r, Nat.add_sub' by lia. }
  split; [done |]. simpl.
  destruct (Hr3 _ _ Hh) as [Hhr ->]. destruct (Hr3 _ _ Ht) as [Htr ->].
  split; [done |]. split; [done |].
  assert (Hcommon : ∀ first x, x ∈ node_mapping_ (common_to_rhs_ rule) →
            emitted_at first (fresh_nodes rule) x = index_none).
  { intros first x Hx. unfold emitted_at.
    rewrite (proj2 (last_index_None _ x)); [done |].
    unfold fresh_nodes. intros [Hf _]%list_elem_of_filter. apply Hf.
    unfold rhs_nodes_in_common. by apply elem_of_list_to_set. }
  split; apply Hcommon.
Qed.

Lemma applyRule_fresh_edge_witness :
  ∃ edge,
    edges_ swap_result
      !! (length (context_edges swap_host swap_match)
          + length (default [] (kept_edges swap_rule swap_match)) + 0)%nat
    = Some edge ∧
    edge_attrs_ edge = edge_attrs_ (sample_edge 1 1 EmptyString) ∧
    head_ edge
    = emitted_at (vsize (context_nodes swap_host swap_match)
                  + vsize (nodes_ (common_ swap_rule)))
                 (fresh_nodes swap_rule) (head_ (sample_edge 1 1 EmptyString)) ∧
    tail_ edge
    = emitted_at (vsize (context_nodes swap_host swap_match)
                  + vsize (nodes_ (common_ swap_rule)))
                 (fresh_nodes swap_rule) (tail_ (sample_edge 1 1 EmptyString)) ∧
    (head_ (sample_edge 1 1 EmptyString) ∈ node_mapping_ (common_to_rhs_ swap_rule) →
     head_ edge = index_none) ∧
    (tail_ (sample_edge 1 1 EmptyString) ∈ node_mapping_ (common_to_rhs_ swap_rule) →
     tail_ edge = index_none).
Proof.
  apply (applyRule_fresh_edge swap_rule swap_host swap_match swap_result 0 0).
  - vm_compute. reflexivity.
  - reflexivity.
  - reflexivity.
Defined.

(** ** The translation tables of the rule compiler *)

(** An invariant of the iterations done holds at the end of a loop that ends
    normally; each iteration may rely on its place in the loop. *)
Lemma for_each_thrown_invariant_at {S I} (body : S → I → thrown S)
    (inv : list I → S → Prop) ixs s s' :
  inv [] s →
  (∀ done i rest s0 s1, ixs = done ++ i :: rest →
     inv done s0 → body s0 i = Value s1 → inv (done ++ [i]) s1) →
  for_each_thrown body ixs s = Value s' →
  inv ixs s'.
Proof.
  intros Hinit Hstep.
  assert (H : ∀ suf pre s0, ixs = pre ++ suf → inv pre s0 →
                for_each_thrown body suf s0 = Value s' → inv ixs s').
  { induction suf as [| i suf IH]; intros pre s0 Hsplit Hinv; simpl.
    - intros [= <-]. rewrite app_nil_r in Hsplit. by subst.
    - destruct (body s0 i) as [s1 | |] eqn:Hbody; [| done | done]. simpl.
      apply (IH (pre ++ [i])); [by rewrite <- app_assoc |].
      by apply (Hstep pre i suf s0 s1). }
  by apply (H ixs [] s).
Qed.

Lemma side_position_succ (side : gset Z) i :
  0 ≤ i →
  side_position side (i + 1)
  = side_position side i + (if decide (i ∈ side) then 1 else 0).
Proof.
  intros Hi. unfold side_position.
  replace (i + 1) with (Z.of_nat (S (Z.to_nat i))) by lia.
  rewrite seqZ_S, filter_snoc, vsize_app, !Z2Nat.id by lia.
  rewrite Z.add_0_l. by destruct (decide (i ∈ side)).
Qed.

Lemma side_position_nonneg (side : gset Z) i : 0 ≤ side_position side i.
Proof. unfold side_position, vsize. lia. Qed.

Lemma side_position_mono (side : gset Z) i k :
  0 ≤ i ≤ k → side_position side i ≤ side_position side k.
Proof.
  intros Hik. unfold side_position.
  replace k with (i + (k - i)) by lia.
  rewrite seqZ_app, filter_app, vsize_app by lia. unfold vsize. lia.
Qed.

(** A node of a side stands before the end of the list of that side. *)
Lemma side_position_lt (side : gset Z) i k :
  0 ≤ i < k → i ∈ side → side_position side i < side_position side k.
Proof.
  intros Hik Hi.
  pose proof (side_position_mono side (i + 1) k ltac:(lia)) as Hmono.
  rewrite side_position_succ, decide_True in Hmono by (done || lia). lia.
Qed.

Section CompilerTables.
Variables (graph : Graph) (lhs_subgraph rhs_subgraph : Subgraph).

Lemma node_tables_step i s s' :
  0 ≤ i →
  node_tables_as graph lhs_subgraph rhs_subgraph i s →
  split_node graph lhs_subgraph rhs_subgraph s i = Value s' →
  node_tables_as graph lhs_subgraph rhs_subgraph (i + 1) s'.
Proof.
  intros Hi0 (Htl & Htr & Htc & HnL & HnR & HtL & HtR & HcL & HcR) Hbody.
  pose proof (split_node_Value _ _ _ _ _ _ Hbody) as Hi.
  destruct (split_node_cases graph lhs_subgraph rhs_subgraph s i Hi Htl Htr Htc)
    as (node & Hnode & Hcases).
  rewrite Hcases in Hbody. clear Hcases.
  assert (Hkeep : ∀ (side : gset Z) (table : list Z),
            vsize table = vsize (nodes_ graph) →
            (∀ x, 0 ≤ x < vsize (nodes_ graph) →
               vget table x = Some (if decide (x < i) then side_entry side x
                                    else index_none)) →
            i ∉ side →
            ∀ x, 0 ≤ x < vsize (nodes_ graph) →
              vget table x = Some (if decide (x < i + 1) then side_entry side x
                                   else index_none)).
  { intros side table Hsize Htable Hout x Hx. rewrite (Htable x Hx).
    destruct (decide (x < i)), (decide (x < i + 1)); try done; try lia.
    assert (x = i) as -> by lia. unfold side_entry. by rewrite decide_False. }
  assert (Hput : ∀ (side : gset Z) (table : list Z),
            vsize table = vsize (nodes_ graph) →
            (∀ x, 0 ≤ x < vsize (nodes_ graph) →
               vget table x = Some (if decide (x < i) then side_entry side x
                                    else index_none)) →
            i ∈ side →
            ∀ x, 0 ≤ x < vsize (nodes_ graph) →
              vget (<[Z.to_nat i := side_position side i]> table) x
              = Some (if decide (x < i + 1) then side_entry side x
                      else index_none)).
  { intros side table Hsize Htable Hin x Hx.
    rewrite vget_insert by lia. destruct (decide (i = x)) as [<- | Hne].
    - rewrite decide_True by lia. unfold side_entry. by rewrite decide_True.
    - rewrite (Htable x Hx).
      destruct (decide (x < i)), (decide (x < i + 1)); try done; lia. }
  assert (Hgrow : ∀ (nodes : list Node) (vs : list Z) (cs : list Node),
            Forall2 (λ v c, vget nodes v = Some c) vs cs →
            Forall2 (λ v c, vget (nodes ++ [node]) v = Some c) vs cs).
  { intros nodes vs cs H. eapply Forall2_impl; [exact H |]. simpl.
    intros v c Hv. rewrite vget_app_l; [done |]. apply vget_lt in Hv. lia. }
  unfold node_tables_as. rewrite !side_position_succ by done.
  destruct (bool_decide (i ∈ subgraph_nodes_ lhs_subgraph)) eqn:EL;
    destruct (bool_decide (i ∈ subgraph_nodes_ rhs_subgraph)) eqn:ER;
    [apply bool_decide_eq_true in EL, ER
    | apply bool_decide_eq_true in EL; apply bool_decide_eq_false in ER
    | apply bool_decide_eq_false in EL; apply bool_decide_eq_true in ER
    | done];
    injection Hbody as <-; simpl;
    rewrite ?(decide_True (P := i ∈ subgraph_nodes_ lhs_subgraph)) by done;
    rewrite ?(decide_False (P := i ∈ subgraph_nodes_ lhs_subgraph)) by done;
    rewrite ?(decide_True (P := i ∈ subgraph_nodes_ rhs_subgraph)) by done;
    rewrite ?(decide_False (P := i ∈ subgraph_nodes_ rhs_subgraph)) by done;
    rewrite ?vsize_insert, ?vsize_app, ?vsize_singleton, ?HnL, ?HnR, ?Z.add_0_r.
  - split; [done |]. split; [done |]. split; [done |].
    split; [done |]. split; [done |].
    split; [by apply Hput |]. split; [by apply Hput |].
    split; (apply Forall2_snoc; [by apply Hgrow |]).
    + rewrite <- HnL. apply vget_snoc.
    + rewrite <- HnR. apply vget_snoc.
  - split; [done |]. split; [done |]. split; [done |].
    split; [done |]. split; [done |].
    split; [by apply Hput |]. split; [by apply Hkeep |].
    split; [by apply Hgrow | done].
  - split; [done |]. split; [done |]. split; [done |].
    split; [done |]. split; [done |].
    split; [by apply Hkeep |]. split; [by apply Hput |].
    split; [done | by apply Hgrow].
Qed.

(** The tables and the node mappings when the loop over the nodes ends
    normally. *)
Lemma node_tables_loop s' :
  for_each_thrown (split_node graph lhs_subgraph rhs_subgraph)
    (positions (nodes_ graph))
    (mkNodeSplit [] [] [] [] []
       (replicate (length (nodes_ graph)) index_none)
       (replicate (length (nodes_ graph)) index_none)
       (replicate (length (nodes_ graph)) index_none)) = Value s' →
  node_tables_as graph lhs_subgraph rhs_subgraph (vsize (nodes_ graph)) s'.
Proof.
  intros Hloop.
  apply (for_each_thrown_invariant_at _
           (λ done s, node_tables_as graph lhs_subgraph rhs_subgraph
                        (vsize done) s)) in Hloop.
  - simpl in Hloop. unfold vsize in Hloop at 1.
    rewrite length_positions in Hloop. exact Hloop.
  - unfold node_tables_as, vsize. simpl. rewrite !length_replicate.
    split; [done |]. split; [done |]. split; [done |].
    split; [done |]. split; [done |].
    assert (Hempty : ∀ (side : gset Z) i, 0 ≤ i < Z.of_nat (length (nodes_ graph)) →
              vget (replicate (length (nodes_ graph)) index_none) i
              = Some (if decide (i < 0) then side_entry side i else index_none)).
    { intros side i Hi. rewrite decide_False by lia. apply vget_Some.
      split; [lia |]. apply lookup_replicate. split; [done | lia]. }
    split; [apply Hempty |]. split; [apply Hempty |]. split; constructor.
  - intros before i rest s0 s1 Hsplit Hinv Hbody. simpl in *.
    apply positions_split in Hsplit as [-> Hi].
    rewrite vsize_app, vsize_singleton.
    assert (Hlen : vsize (seqZ 0 i) = i).
    { unfold vsize. rewrite length_seqZ. lia. }
    rewrite Hlen in *. apply (node_tables_step i s0 s1); [lia | done | done].
Qed.

End CompilerTables.

(** ** The rule returned by the compiler, continued *)

Section CompiledTables.
Variable traversal : label_table → label_table.
Variables (graph : Graph) (rule : Rule).
Hypothesis compiled : createRuleFromGraph traversal graph = Value rule.

Lemma compiled_rule_tables :
  ∃ lhs_subgraph rhs_subgraph ns es,
    side_subgraph "L" graph = Some lhs_subgraph ∧
    side_subgraph "R" graph = Some rhs_subgraph ∧
    nodes_split_as graph lhs_subgraph rhs_subgraph (positions (nodes_ graph)) ns ∧
    node_tables_as graph lhs_subgraph rhs_subgraph (vsize (nodes_ graph)) ns ∧
    edges_split_as graph lhs_subgraph rhs_subgraph ns (positions (edges_ graph)) es ∧
    lhs_ rule = mkGraph (lhs_nodes ns) (lhs_edges es) [] ∧
    rhs_ rule = mkGraph (rhs_nodes ns) (rhs_edges es) [] ∧
    nodes_ (common_ rule) = common_nodes ns ∧
    node_mapping_ (common_to_lhs_ rule) = common_to_lhs_nodes ns ∧
    node_mapping_ (common_to_rhs_ rule) = common_to_rhs_nodes ns.
Proof.
  destruct (side_subgraph "L" graph) as [lhs_subgraph |] eqn:HL.
  2: { rewrite (createRuleFromGraph_missing traversal graph (or_introl HL)) in compiled.
       done. }
  destruct (side_subgraph "R" graph) as [rhs_subgraph |] eqn:HR.
  2: { rewrite (createRuleFromGraph_missing traversal graph (or_intror HR)) in compiled.
       done. }
  rewrite (createRuleFromGraph_loops traversal graph _ _ HL HR) in compiled.
  destruct (for_each_thrown (split_node _ _ _) _ _) as [ns | |] eqn:Hns;
    simpl in compiled; [| done | done].
  destruct (for_each_thrown (split_edge _ _ _ _) _ _) as [es | |] eqn:Hes;
    simpl in compiled; [| done | done].
  injection compiled as <-.
  pose proof (node_tables_loop _ _ _ _ Hns) as Htables.
  apply split_node_loop in Hns. apply split_edge_loop in Hes.
  exists lhs_subgraph, rhs_subgraph, ns, es. simpl. done.
Qed.

End CompiledTables.

(** X12.  The common interface of a compiled rule, nodes: the two node mappings
    have one entry per common node and are strictly increasing, so they are
    injective and keep the order of the nodes; and a common node is the very
    node found at its image in the LHS and at its image in the RHS. *)
Theorem createRuleFromGraph_interface_nodes traversal graph rule :
  createRuleFromGraph traversal graph = Value rule →
  vsize (node_mapping_ (common_to_lhs_ rule)) = vsize (nodes_ (common_ rule)) ∧
  vsize (node_mapping_ (common_to_rhs_ rule)) = vsize (nodes_ (common_ rule)) ∧
  StronglySorted Z.lt (node_mapping_ (common_to_lhs_ rule)) ∧
  StronglySorted Z.lt (node_mapping_ (common_to_rhs_ rule)) ∧
  ∀ k node,
    vget (nodes_ (common_ rule)) k = Some node →
    ∃ lhs_node rhs_node,
      vget (node_mapping_ (common_to_lhs_ rule)) k = Some lhs_node ∧
      vget (nodes_ (lhs_ rule)) lhs_node = Some node ∧
      vget (node_mapping_ (common_to_rhs_ rule)) k = Some rhs_node ∧
      vget (nodes_ (rhs_ rule)) rhs_node = Some node.
Proof.
  intros (L & R & ns & es & _ & _ & Hns & Htables & _ & -> & -> & -> & -> & ->)
         %compiled_rule_tables.
  destruct Hns as (_ & _ & _ & _ & Hcl & Hcr & _ & _ & Hsl & Hsr & _).
  destruct Htables as (_ & _ & _ & _ & _ & _ & _ & HcL & HcR).
  split; [done |]. split; [done |]. split; [done |]. split; [done |]. simpl.
  intros k node Hk.
  apply Forall2_flip in HcL, HcR.
  destruct (vget_Forall2 _ _ _ _ _ HcL Hk) as (l & Hl & Hnl).
  destruct (vget_Forall2 _ _ _ _ _ HcR Hk) as (r & Hr & Hnr).
  by exists l, r.
Qed.

Lemma createRuleFromGraph_interface_nodes_witness :
  vsize (node_mapping_ (common_to_lhs_ swap_rule)) = vsize (nodes_ (common_ swap_rule)) ∧
  vsize (node_mapping_ (common_to_rhs_ swap_rule)) = vsize (nodes_ (common_ swap_rule)) ∧
  StronglySorted Z.lt (node_mapping_ (common_to_lhs_ swap_rule)) ∧
  StronglySorted Z.lt (node_mapping_ (common_to_rhs_ swap_rule)) ∧
  ∀ k node,
    vget (nodes_ (common_ swap_rule)) k = Some node →
    ∃ lhs_node rhs_node,
      vget (node_mapping_ (common_to_lhs_ swap_rule)) k = Some lhs_node ∧
      vget (nodes_ (lhs_ swap_rule)) lhs_node = Some node ∧
      vget (node_mapping_ (common_to_rhs_ swap_rule)) k = Some rhs_node ∧
      vget (nodes_ (rhs_ swap_rule)) rhs_node = Some node.
Proof.
  apply (createRuleFromGraph_interface_nodes (λ table, table) swap_rule_graph swap_rule).
  vm_compute. reflexivity.
Defined.

Lemma edges_renumbered_from graph side table ms emitted :
  (∀ i, 0 ≤ i < vsize (nodes_ graph) →
     vget table i = Some (side_entry (subgraph_nodes_ side) i)) →
  vsize table = vsize (nodes_ graph) →
  Forall2 (λ m edge, ∃ graph_edge, vget (edges_ graph) m = Some graph_edge ∧
                       translate_edge table graph_edge = Some edge) ms emitted →
  Forall2 (λ m edge,
             ∃ graph_edge,
               vget (edges_ graph) m = Some graph_edge ∧
               edge_in_range (vsize (nodes_ graph)) graph_edge ∧
               edge = mkEdge (side_entry (subgraph_nodes_ side) (head_ graph_edge))
                             (side_entry (subgraph_nodes_ side) (tail_ graph_edge))
                             (edge_attrs_ graph_edge)) ms emitted.
Proof.
  intros Htable Hsize H. eapply Forall2_impl; [exact H |]. simpl.
  intros m edge (ge & Hge & (h & t & Hh & Ht & ->)%translate_edge_Some).
  exists ge. split; [done |].
  pose proof (vget_lt _ _ _ Hh) as Hhr. pose proof (vget_lt _ _ _ Ht) as Htr.
  split; [unfold edge_in_range; lia |].
  rewrite Htable in Hh, Ht by lia. congruence.
Qed.

(** The sides of a compiled rule: their sizes and their edges. *)
Lemma compiled_rule_sides traversal graph rule :
  createRuleFromGraph traversal graph = Value rule →
  ∃ lhs_subgraph rhs_subgraph ns,
    side_subgraph "L" graph = Some lhs_subgraph ∧
    side_subgraph "R" graph = Some rhs_subgraph ∧
    (vsize (lhs_nodes ns)
     = side_position (subgraph_nodes_ lhs_subgraph) (vsize (nodes_ graph)) ∧
     vsize (rhs_nodes ns)
     = side_position (subgraph_nodes_ rhs_subgraph) (vsize (nodes_ graph))) ∧
    nodes_ (lhs_ rule) = lhs_nodes ns ∧
    nodes_ (rhs_ rule) = rhs_nodes ns ∧
    edges_renumbered graph lhs_subgraph (edges_ (lhs_ rule)) ∧
    edges_renumbered graph rhs_subgraph (edges_ (rhs_ rule)).
Proof.
  intros (L & R & ns & es & HL & HR & _ & Htables & Hes & -> & -> & _)
         %compiled_rule_tables.
  exists L, R, ns. split; [done |]. split; [done |].
  destruct Htables as (HsL & HsR & _ & HnL & HnR & HtL & HtR & _).
  destruct Hes as (HeL & HeR & _).
  assert (Hfinal : ∀ (side : gset Z) (table : list Z),
            (∀ i, 0 ≤ i < vsize (nodes_ graph) →
               vget table i = Some (if decide (i < vsize (nodes_ graph))
                                    then side_entry side i else index_none)) →
            ∀ i, 0 ≤ i < vsize (nodes_ graph) →
              vget table i = Some (side_entry side i)).
  { intros side table H i Hi. rewrite (H i Hi). by rewrite decide_True by lia. }
  split; [done |]. split; [done |]. split; [done |]. split; simpl.
  - apply (edges_renumbered_from graph L (graph_to_lhs_node ns)); [| done | done].
    by apply Hfinal.
  - apply (edges_renumbered_from graph R (graph_to_rhs_node ns)); [| done | done].
    by apply Hfinal.
Qed.

(** X13.  The ends of the edges of the two sides.  An edge put on a side has each
    end renumbered to the position its node has on that side, the number of
    nodes of the side before it in the annotated graph; an end on a node
    that is not on the side becomes the value of [-1], without an error. *)
Theorem createRuleFromGraph_edge_ends traversal graph rule :
  createRuleFromGraph traversal graph = Value rule →
  ∃ lhs_subgraph rhs_subgraph,
    side_subgraph "L" graph = Some lhs_subgraph ∧
    side_subgraph "R" graph = Some rhs_subgraph ∧
    edges_renumbered graph lhs_subgraph (edges_ (lhs_ rule)) ∧
    edges_renumbered graph rhs_subgraph (edges_ (rhs_ rule)).
Proof.
  intros (L & R & ns & HL & HR & _ & _ & _ & HeL & HeR)
         %compiled_rule_sides.
  by exists L, R.
Qed.

Lemma createRuleFromGraph_edge_ends_witness :
  ∃ lhs_subgraph rhs_subgraph,
    side_subgraph "L" swap_rule_graph = Some lhs_subgraph ∧
    side_subgraph "R" swap_rule_graph = Some rhs_subgraph ∧
    edges_renumbered swap_rule_graph lhs_subgraph (edges_ (lhs_ swap_rule)) ∧
    edges_renumbered swap_rule_graph rhs_subgraph (edges_ (rhs_ swap_rule)).
Proof.
  apply (createRuleFromGraph_edge_ends (λ table, table) swap_rule_graph swap_rule).
  vm_compute. reflexivity.
Defined.

Lemma side_size graph lhs_subgraph rhs_subgraph ns :
  node_tables_as graph lhs_subgraph rhs_subgraph (vsize (nodes_ graph)) ns →
  vsize (lhs_nodes ns)
  = side_position (subgraph_nodes_ lhs_subgraph) (vsize (nodes_ graph)) ∧
  vsize (rhs_nodes ns)
  = side_position (subgraph_nodes_ rhs_subgraph) (vsize (nodes_ graph)).
Proof. by intros (_ & _ & _ & HL & HR & _). Qed.

Lemma edges_renumbered_wf graph side (nodes : list Node) emitted :
  edges_on_side graph side →
  vsize nodes = side_position (subgraph_nodes_ side) (vsize (nodes_ graph)) →
  edges_renumbered graph side emitted →
  Forall (edge_in_range (vsize nodes)) emitted.
Proof.
  intros Hside Hsize Hemitted. apply Forall_forall. intros edge Hedge.
  apply list_elem_of_lookup in Hedge as [p Hp].
  destruct (Forall2_lookup_r _ _ _ _ _ Hemitted Hp)
    as (m & Hm & ge & Hge & Hrange & ->).
  apply list_elem_of_lookup_2, list_elem_of_filter in Hm as [Hin Hpos].
  pose proof (proj1 (Forall_forall _ _) Hside m Hpos) as Hon. cbv beta in Hon.
  rewrite Hge in Hon. destruct (Hon Hin) as [Hh Ht].
  destruct Hrange as [Hhr Htr].
  unfold edge_in_range, side_entry. simpl. rewrite !decide_True by done.
  rewrite Hsize.
  pose proof (side_position_nonneg (subgraph_nodes_ side) (head_ ge)).
  pose proof (side_position_nonneg (subgraph_nodes_ side) (tail_ ge)).
  pose proof (side_position_lt (subgraph_nodes_ side) (head_ ge) _ Hhr Hh).
  pose proof (side_position_lt (subgraph_nodes_ side) (tail_ ge) _ Htr Ht).
  lia.
Qed.

Lemma compiled_sides_wf traversal graph rule lhs_subgraph rhs_subgraph :
  side_subgraph "L" graph = Some lhs_subgraph →
  side_subgraph "R" graph = Some rhs_subgraph →
  edges_on_side graph lhs_subgraph →
  edges_on_side graph rhs_subgraph →
  createRuleFromGraph traversal graph = Value rule →
  wf_graph (lhs_ rule) ∧ wf_graph (rhs_ rule).
Proof.
  intros HL HR HonL HonR Hrule.
  destruct (compiled_rule_sides traversal graph rule Hrule)
    as (L & R & ns & HL' & HR' & Hsizes & HnL & HnR & HeL & HeR).
  assert (L = lhs_subgraph) as -> by congruence.
  assert (R = rhs_subgraph) as -> by congruence.
  destruct Hsizes as [HsL HsR]. unfold wf_graph. rewrite HnL, HnR. split.
  - by apply (edges_renumbered_wf graph lhs_subgraph).
  - by apply (edges_renumbered_wf graph rhs_subgraph).
Qed.

(** X14.  When every edge put on a side joins nodes of that side, the compiled rule
    is well formed: the edges of its two sides join nodes of their side, its
    node mappings are injective and in range, and each of its common edges
    is paired with one edge of either side. *)
Theorem createRuleFromGraph_well_formed traversal graph rule lhs_subgraph rhs_subgraph :
  (∀ table, traversal table ≡ₚ table) →
  side_subgraph "L" graph = Some lhs_subgraph →
  side_subgraph "R" graph = Some rhs_subgraph →
  edges_on_side graph lhs_subgraph →
  edges_on_side graph rhs_subgraph →
  createRuleFromGraph traversal graph = Value rule →
  rule_wf rule.
Proof.
  intros Hvisits HL HR HonL HonR Hrule.
  destruct (compiled_sides_wf traversal graph rule _ _ HL HR HonL HonR Hrule)
    as [HwL HwR].
  destruct (compiled_rule_mappings traversal Hvisits graph rule Hrule)
    as (HiL & HiR & HpL & HpR).
  unfold rule_wf. tauto.
Qed.

Lemma createRuleFromGraph_well_formed_witness : rule_wf swap_rule.
Proof.
  apply (createRuleFromGraph_well_formed (λ table, table) swap_rule_graph swap_rule
           (mkSubgraph "L" {[0; 1]} {[0]}) (mkSubgraph "R" {[0; 2]} {[1]})).
  - done.
  - reflexivity.
  - reflexivity.
  - vm_decide.
  - vm_decide.
  - vm_compute. reflexivity.
Defined.

(** ** Counting the nodes and edges of a compiled rule *)

Lemma filter_either_length {A} (P Q : A → Prop) `{∀ x, Decision (P x)}
    `{∀ x, Decision (Q x)} (l : list A) :
  Forall (λ x, P x ∨ Q x) l →
  (length (filter P l) + length (filter Q l)
   = length l + length (filter (λ x, P x ∧ Q x) l))%nat.
Proof.
  induction 1 as [| x l Hx _ IH]; [done |].
  rewrite !filter_cons.
  destruct (decide (P x)), (decide (Q x)), (decide (P x ∧ Q x)); simpl; tauto || lia.
Qed.

Lemma filter_one_length {A} (P Q : A → Prop) `{∀ x, Decision (P x)}
    `{∀ x, Decision (Q x)} (l : list A) :
  Forall (λ x, (P x ∧ ¬ Q x) ∨ (¬ P x ∧ Q x)) l →
  (length (filter P l) + length (filter Q l) = length l)%nat.
Proof.
  induction 1 as [| x l Hx _ IH]; [done |].
  rewrite !filter_cons.
  destruct (decide (P x)), (decide (Q x)); simpl; tauto || lia.
Qed.

(** X15.  The compiler splits the annotated graph without losing or repeating
    anything: every node goes to the LHS, to the RHS, or to both, in which
    case it is also a common node; every edge goes to exactly one side. *)
Theorem createRuleFromGraph_counts traversal graph rule :
  createRuleFromGraph traversal graph = Value rule →
  vsize (nodes_ (lhs_ rule)) + vsize (nodes_ (rhs_ rule))
  = vsize (nodes_ graph) + vsize (nodes_ (common_ rule)) ∧
  vsize (edges_ (lhs_ rule)) + vsize (edges_ (rhs_ rule)) = vsize (edges_ graph).
Proof.
  intros (L & R & ns & es & _ & _ & Hns & Hes & -> & -> & -> & _)%compiled_rule_parts.
  destruct Hns as (HnL & HnR & HnK & Hmem & _).
  destruct Hes as (HeL & HeR & _ & _ & _ & _ & Hone & _).
  apply Forall2_length in HnL, HnR, HnK, HeL, HeR. simpl. unfold vsize.
  pose proof (filter_either_length (λ i, i ∈ subgraph_nodes_ L)
                (λ i, i ∈ subgraph_nodes_ R) (positions (nodes_ graph)) Hmem) as Hnodes.
  pose proof (filter_one_length (λ m, m ∈ subgraph_edges_ L)
                (λ m, m ∈ subgraph_edges_ R) (positions (edges_ graph)) Hone) as Hedges.
  rewrite length_positions in Hnodes. rewrite length_positions in Hedges. lia.
Qed.

Lemma createRuleFromGraph_counts_witness :
  vsize (nodes_ (lhs_ swap_rule)) + vsize (nodes_ (rhs_ swap_rule))
  = vsize (nodes_ swap_rule_graph) + vsize (nodes_ (common_ swap_rule)) ∧
  vsize (edges_ (lhs_ swap_rule)) + vsize (edges_ (rhs_ swap_rule))
  = vsize (edges_ swap_rule_graph).
Proof.
  apply (createRuleFromGraph_counts (λ table, table) swap_rule_graph swap_rule).
  vm_compute. reflexivity.
Defined.

(** ** Which error the compiler reports *)

(** X16.  The nodes are checked before the edges, in the order of the graph: when
    a node is on no side, the error names the first such node, whatever the
    edges and their ends are. *)
Theorem createRuleFromGraph_first_error traversal graph lhs_subgraph rhs_subgraph
    i node :
  side_subgraph "L" graph = Some lhs_subgraph →
  side_subgraph "R" graph = Some rhs_subgraph →
  vget (nodes_ graph) i = Some node →
  i ∉ subgraph_nodes_ lhs_subgraph →
  i ∉ subgraph_nodes_ rhs_subgraph →
  (∀ i', 0 ≤ i' < i →
     i' ∈ subgraph_nodes_ lhs_subgraph ∨ i' ∈ subgraph_nodes_ rhs_subgraph) →
  createRuleFromGraph traversal graph = RuntimeError (node_neither_error node).
Proof.
  intros HL HR Hnode HiL HiR Hfirst.
  rewrite (createRuleFromGraph_loops traversal graph _ _ HL HR).
  pose proof (vget_lt _ _ _ Hnode) as Hi.
  destruct (for_each_thrown (split_node _ _ _) _ _) as [ns | what |] eqn:Hloop.
  - apply split_node_loop in Hloop as (_ & _ & _ & Hmem & _).
    apply elem_of_positions in Hi.
    by destruct (proj1 (Forall_forall _ _) Hmem i Hi).
  - destruct (for_each_thrown_stops _ _ _ _ Hloop)
      as (before & i0 & rest & s0 & Hsplit & Hdone & Hbody); [done |].
    apply positions_split in Hsplit as [-> Hi0].
    apply split_node_loop in Hdone
      as (_ & _ & _ & Hmem & _ & _ & _ & _ & _ & _ & Htl & Htr & Htc).
    destruct (split_node_cases graph lhs_subgraph rhs_subgraph s0 i0 Hi0 Htl Htr Htc)
      as (node0 & Hnode0 & Hcases).
    rewrite Hcases in Hbody.
    destruct (bool_decide (i0 ∈ subgraph_nodes_ lhs_subgraph)) eqn:EL;
      destruct (bool_decide (i0 ∈ subgraph_nodes_ rhs_subgraph)) eqn:ER; try done.
    apply bool_decide_eq_false in EL, ER. injection Hbody as <-. simpl.
    assert (i0 = i) as ->.
    { destruct (Z.lt_trichotomy i0 i) as [Hlt | [? | Hgt]]; [| done |].
      - destruct (Hfirst i0) as [? | ?]; [lia | done | done].
      - assert (Hin : i ∈ seqZ 0 i0) by (apply elem_of_seqZ; lia).
        by destruct (proj1 (Forall_forall _ _) Hmem i Hin). }
    congruence.
  - destruct (node_loop_outcome graph lhs_subgraph rhs_subgraph)
      as [(ns & Hns & _) | (i0 & node0 & _ & _ & _ & Hns)]; congruence.
Qed.

Lemma createRuleFromGraph_first_error_witness :
  createRuleFromGraph (λ table, table)
    (mkGraph [sample_node "a"; sample_node "b"; sample_node "c"]
             [sample_edge 7 7 "e"; sample_edge 7 7 "e"]
             [mkSubgraph "L" {[0]} {[0; 1]}; mkSubgraph "R" ∅ {[0]}])
  = RuntimeError (node_neither_error (sample_node "b")).
Proof.
  apply (createRuleFromGraph_first_error (λ table, table) _
           (mkSubgraph "L" {[0]} {[0; 1]}) (mkSubgraph "R" ∅ {[0]}) 1).
  - reflexivity.
  - reflexivity.
  - reflexivity.
  - vm_decide.
  - vm_decide.
  - intros i' Hi'. assert (i' = 0) as -> by lia. left. vm_decide.
Defined.

(** ** The common edges of a compiled rule *)

Section CompilerLabelTables.
Variables (graph : Graph) (lhs_subgraph rhs_subgraph : Subgraph) (ns : node_split).

(** [emplace] inserts a label once: no table holds a label twice. *)
Lemma label_tables_NoDup ixs s' :
  for_each_thrown (split_edge graph lhs_subgraph rhs_subgraph ns) ixs
                  (mkEdgeSplit [] [] [] []) = Value s' →
  NoDup (map fst (lhs_label_to_edge s')) ∧ NoDup (map fst (rhs_label_to_edge s')).
Proof.
  apply (for_each_thrown_invariant _
           (λ _ s, NoDup (map fst (lhs_label_to_edge s)) ∧
                   NoDup (map fst (rhs_label_to_edge s)))).
  - simpl. split; constructor.
  - intros _ m s0 s1 [HL HR] Hbody.
    assert (Hadd : ∀ (table : label_table) label k,
              NoDup (map fst table) → table_find table label = None →
              NoDup (map fst (table ++ [(label, k)]))).
    { intros table label k Hnd Hnone. rewrite map_app. simpl.
      apply NoDup_app. split; [done |]. split; [| apply NoDup_singleton].
      intros x Hx ->%list_elem_of_singleton. by apply table_find_None in Hnone. }
    apply split_edge_Value in Hbody as (edge & _ & Hcase). simpl in Hcase.
    destruct Hcase as [(_ & _ & le & _ & _ & _ & -> & [[_ ->] | (_ & Hnone & ->)])
                      | (_ & _ & re & _ & _ & _ & -> & [[_ ->] | (_ & Hnone & ->)])];
      split; try done; by apply Hadd.
Qed.

End CompilerLabelTables.

Lemma compiled_rule_interface traversal graph rule :
  createRuleFromGraph traversal graph = Value rule →
  NoDup (map fst (side_labels (edges_ (lhs_ rule)))) ∧
  NoDup (map fst (side_labels (edges_ (rhs_ rule)))) ∧
  let paired := paired_labels (side_labels (edges_ (rhs_ rule)))
                              (traversal (side_labels (edges_ (lhs_ rule)))) in
  edges_ (common_ rule)
  = map (λ entry, mkEdge 0 0 (mkEdgeAttributes (fst entry) EmptyString)) paired ∧
  edge_mapping_ (common_to_lhs_ rule) = map (λ entry, [snd entry]) paired ∧
  edge_mapping_ (common_to_rhs_ rule)
  = map (λ entry, [default 0 (table_find (side_labels (edges_ (rhs_ rule)))
                                         (fst entry))]) paired.
Proof.
  intros compiled.
  destruct (side_subgraph "L" graph) as [lhs_subgraph |] eqn:HL.
  2: { rewrite (createRuleFromGraph_missing traversal graph (or_introl HL)) in compiled.
       done. }
  destruct (side_subgraph "R" graph) as [rhs_subgraph |] eqn:HR.
  2: { rewrite (createRuleFromGraph_missing traversal graph (or_intror HR)) in compiled.
       done. }
  rewrite (createRuleFromGraph_loops traversal graph _ _ HL HR) in compiled.
  destruct (for_each_thrown (split_node _ _ _) _ _) as [ns | |] eqn:Hns;
    simpl in compiled; [| done | done].
  destruct (for_each_thrown (split_edge _ _ _ _) _ _) as [es | |] eqn:Hes;
    simpl in compiled; [| done | done].
  injection compiled as <-.
  pose proof (label_tables_NoDup _ _ _ _ _ _ Hes) as [HndL HndR].
  apply split_edge_loop in Hes as (_ & _ & HtL & HtR & _).
  rewrite pair_label_fold. simpl. rewrite HtL, HtR in *. done.
Qed.

Lemma side_labels_elem edges m edge :
  vget edges m = Some edge →
  edge_label_ (edge_attrs_ edge) ≠ EmptyString →
  (edge_label_ (edge_attrs_ edge), m) ∈ side_labels edges.
Proof.
  intros [Hm Hedge]%vget_Some Hne. unfold side_labels.
  apply list_elem_of_filter. split; [done |].
  apply list_elem_of_lookup. exists (Z.to_nat m).
  rewrite list_lookup_imap, Hedge. simpl. by rewrite Z2Nat.id.
Qed.

Lemma table_entry_unique (table : label_table) label m m' :
  NoDup (map fst table) → (label, m) ∈ table → (label, m') ∈ table → m = m'.
Proof.
  induction table as [| [l k] table IH]; simpl; [by intros _ ?%elem_of_nil |].
  intros [Hnot Hnd]%NoDup_cons [Heq | Hin]%elem_of_cons [Heq' | Hin']%elem_of_cons.
  - congruence.
  - injection Heq as -> ->. destruct Hnot.
    apply (list_elem_of_fmap_2 fst) in Hin'. done.
  - injection Heq' as -> ->. destruct Hnot.
    apply (list_elem_of_fmap_2 fst) in Hin. done.
  - by apply IH.
Qed.

Lemma table_find_entry (table : label_table) label m :
  NoDup (map fst table) → (label, m) ∈ table → table_find table label = Some m.
Proof.
  intros Hnd Hin.
  destruct (table_find table label) as [m' |] eqn:Hfind.
  - apply table_find_Some in Hfind. f_equal.
    by apply (table_entry_unique table label).
  - apply table_find_None in Hfind. destruct Hfind.
    by apply (list_elem_of_fmap_2 fst) in Hin.
Qed.

(** X17.  The common interface of a compiled rule, edges: there is one common edge
    for each non-empty label borne by an LHS edge and by an RHS edge, it
    bears that label and is mapped to these two edges; its ends are the
    bogus index 0.  Edges without a label are never common. *)
Theorem createRuleFromGraph_interface_edges traversal graph rule :
  (∀ table, traversal table ≡ₚ table) →
  createRuleFromGraph traversal graph = Value rule →
  NoDup (map (λ edge, edge_label_ (edge_attrs_ edge)) (edges_ (common_ rule))) ∧
  (∀ k common_edge,
     vget (edges_ (common_ rule)) k = Some common_edge →
     head_ common_edge = 0 ∧ tail_ common_edge = 0 ∧
     edge_label_ (edge_attrs_ common_edge) ≠ EmptyString ∧
     ∃ l r lhs_edge rhs_edge,
       vget (edge_mapping_ (common_to_lhs_ rule)) k = Some [l] ∧
       vget (edge_mapping_ (common_to_rhs_ rule)) k = Some [r] ∧
       vget (edges_ (lhs_ rule)) l = Some lhs_edge ∧
       vget (edges_ (rhs_ rule)) r = Some rhs_edge ∧
       edge_label_ (edge_attrs_ lhs_edge) = edge_label_ (edge_attrs_ common_edge) ∧
       edge_label_ (edge_attrs_ rhs_edge) = edge_label_ (edge_attrs_ common_edge)) ∧
  (∀ l r lhs_edge rhs_edge,
     vget (edges_ (lhs_ rule)) l = Some lhs_edge →
     vget (edges_ (rhs_ rule)) r = Some rhs_edge →
     edge_label_ (edge_attrs_ lhs_edge) ≠ EmptyString →
     edge_label_ (edge_attrs_ lhs_edge) = edge_label_ (edge_attrs_ rhs_edge) →
     ∃ k, vget (edge_mapping_ (common_to_lhs_ rule)) k = Some [l] ∧
          vget (edge_mapping_ (common_to_rhs_ rule)) k = Some [r]).
Proof.
  intros Hvisits (HndL & HndR & HK & HcL & HcR)%compiled_rule_interface.
  cbv zeta in HK, HcL, HcR. rewrite HK, HcL, HcR. clear HK HcL HcR.
  set (lhs_table := side_labels (edges_ (lhs_ rule))) in *.
  set (rhs_table := side_labels (edges_ (rhs_ rule))) in *.
  set (paired := paired_labels rhs_table (traversal lhs_table)).
  assert (Hpaired : ∀ label l, (label, l) ∈ paired ↔
            (label, l) ∈ lhs_table ∧ is_Some (table_find rhs_table label)).
  { intros label l. unfold paired, paired_labels.
    rewrite list_elem_of_filter, Hvisits. simpl. tauto. }
  split; [| split].
  - rewrite map_map. simpl. change (map (λ x : string * Z, x.1) paired) with (map fst paired).
    apply (sublist_NoDup _ (map fst (traversal lhs_table))).
    + by rewrite Hvisits.
    + apply fmap_sublist. unfold paired, paired_labels. apply sublist_filter.
  - intros k common_edge Hk. rewrite vget_fmap in Hk.
    destruct (vget paired k) as [[label l] |] eqn:Hentry; [| done].
    simpl in Hk. injection Hk as <-. simpl.
    assert (Hin : (label, l) ∈ paired).
    { apply vget_Some in Hentry as [_ Hentry]. by apply list_elem_of_lookup_2 in Hentry. }
    apply Hpaired in Hin as [HinL [r Hr]].
    apply side_labels_in in HinL as (lhs_edge & Hle & Hlabel & Hne).
    pose proof (table_find_Some _ _ _ Hr) as HinR.
    apply side_labels_in in HinR as (rhs_edge & Hre & Hlabel' & _).
    split; [done |]. split; [done |]. split; [done |].
    exists l, r, lhs_edge, rhs_edge.
    rewrite !vget_fmap, Hentry. simpl. by rewrite Hr.
  - intros l r lhs_edge rhs_edge Hle Hre Hne Heq.
    pose proof (side_labels_elem _ _ _ Hle Hne) as HinL.
    assert (Hne' : edge_label_ (edge_attrs_ rhs_edge) ≠ EmptyString) by congruence.
    pose proof (side_labels_elem _ _ _ Hre Hne') as HinR. rewrite <- Heq in HinR.
    pose proof (table_find_entry _ _ _ HndR HinR) as Hr.
    assert (Hin : (edge_label_ (edge_attrs_ lhs_edge), l) ∈ paired).
    { apply Hpaired. split; [done |]. by exists r. }
    apply list_elem_of_lookup in Hin as [k Hk].
    exists (Z.of_nat k). rewrite !vget_fmap, !vget_of_nat, Hk. simpl.
    fold rhs_table. by rewrite Hr.
Qed.

Lemma createRuleFromGraph_interface_edges_witness :
  NoDup (map (λ edge, edge_label_ (edge_attrs_ edge)) (edges_ (common_ keep_rule))) ∧
  (∀ k common_edge,
     vget (edges_ (common_ keep_rule)) k = Some common_edge →
     head_ common_edge = 0 ∧ tail_ common_edge = 0 ∧
     edge_label_ (edge_attrs_ common_edge) ≠ EmptyString ∧
     ∃ l r lhs_edge rhs_edge,
       vget (edge_mapping_ (common_to_lhs_ keep_rule)) k = Some [l] ∧
       vget (edge_mapping_ (common_to_rhs_ keep_rule)) k = Some [r] ∧
       vget (edges_ (lhs_ keep_rule)) l = Some lhs_edge ∧
       vget (edges_ (rhs_ keep_rule)) r = Some rhs_edge ∧
       edge_label_ (edge_attrs_ lhs_edge) = edge_label_ (edge_attrs_ common_edge) ∧
       edge_label_ (edge_attrs_ rhs_edge) = edge_label_ (edge_attrs_ common_edge)) ∧
  (∀ l r lhs_edge rhs_edge,
     vget (edges_ (lhs_ keep_rule)) l = Some lhs_edge →
     vget (edges_ (rhs_ keep_rule)) r = Some rhs_edge →
     edge_label_ (edge_attrs_ lhs_edge) ≠ EmptyString →
     edge_label_ (edge_attrs_ lhs_edge) = edge_label_ (edge_attrs_ rhs_edge) →
     ∃ k, vget (edge_mapping_ (common_to_lhs_ keep_rule)) k = Some [l] ∧
          vget (edge_mapping_ (common_to_rhs_ keep_rule)) k = Some [r]).
Proof.
  apply (createRuleFromGraph_interface_edges (λ table, table) keep_rule_graph keep_rule).
  - done.
  - vm_compute. reflexivity.
Defined.

(** ** The order in which the label table is visited *)

Lemma zip_fmap3 {A B C D} (f : A → B) (g : A → C) (h : A → D) (l : list A) :
  zip (map f l) (zip (map g l) (map h l)) = map (λ x, (f x, (g x, h x))) l.
Proof. induction l as [| x l IH]; simpl; [done |]. by rewrite IH. Qed.

(** X18.  The order in which the table of the LHS labels is visited decides the
    order of the common edges of the compiled rule and nothing else: two
    orders give the same outcome, and when a rule is returned, the same two
    sides, the same common nodes and node mappings, and the same common
    edges with the same images, listed in another order. *)
Theorem createRuleFromGraph_traversal traversal traversal' graph rule :
  (∀ table, traversal table ≡ₚ table) →
  (∀ table, traversal' table ≡ₚ table) →
  createRuleFromGraph traversal graph = Value rule →
  ∃ rule',
    createRuleFromGraph traversal' graph = Value rule' ∧
    interface_reordered rule rule'.
Proof.
  intros Hvisits Hvisits' compiled.
  destruct (side_subgraph "L" graph) as [lhs_subgraph |] eqn:HL.
  2: { rewrite (createRuleFromGraph_missing traversal graph (or_introl HL)) in compiled.
       done. }
  destruct (side_subgraph "R" graph) as [rhs_subgraph |] eqn:HR.
  2: { rewrite (createRuleFromGraph_missing traversal graph (or_intror HR)) in compiled.
       done. }
  rewrite (createRuleFromGraph_loops traversal graph _ _ HL HR) in compiled.
  rewrite (createRuleFromGraph_loops traversal' graph _ _ HL HR).
  destruct (for_each_thrown (split_node _ _ _) _ _) as [ns | |];
    simpl in *; [| done | done].
  destruct (for_each_thrown (split_edge _ _ _ _) _ _) as [es | |];
    simpl in *; [| done | done].
  injection compiled as <-. eexists. split; [reflexivity |].
  unfold interface_reordered. simpl. do 5 (split; [done |]).
  unfold interface_edges. simpl. rewrite !pair_label_fold. simpl.
  rewrite !zip_fmap3. apply fmap_Permutation.
  unfold paired_labels. by rewrite Hvisits, Hvisits'.
Qed.

Lemma createRuleFromGraph_traversal_witness :
  ∃ rule',
    createRuleFromGraph (@rev (string * Z)) order_graph = Value rule' ∧
    interface_reordered order_rule rule'.
Proof.
  apply (createRuleFromGraph_traversal (λ table, table) (@rev (string * Z))
           order_graph order_rule).
  - done.
  - intros table. symmetry. apply Permutation_rev.
  - vm_compute. reflexivity.
Defined.

(** ** The order of the common edges in the applier *)

Lemma mapM_perm {A B} (f : A → option B) (l l' : list A) (k : list B) :
  l ≡ₚ l' → mapM f l = Some k → ∃ k', mapM f l' = Some k' ∧ k ≡ₚ k'.
Proof.
  intros Hperm Hk%mapM_Some_1.
  destruct (Forall2_perm_l _ _ _ _ Hperm Hk) as (k' & Hk' & HF).
  exists k'. split; [by apply mapM_Some_2 | done].
Qed.

Lemma interface_edge_mappings rule :
  vsize (edge_mapping_ (common_to_lhs_ rule)) = vsize (edges_ (common_ rule)) →
  vsize (edge_mapping_ (common_to_rhs_ rule)) = vsize (edges_ (common_ rule)) →
  edge_mapping_ (common_to_lhs_ rule) = map (λ x, x.2.1) (interface_edges rule) ∧
  edge_mapping_ (common_to_rhs_ rule) = map (λ x, x.2.2) (interface_edges rule).
Proof.
  unfold vsize, interface_edges. intros HL HR.
  set (es := edges_ (common_ rule)) in *.
  set (ls := edge_mapping_ (common_to_lhs_ rule)) in *.
  set (rs := edge_mapping_ (common_to_rhs_ rule)) in *.
  assert (Hsnd : (zip es (zip ls rs)).*2 = zip ls rs).
  { apply snd_zip. rewrite length_zip. lia. }
  split; symmetry.
  - change (((fst ∘ snd) <$> zip es (zip ls rs)) = ls).
    rewrite list_fmap_compose, Hsnd. apply fst_zip. lia.
  - change (((snd ∘ snd) <$> zip es (zip ls rs)) = rs).
    rewrite list_fmap_compose, Hsnd. apply snd_zip. lia.
Qed.

(** X19.  The applier goes through the common edges in the order of the rule, and
    only the order of the edges it emits depends on it.  Two well-formed
    rules that differ in the order of their common edges give, on the same
    target and match, results with the same node list and with the same
    edges up to their order. *)
Theorem applyRule_interface_order rule rule' target φ result :
  rule_wf rule →
  rule_wf rule' →
  interface_reordered rule rule' →
  applyRule rule target φ = Some result →
  ∃ result',
    applyRule rule' target φ = Some result' ∧
    nodes_ result' = nodes_ result ∧
    edges_ result' ≡ₚ edges_ result.
Proof.
  intros (_ & _ & [HsL _] & [HsR _] & _) (_ & _ & [HsL' _] & [HsR' _] & _)
         (HL & HR & HK & HcL & HcR & Hperm) Happly.
  apply applyRule_Some in Happly
    as (n1 & t1 & imgs & n2 & t2 & n3 & r3 & e1 & kept & e2 & e3 &
        H1 & Himgs & H2 & H3 & He1 & Hkept & He2 & He3 & ->).
  destruct (interface_edge_mappings rule HsL HsR) as [HmL HmR].
  destruct (interface_edge_mappings rule' HsL' HsR') as [HmL' HmR'].
  assert (HpL : edge_mapping_ (common_to_lhs_ rule)
                ≡ₚ edge_mapping_ (common_to_lhs_ rule')).
  { rewrite HmL, HmL'. by apply fmap_Permutation. }
  assert (HpR : edge_mapping_ (common_to_rhs_ rule)
                ≡ₚ edge_mapping_ (common_to_rhs_ rule')).
  { rewrite HmR, HmR'. by apply fmap_Permutation. }
  assert (Himgs' : common_images rule' φ = Some imgs).
  { rewrite <- Himgs. unfold common_images, common_image. by rewrite HK, HcL. }
  assert (Hfresh : fresh_nodes rule' = fresh_nodes rule).
  { unfold fresh_nodes, rhs_nodes_in_common. by rewrite HR, HcR. }
  assert (Hfresh_edges : fresh_edges rule' = fresh_edges rule).
  { unfold fresh_edges, rhs_edges_in_common. rewrite HR.
    assert (Hset : (list_to_set (concat (edge_mapping_ (common_to_rhs_ rule'))) : gset Z)
                   = list_to_set (concat (edge_mapping_ (common_to_rhs_ rule)))).
    { apply list_to_set_perm_L. by apply concat_perm. }
    by rewrite Hset. }
  rewrite (kept_edges_mapM rule φ HsL) in Hkept.
  destruct (mapM _ (edge_mapping_ (common_to_lhs_ rule))) as [images |] eqn:Himages;
    [| done].
  simpl in Hkept. injection Hkept as <-.
  destruct (mapM_perm _ _ _ _ HpL Himages) as (images' & Himages' & Hpi).
  apply emit_edges_spec in He2 as (es & Hes & ->).
  apply emit_edges_spec in He3 as (es3 & Hes3 & ->).
  assert (Hkept_perm : concat images ≡ₚ concat images') by by apply concat_perm.
  destruct (Forall2_perm_l _ _ _ _ Hkept_perm Hes) as (es' & Hes' & HF').
  exists (mkGraph n3 ((e1 ++ es') ++ es3) []). split; [| split; [done |]].
  - apply applyRule_Some.
    exists n1, t1, imgs, n2, t2, n3, r3, e1, (concat images'), (e1 ++ es'),
      ((e1 ++ es') ++ es3).
    rewrite Hfresh, Hfresh_edges, HR.
    split; [done |]. split; [done |]. split; [done |]. split; [done |].
    split; [done |].
    split; [by rewrite (kept_edges_mapM rule' φ HsL'), Himages' |].
    split; [apply emit_edges_spec; by exists es' |].
    split; [apply emit_edges_spec; by exists es3 | done].
  - simpl. by rewrite Hes'.
Qed.

Lemma applyRule_interface_order_witness :
  ∃ result',
    applyRule order_rule_reversed keep_host order_match = Some result' ∧
    nodes_ result' = nodes_ order_result ∧
    edges_ result' ≡ₚ edges_ order_result.
Proof.
  apply (applyRule_interface_order order_rule order_rule_reversed keep_host
           order_match order_result).
  - vm_decide.
  - vm_decide.
  - unfold interface_reordered. do 5 (split; [reflexivity |]).
    vm_compute. apply perm_swap.
  - vm_compute. reflexivity.
Defined.

(** ** Compiling, matching and applying *)

(** X20.  From an annotated graph to the rewritten target without leaving a
    vector: when the edges of either side join nodes of that side and the
    LHS has a node, the matcher returns on the compiled rule and any target,
    and the applier returns a graph for every match, on a target whose edges
    join its own nodes. *)
Theorem rewrite_defined traversal graph rule lhs_subgraph rhs_subgraph target :
  (∀ table, traversal table ≡ₚ table) →
  side_subgraph "L" graph = Some lhs_subgraph →
  side_subgraph "R" graph = Some rhs_subgraph →
  edges_on_side graph lhs_subgraph →
  edges_on_side graph rhs_subgraph →
  createRuleFromGraph traversal graph = Value rule →
  1 ≤ vsize (nodes_ (lhs_ rule)) →
  wf_graph target →
  ∃ ms, findMatches (lhs_ rule) target = Returns ms ∧
        ∀ φ, φ ∈ ms → is_Some (applyRule rule target φ).
Proof.
  intros Hvisits HL HR HonL HonR Hrule Hn Htarget.
  destruct (compiled_sides_wf traversal graph rule _ _ HL HR HonL HonR Hrule)
    as [HwL HwR].
  pose proof (compiled_rule_wf traversal Hvisits graph rule Hrule HwL HwR) as Hwf.
  eexists. split; [by apply findMatches_returns |].
  intros φ Hφ. apply applyRule_defined; [done | done |].
  destruct (returned_match_valid _ _ φ HwL Hφ) as [Heq Hvalid]. by split.
Qed.

Lemma rewrite_defined_witness :
  ∃ ms, findMatches (lhs_ swap_rule) swap_host = Returns ms ∧
        ∀ φ, φ ∈ ms → is_Some (applyRule swap_rule swap_host φ).
Proof.
  apply (rewrite_defined (λ table, table) swap_rule_graph swap_rule
           (mkSubgraph "L" {[0; 1]} {[0]}) (mkSubgraph "R" {[0; 2]} {[1]}) swap_host).
  - done.
  - reflexivity.
  - reflexivity.
  - vm_decide.
  - vm_decide.
  - vm_compute. reflexivity.
  - vm_compute. done.
  - vm_decide.
Defined.

(** X21.  A rule that only creates cannot be matched: when no node of the
    annotated graph is in the subgraph "L", the compiler returns a rule with
    an empty LHS all the same, and the matcher fails its assertion on that
    LHS, whatever the target. *)
Theorem findMatches_empty_lhs traversal graph rule lhs_subgraph target :
  side_subgraph "L" graph = Some lhs_subgraph →
  (∀ i, 0 ≤ i < vsize (nodes_ graph) → i ∉ subgraph_nodes_ lhs_subgraph) →
  createRuleFromGraph traversal graph = Value rule →
  nodes_ (lhs_ rule) = [] ∧ findMatches (lhs_ rule) target = Undefined.
Proof.
  intros HL Hnone (L & R & ns & es & HL' & _ & Hns & _ & Hlhs & _)%compiled_rule_parts.
  assert (L = lhs_subgraph) as -> by congruence.
  destruct Hns as (HnL & _).
  assert (Hfilter : filter (λ i, i ∈ subgraph_nodes_ lhs_subgraph)
                           (positions (nodes_ graph)) = []).
  { destruct (filter _ _) as [| i rest] eqn:Hf; [done |].
    assert (Hi : i ∈ filter (λ i, i ∈ subgraph_nodes_ lhs_subgraph)
                            (positions (nodes_ graph))) by (rewrite Hf; by left).
    apply list_elem_of_filter in Hi as [Hin Hi%elem_of_positions].
    by destruct (Hnone i Hi). }
  rewrite Hfilter in HnL. apply Forall2_nil_inv_l in HnL.
  assert (Hempty : nodes_ (lhs_ rule) = []) by (by rewrite Hlhs).
  split; [done |]. unfold findMatches. rewrite Hempty. done.
Qed.

Lemma findMatches_empty_lhs_witness :
  nodes_ (lhs_ (mkRule (mkGraph [] [] []) (mkGraph [sample_node "a"] [] [])
                       (mkGraph [] [] []) (mkGraphMapping [] [])
                       (mkGraphMapping [] []))) = [] ∧
  findMatches (lhs_ (mkRule (mkGraph [] [] []) (mkGraph [sample_node "a"] [] [])
                            (mkGraph [] [] []) (mkGraphMapping [] [])
                            (mkGraphMapping [] []))) sample_target = Undefined.
Proof.
  apply (findMatches_empty_lhs (λ table, table)
           (mkGraph [sample_node "a"] [] [mkSubgraph "L" ∅ ∅; mkSubgraph "R" {[0]} ∅])
           _ (mkSubgraph "L" ∅ ∅) sample_target).
  - reflexivity.
  - intros i _. apply not_elem_of_empty.
  - vm_compute. reflexivity.
Defined.
